(** * CVRP local search (rl4co/envs/routing/cvrp/local_search.py)

    A shallow embedding of the orchestration layer around the HGS-CVRP
    local search: the route codec ([get_subroutes], [merge_subroutes]),
    the final trim of the batch matrix, the textual request encoding
    ([write_routes]), the solver gateway ([Solver.local_search],
    [swapstar]) and the batch driver ([local_search]).

    Conventions of the embedding.
    - numpy integer arrays are [list Z]; array positions are [nat];
    - numpy floating arrays are lists of IEEE 754 data, the [spec_float]
      of the standard library: signed zeros, infinities, NaN and finite
      numbers with their mantissa and exponent. The arithmetic of the
      code (the product of the demands by 1000, the conversions to C
      doubles, the comparisons of the checks) is the rounded arithmetic
      of the format; the format of the demand array is a [dtype];
    - files hold ASCII text;
    - a Python exception is a value of [exn]; code that may raise returns
      a [result];
    - the file system under /tmp and the log of calls made to the native
      solver form the [world] that effectful code threads explicitly;
    - what lies outside the file is a section variable: the native
      library (its loading and its [local_search] entry point), Python's
      built-in [int], [get_distance_matrix], and the clock reading and
      random draw from which a call identity is made;
    - the jobs of the worker pool run one after the other, in submission
      order. *)

From Stdlib Require Import ZArith QArith List Lia Bool String Ascii.
From Stdlib Require Import DecimalString DecimalZ DecimalPos.
From Stdlib Require Import SpecFloat Qpower Lqa.
From stdpp Require Import gmap strings list fin_maps.
Import ListNotations.

Local Open Scope Z_scope.

(** ** Python exceptions and results *)

(** The [Exception] subclasses that the modelled code can raise or meet.
    Signals that derive from [BaseException] only (KeyboardInterrupt,
    SystemExit) are not modelled. *)
Inductive exn : Type :=
| ValueError
| KeyError
| IndexError
| AssertionError
| FileNotFoundError
| UnboundLocalError
| OtherException (name : string).

Inductive result (A : Type) : Type :=
| Ok (a : A)
| Raise (e : exn).
Arguments Ok {A} a.
Arguments Raise {A} e.

(** ** Route codec *)

(** [path[i:j]] for array positions [0 <= i], [0 <= j]. *)
Definition slice {A} (path : list A) (i j : nat) : list A :=
  take (j - i) (drop i path).

(** [np.where(path == 0)[0]], scanning from position [k]. *)
Fixpoint where_zero_from (k : nat) (path : list Z) : list nat :=
  match path with
  | [] => []
  | v :: rest =>
      if v =? 0 then k :: where_zero_from (S k) rest
      else where_zero_from (S k) rest
  end.

Definition where_zero (path : list Z) : list nat := where_zero_from 0 path.

(** One iteration of the loop of [get_subroutes]. *)
Definition get_subroutes_step (path : list Z) (end_with_zero : bool)
    (subroutes : list (list Z)) (ij : nat * nat) : list (list Z) :=
  let '(i, j) := ij in
  if (1 <? j - i)%nat then
    let j := if end_with_zero then (j + 1)%nat else j in
    subroutes ++ [slice path i j]
  else subroutes.

Definition get_subroutes (path : list Z) (end_with_zero : bool)
    : list (list Z) :=
  let x := where_zero path in
  fold_left (get_subroutes_step path end_with_zero) (combine x (tl x)) [].

(** [route[i : i + len(r)] = r] on a one-dimensional array. numpy assigns
    when the target slice has the length of [r], broadcasts a
    one-element [r] over the target slice, and raises ValueError
    otherwise. *)
Definition setitem_slice (route : list Z) (i : nat) (r : list Z)
    : result (list Z) :=
  let tgt := length (slice route i (i + length r)) in
  if (tgt =? length r)%nat then
    Ok (take i route ++ r ++ drop (i + length r) route)
  else
    match r with
    | [v] => Ok (take i route ++ repeat v tgt ++ drop (i + tgt) route)
    | _ => Raise ValueError
    end.

(** The loop of [merge_subroutes], with the array [route] and the write
    cursor [i] as loop state. *)
Fixpoint merge_loop (subroutes : list (list Z)) (route : list Z) (i : nat)
    : result (list Z) :=
  match subroutes with
  | [] => Ok route
  | r :: rest =>
      if (2 <? length r)%nat then
        let r := removelast r in
        match setitem_slice route i r with
        | Ok route => merge_loop rest route (i + length r)
        | Raise e => Raise e
        end
      else merge_loop rest route i
  end.

Definition merge_subroutes (subroutes : list (list Z)) (length : nat)
    : result (list Z) :=
  merge_loop subroutes (repeat 0 length) 0.

(** ** Final trim of the batch matrix *)

(** [np.where(row != 0)[0]], scanning from position [k]. *)
Fixpoint where_nonzero_from (k : nat) (row : list Z) : list nat :=
  match row with
  | [] => []
  | v :: rest =>
      if v =? 0 then where_nonzero_from (S k) rest
      else k :: where_nonzero_from (S k) rest
  end.

(** [np.where(new_actions != 0)[1]]: the column of every non-zero entry,
    in row-major order. *)
Definition where_nonzero_columns (new_actions : list (list Z)) : list nat :=
  flat_map (where_nonzero_from 0) new_actions.

(** [np.max] of a one-dimensional index array; an empty array has no
    maximum and numpy raises ValueError. *)
Definition np_max (x : list nat) : result nat :=
  match x with
  | [] => Raise ValueError
  | v :: rest => Ok (fold_left Nat.max rest v)
  end.

(** Lines 96-98 of [local_search]: remove heading and tailing zeros. *)
Definition trim (new_actions : list (list Z)) : result (list (list Z)) :=
  match np_max (where_nonzero_columns new_actions) with
  | Raise e => Raise e
  | Ok max_pos => Ok (map (fun row => slice row 1 (max_pos + 1)) new_actions)
  end.

(** ** Request encoding *)

Definition newline : string := String (ascii_of_nat 10) EmptyString.

(** [str(x)] of an integer. *)
Definition str (x : Z) : string := NilZero.string_of_int (Z.to_int x).

(** The text of the [i]-th write of [write_routes] ([i] counted from 0 as
    [enumerate] does). *)
Definition route_line (i : nat) (r : list Z) : string :=
  ("Route #" ++ str (Z.of_nat i + 1)%Z ++ ": "
   ++ String.concat " " (map str (List.filter (fun x => (0 <? x)%Z) r))
   ++ newline)%string.

Fixpoint write_routes_from (i : nat) (routes : list (list Z)) : string :=
  match routes with
  | [] => EmptyString
  | r :: rest => (route_line i r ++ write_routes_from (S i) rest)%string
  end.

(** The content that [write_routes] leaves in the file. *)
Definition write_routes_text (routes : list (list Z)) : string :=
  write_routes_from 0 routes.

(** ** Response decoding: Python string primitives *)

(** [str.isspace] on one ASCII character. Non-ASCII white space is not
    modelled. *)
Definition is_space (c : ascii) : bool :=
  let n := nat_of_ascii c in
  ((9 <=? n) && (n <=? 13) || (28 <=? n) && (n <=? 32))%nat.

(** The universal newlines of Python's text mode: a carriage return,
    together with the line feed that follows it if there is one, is
    read as one line feed. *)
Fixpoint universal_newlines (s : string) : string :=
  match s with
  | EmptyString => EmptyString
  | String c rest =>
      if Ascii.eqb c (ascii_of_nat 13) then
        String (ascii_of_nat 10)
          match rest with
          | String c' rest' =>
              if Ascii.eqb c' (ascii_of_nat 10) then universal_newlines rest'
              else universal_newlines rest
          | EmptyString => EmptyString
          end
      else String c (universal_newlines rest)
  end.

(** [s.split(sep)] for a one-character separator. *)
Fixpoint split_on (sep : ascii) (s : string) : list string :=
  match s with
  | EmptyString => [EmptyString]
  | String c rest =>
      if Ascii.eqb c sep then EmptyString :: split_on sep rest
      else match split_on sep rest with
           | piece :: pieces => String c piece :: pieces
           | [] => [String c EmptyString]
           end
  end.

Fixpoint lstrip (s : string) : string :=
  match s with
  | EmptyString => EmptyString
  | String c rest => if is_space c then lstrip rest else s
  end.

Fixpoint rstrip (s : string) : string :=
  match s with
  | EmptyString => EmptyString
  | String c rest =>
      match rstrip rest with
      | EmptyString => if is_space c then EmptyString else String c EmptyString
      | kept => String c kept
      end
  end.

(** [s.strip()]. *)
Definition strip (s : string) : string := rstrip (lstrip s).

(** [s.split()]: the maximal runs of characters that are not white space;
    [tok] is the run being read. *)
Fixpoint split_ws_from (tok : string) (s : string) : list string :=
  match s with
  | EmptyString => match tok with EmptyString => [] | _ => [tok] end
  | String c rest =>
      if is_space c then
        match tok with
        | EmptyString => split_ws_from EmptyString rest
        | _ => tok :: split_ws_from EmptyString rest
        end
      else split_ws_from (tok ++ String c EmptyString) rest
  end.

Definition split_ws (s : string) : list string := split_ws_from EmptyString s.

(** ** Floating-point numbers *)

(** A floating-point number of numpy, of Python or of C. *)
Abbreviation float := spec_float.

(** A floating-point format: the number of bits of the mantissa and the
    exponent of the infinities. *)
Record dtype : Type := { prec : Z; emax : Z }.

Definition float32 : dtype := {| prec := 24; emax := 128 |}.
Definition float64 : dtype := {| prec := 53; emax := 1024 |}.

(** [ctypes.c_double], and the Python [float]. *)
Definition c_double : dtype := float64.

(** The integer [n] as a number of the format. *)
Definition float_of_int (dt : dtype) (n : Z) : float :=
  binary_normalize (prec dt) (emax dt) n 0 false.

(** [x * y] on two numbers of the format: the product rounded to the
    nearest number of the format, ties to even. *)
Definition np_multiply (dt : dtype) (x y : float) : float :=
  SFmul (prec dt) (emax dt) x y.

(** [a.astype(dt)] on one element. *)
Definition astype (dt : dtype) (x : float) : float :=
  match x with
  | S754_finite s m e => binary_round (prec dt) (emax dt) s m e
  | _ => x
  end.

(** [x >= 0.0]: false for NaN. *)
Definition ge_zero (x : float) : bool := SFleb (S754_zero false) x.

(** [np.zeros(n)]. *)
Definition np_zeros (n : nat) : list float := repeat (S754_zero false) n.

(** The Python literals [1000.001] and [0.2]: the binary64 numbers
    nearest to the decimal fractions. *)
Definition float_1000_001 : float :=
  S754_finite false 8796101818301022 (-43).
Definition float_0_2 : float := S754_finite false 7205759403792794 (-55).

(** The exact value of a finite number; 0 for the others. *)
Definition F2Q (x : float) : Q :=
  match x with
  | S754_finite s m e =>
      ((if s then - (1) else 1) * inject_Z (Z.pos m) * 2 ^ e)%Q
  | _ => 0%Q
  end.

(** A zero or a positive finite number. *)
Definition nonneg (x : float) : Prop :=
  match x with
  | S754_zero _ | S754_finite false _ _ => True
  | _ => False
  end.

(** The exponent of a finite number is at least [lo]. *)
Definition expo_ge (lo : Z) (x : float) : Prop :=
  match x with
  | S754_finite _ _ e => lo <= e
  | _ => True
  end.

(** What rounding to nearest may add to a mantissa [M] that loses its
    [n] low bits: half a unit of the last place kept, when the first bit
    lost is set. *)
Definition round_carry (M n : Z) : Z :=
  if (1 <=? n) && Z.odd (M / 2 ^ (n - 1)) then 2 ^ (n - 1) else 0.

(** The number that [binary_round_aux] builds from a mantissa and an
    exponent, in the format of precision [p] and exponent bound [em]. *)
Definition datum (p em : Z) (s : bool) (mf ef : Z) : float :=
  match mf with
  | Z0 => S754_zero s
  | Z.pos m => if ef <=? em - p then S754_finite s m ef else S754_infinity s
  | Z.neg _ => S754_nan
  end.

(** ** Data handed to the solver gateway *)

(** [AlgorithmParameters], with the defaults of the dataclass. *)
Record AlgorithmParameters : Type := {
  nbGranular : Z;
  mu : Z;
  lambda_ : Z;
  nbElite : Z;
  nbClose : Z;
  targetFeasible : float;
  seed : Z;
  nbIter : Z;
  timeLimit : float;
  useSwapStar : bool
}.

Definition default_AlgorithmParameters : AlgorithmParameters := {|
  nbGranular := 20;
  mu := 25;
  lambda_ := 40;
  nbElite := 4;
  nbClose := 5;
  targetFeasible := float_0_2;
  seed := 0;
  nbIter := 20000;
  timeLimit := S754_zero false;
  useSwapStar := true
|}.

(** The arguments of one call of the native [local_search] entry point,
    in the order of [_c_api_local_search.argtypes]. *)
Record solver_args : Type := {
  arg_n_nodes : nat;
  arg_x : list float;
  arg_y : list float;
  arg_dist_mtx : list float;
  arg_service_times : list float;
  arg_demand : list float;
  arg_vehicle_capacity : float;
  arg_duration_limit : float;
  arg_is_duration_constraint : bool;
  arg_max_nb_veh : Z;
  arg_parameters : AlgorithmParameters;
  arg_verbose : bool;
  arg_callid : Z;
  arg_count : Z
}.

(** The [data] dictionary read by [Solver.local_search]. The keys read
    with a subscript ([demands], [vehicle_capacity]) are fields; the keys
    read with [data.get] are optional. *)
Record data : Type := {
  demands : list float;
  vehicle_capacity : float;
  depot : option Z;
  num_vehicles : option Z;
  service_times : option (list float);
  duration_limit : option float;
  x_coordinates : option (list float);
  y_coordinates : option (list float);
  distance_matrix : option (list (list float))
}.

(** [sizeof(c_int)] is 4 on the supported platforms. *)
Definition sizeof_c_int : Z := 4.
Definition C_INT_MAX : Z := 2 ^ (sizeof_c_int * 8 - 1) - 1.
(** [sys.float_info.max] of IEEE binary64. *)
Definition C_DBL_MAX : float := SFmax_float 53 1024.

(** ** The world: transient files and the log of native calls *)

Record world : Type := {
  files : gmap string string;
  calls : list solver_args
}.

Definition set_files (w : world) (f : gmap string string) : world :=
  {| files := f; calls := calls w |}.

(** Effectful code: a state transformer over the world that returns a
    value or raises. *)
Definition M (A : Type) : Type := world -> result A * world.

Definition ret {A} (a : A) : M A := fun w => (Ok a, w).
Definition raise {A} (e : exn) : M A := fun w => (Raise e, w).
Definition bind {A B} (m : M A) (k : A -> M B) : M B :=
  fun w =>
    match m w with
    | (Ok a, w') => k a w'
    | (Raise e, w') => (Raise e, w')
    end.
Definition lift {A} (r : result A) : M A := fun w => (r, w).
Definition assert (b : bool) : M unit :=
  if b then ret tt else raise AssertionError.

Declare Scope py_scope.
Delimit Scope py_scope with py.
Notation "'do' x <- m ; k" := (bind m (fun x => k))
  (at level 10, x name, m at level 100, k at level 200) : py_scope.
Notation "'run' m ; k" := (bind m (fun _ => k))
  (at level 10, m at level 100, k at level 200) : py_scope.

(** [try: body / except Exception: handler / else: orelse / finally: final].
    The [finally] block runs on every exit path; an exception raised by
    it replaces the pending outcome. *)
Definition try_ {A B} (body : M A) (handler : exn -> M B) (orelse : A -> M B)
    (final : M unit) : M B :=
  fun w =>
    let '(r, w1) :=
      match body w with
      | (Ok a, w0) => orelse a w0
      | (Raise e, w0) => handler e w0
      end in
    match final w1 with
    | (Ok _, w2) => (r, w2)
    | (Raise e, w2) => (Raise e, w2)
    end.

(** [os.remove(path)]. *)
Definition os_remove (path : string) : M unit :=
  fun w =>
    match files w !! path with
    | Some _ => (Ok tt, set_files w (delete path (files w)))
    | None => (Raise FileNotFoundError, w)
    end.

(** [write_routes(routes, filepath)]: the file is created or truncated and
    receives one line per route. *)
Definition write_routes (routes : list (list Z)) (filepath : string)
    : M unit :=
  fun w =>
    (Ok tt,
     set_files w (<[filepath := write_routes_text routes]> (files w))).

(** ** Solver gateway *)

Section Gateway.

(** The native library, outside the repository: the outcome of loading
    it in [Solver.__init__] and the behaviour of its [local_search]
    entry point, which may read and write the transient files and
    either returns a status code or makes the foreign call raise. *)
Variable CDLL : result unit.
Variable c_api_local_search :
  solver_args -> gmap string string -> result Z * gmap string string.

(** Python's built-in [int] on a token; [None] stands for ValueError. *)
Variable py_int : string -> option Z.

(** [map(int, tokens)], evaluated left to right. *)
Fixpoint map_int (tokens : list string) : result (list Z) :=
  match tokens with
  | [] => Ok []
  | t :: rest =>
      match py_int t with
      | None => Raise ValueError
      | Some v =>
          match map_int rest with
          | Ok vs => Ok (v :: vs)
          | Raise e => Raise e
          end
      end
  end.

(** [np.array([0, *map(int, line.split(":")[1].split()), 0])]. *)
Definition parse_route (line : string) : result (list Z) :=
  match split_on ":" line with
  | _ :: fields :: _ =>
      match map_int (split_ws fields) with
      | Ok vs => Ok (0 :: vs ++ [0])
      | Raise e => Raise e
      end
  | _ => Raise IndexError
  end.

(** The [while] loop of [read_routes] over the successive lines of the
    file; past the last line [readline] returns the empty string, which
    ends the loop as any other line without the prefix does. *)
Fixpoint read_routes_lines (lines : list string)
    : result (list (list Z)) :=
  match lines with
  | [] => Ok []
  | l :: rest =>
      let line := strip l in
      if String.prefix "Route" line then
        match parse_route line with
        | Raise e => Raise e
        | Ok r =>
            match read_routes_lines rest with
            | Ok routes => Ok (r :: routes)
            | Raise e => Raise e
            end
        end
      else Ok []
  end.

(** [read_routes]: the file is opened in text mode, the lines are those
    of the translated content. *)
Definition read_routes (filepath : string) : M (list (list Z)) :=
  fun w =>
    match files w !! filepath with
    | None => (Raise FileNotFoundError, w)
    | Some content =>
        (read_routes_lines
           (split_on (ascii_of_nat 10) (universal_newlines content)), w)
    end.

(** [(v >= 0.0).all()]. *)
Definition all_nonneg (v : list float) : bool := forallb ge_zero v.

(** [Solver._local_search]: converts the arrays to C doubles, flattens
    the distance matrix and calls the native entry point; the call is
    recorded in the log. *)
Definition Solver__local_search (x_coords y_coords : list float)
    (dist_mtx : list (list float)) (service_times demand : list float)
    (vehicle_capacity duration_limit : float) (is_duration_constraint : bool)
    (maximum_number_of_vehicles : Z)
    (algorithm_parameters : AlgorithmParameters) (verbose : bool)
    (callid count : Z) : M Z :=
  let n_nodes := length x_coords in
  let m := concat dist_mtx in
  if negb (length m =? n_nodes * n_nodes)%nat then raise ValueError
  else
    let args := {|
      arg_n_nodes := n_nodes;
      arg_x := map (astype c_double) x_coords;
      arg_y := map (astype c_double) y_coords;
      arg_dist_mtx := map (astype c_double) m;
      arg_service_times := map (astype c_double) service_times;
      arg_demand := map (astype c_double) demand;
      arg_vehicle_capacity := vehicle_capacity;
      arg_duration_limit := duration_limit;
      arg_is_duration_constraint := is_duration_constraint;
      arg_max_nb_veh := maximum_number_of_vehicles;
      arg_parameters := algorithm_parameters;
      arg_verbose := verbose;
      arg_callid := callid;
      arg_count := count
    |} in
    fun w =>
      let '(sol_p, f) := c_api_local_search args (files w) in
      (sol_p, {| files := f; calls := calls w ++ [args] |}).

(** [callid], from the clock reading and the random draw. *)
Definition make_callid (time_ns randint : Z) : Z :=
  (time_ns * 10000 + randint) mod C_INT_MAX.

Definition tmppath_of (callid : Z) : string :=
  ("/tmp/route-" ++ str callid)%string.
Definition resultpath_of (callid : Z) : string :=
  ("/tmp/swapstar-result-" ++ str callid)%string.

(** The checks and defaults of [Solver.local_search] up to the
    generation of the call identity. They touch neither the files nor
    the native library. *)
Definition prepare (d : data)
    : result (list float * list float * list (list float) * list float
              * list float * float * float * bool * Z) :=
  let demand := demands d in
  let vehicle_capacity := vehicle_capacity d in
  let n_nodes := length demand in
  let depot := default 0 (depot d) in
  if negb (depot =? 0) then Raise ValueError
  else
    let maximum_number_of_vehicles := default C_INT_MAX (num_vehicles d) in
    let service_times := default (np_zeros n_nodes) (service_times d) in
    let '(is_duration_constraint, duration_limit) :=
      match duration_limit d with
      | None => (false, C_DBL_MAX)
      | Some l => (true, l)
      end in
    let dist_mtx := distance_matrix d in
    let coords :=
      match x_coordinates d, y_coordinates d with
      | Some x, Some y => Ok (x, y)
      | _, _ =>
          match dist_mtx with
          | None => Raise AssertionError
          | Some _ => Ok (np_zeros n_nodes, np_zeros n_nodes)
          end
      end in
    match coords with
    | Raise e => Raise e
    | Ok (x_coords, y_coords) =>
        if negb ((length x_coords =? length y_coords)%nat
                 && (length y_coords =? length service_times)%nat
                 && (length service_times =? length demand)%nat)
        then Raise AssertionError
        else if negb (all_nonneg x_coords) then Raise AssertionError
        else if negb (all_nonneg y_coords) then Raise AssertionError
        else if negb (all_nonneg service_times) then Raise AssertionError
        else if negb (all_nonneg demand) then Raise AssertionError
        else
          match dist_mtx with
          | None | Some [] => Raise IndexError
          | Some ((row :: _) as mtx) =>
              if negb (length mtx =? length row)%nat
              then Raise AssertionError
              else if negb (forallb all_nonneg mtx) then Raise AssertionError
              else Ok (x_coords, y_coords, mtx, service_times, demand,
                       vehicle_capacity, duration_limit,
                       is_duration_constraint, maximum_number_of_vehicles)
          end
    end.

(** The body of the [try] statement of [Solver.local_search]: the
    native call followed by the decoding of the response. *)
Definition invoke_and_decode (parameters : AlgorithmParameters)
    (verbose : bool)
    (p : list float * list float * list (list float) * list float
         * list float * float * float * bool * Z) (callid count : Z)
    : M (list (list Z)) :=
  let '(x_coords, y_coords, dist_mtx, service_times, demand,
        vehicle_capacity, duration_limit, is_duration_constraint,
        maximum_number_of_vehicles) := p in
  (run Solver__local_search x_coords y_coords dist_mtx service_times
         demand vehicle_capacity duration_limit is_duration_constraint
         maximum_number_of_vehicles parameters verbose callid count;
   read_routes (resultpath_of callid))%py.

(** [Solver.local_search]. The local variable [result] is bound only
    when the body of the [try] completes; the final [return result]
    raises UnboundLocalError otherwise. [time_ns] and [randint] are the
    clock reading and the random draw of this call. *)
Definition Solver_local_search (parameters : AlgorithmParameters)
    (verbose : bool) (time_ns randint : Z) (d : data)
    (routes : list (list Z)) (count : Z) : M (list (list Z)) :=
  (do p <- lift (prepare d);
   let callid := make_callid time_ns randint in
   let tmppath := tmppath_of callid in
   let resultpath := resultpath_of callid in
   run write_routes routes tmppath;
   do result <-
     try_ (invoke_and_decode parameters verbose p callid count)
          (fun _ => ret None)
          (fun decoded => run os_remove resultpath; ret (Some decoded))
          (os_remove tmppath);
   match result with
   | Some r => ret r
   | None => raise UnboundLocalError
   end)%py.

(** [demands * 1000] on one element of an array of the format [dt]:
    the integer is converted to the format of the array. *)
Definition scale_demand (dt : dtype) (d : float) : float :=
  np_multiply dt d (float_of_int dt 1000).

(** The [data] dictionary that [swapstar] builds; [dt] is the format of
    the array [demands]. *)
Definition swapstar_data (dt : dtype) (demands : list float)
    (matrix : list (list float)) (positions : list (float * float))
    (routes : list (list Z)) : data := {|
  demands := map (scale_demand dt) demands;
  vehicle_capacity := float_1000_001;
  depot := Some 0;
  num_vehicles := Some (Z.of_nat (length routes));
  service_times := None;
  duration_limit := None;
  x_coordinates := Some (map fst positions);
  y_coordinates := Some (map snd positions);
  distance_matrix := Some matrix
|}.

(** The [try] statement that ends [swapstar], on the dictionary [d]
    that [swapstar] has built. The [print(e)] of the handler is not
    modelled. *)
Definition swapstar_try (time_ns randint : Z) (d : data)
    (routes : list (list Z)) (count : Z) : M (list (list Z)) :=
  try_ (Solver_local_search default_AlgorithmParameters false
          time_ns randint d routes count)
       (fun _ => ret routes)
       (fun result => ret result)
       (ret tt).

(** [swapstar]; [dt] is the format of the array [demands]. *)
Definition swapstar (time_ns randint : Z) (dt : dtype)
    (demands : list float) (matrix : list (list float))
    (positions : list (float * float)) (routes : list (list Z)) (count : Z)
    : M (list (list Z)) :=
  (run lift CDLL;
   swapstar_try time_ns randint
     (swapstar_data dt demands matrix positions routes) routes count)%py.

End Gateway.

(** ** Batch driver *)

(** The entries of the TensorDict that [local_search] reads. *)
Record tensordict : Type := {
  locs : list (list (float * float));
  demand : list (list float);
  demand_dtype : dtype;
  distances : option (list (list (list float)))
}.

(** [a[i]] on the first axis of an array. *)
Definition getitem {A} (a : list A) (i : nat) : result A :=
  match a !! i with
  | Some v => Ok v
  | None => Raise IndexError
  end.

(** [positions_np.shape[1]]: the number of locations of every item. *)
Definition shape1 {A} (a : list (list A)) : nat :=
  match a with
  | [] => 0
  | row :: _ => length row
  end.

(** The second loop of [local_search]: [future.result()] returns the
    routes of the job or raises what the job raised; the merged routes
    are stored in row [i]. *)
Fixpoint collect (futures : list (nat * result (list (list Z))))
    (worst_seq_len : nat) (new_actions : list (list Z))
    : result (list (list Z)) :=
  match futures with
  | [] => Ok new_actions
  | (i, future) :: rest =>
      match future with
      | Raise e => Raise e
      | Ok routes =>
          match merge_subroutes routes worst_seq_len with
          | Raise e => Raise e
          | Ok row => collect rest worst_seq_len (<[i := row]> new_actions)
          end
      end
  end.

Section Batch.

Variable CDLL : result unit.
Variable c_api_local_search :
  solver_args -> gmap string string -> result Z * gmap string string.
Variable py_int : string -> option Z.

(** [rl4co.utils.ops.get_distance_matrix], outside the modelled file. *)
Variable get_distance_matrix :
  list (list (float * float)) -> list (list (list float)).

(** The clock reading and the random draw of the job of each batch
    index. *)
Variable clock : nat -> Z * Z.

(** The job of batch index [i]: the arguments of [executor.submit] are
    evaluated by the caller, then [swapstar] runs and its outcome is
    kept in the future. The worker pool is modelled by running the
    jobs one after the other in submission order. *)
Definition submit (dt : dtype) (demands_np : list (list float))
    (distances_np : list (list (list float)))
    (positions_np : list (list (float * float)))
    (subroutes_all : list (list (list Z))) (max_iterations : Z) (i : nat)
    : M (nat * result (list (list Z))) :=
  (do d <- lift (getitem demands_np i);
   do m <- lift (getitem distances_np i);
   do p <- lift (getitem positions_np i);
   do r <- lift (getitem subroutes_all i);
   fun w =>
     let '(future, w') :=
       swapstar CDLL c_api_local_search py_int
         (fst (clock i)) (snd (clock i)) dt d m p r max_iterations w in
     (Ok (i, future), w'))%py.

Fixpoint submit_all (dt : dtype) (demands_np : list (list float))
    (distances_np : list (list (list float)))
    (positions_np : list (list (float * float)))
    (subroutes_all : list (list (list Z))) (max_iterations : Z)
    (indices : list nat) : M (list (nat * result (list (list Z)))) :=
  match indices with
  | [] => ret []
  | i :: rest =>
      (do future <- submit dt demands_np distances_np positions_np
                      subroutes_all max_iterations i;
       do futures <- submit_all dt demands_np distances_np positions_np
                       subroutes_all max_iterations rest;
       ret (future :: futures))%py
  end.

(** [local_search] up to the assembly of [new_actions], before the
    trim. *)
Definition local_search_assemble (td : tensordict)
    (actions : list (list Z)) (max_iterations : Z) : M (list (list Z)) :=
  let actions_np := map (fun row => 0 :: row ++ [0]) actions in
  let positions_np := locs td in
  let demands_np := map (fun row => S754_zero false :: row) (demand td) in
  let distances_np :=
    match distances td with
    | None => get_distance_matrix (locs td)
    | Some distances => distances
    end in
  let subroutes_all := map (fun path => get_subroutes path true) actions_np in
  (do futures <- submit_all (demand_dtype td) demands_np distances_np
                   positions_np subroutes_all max_iterations
                   (seq 0 (length subroutes_all));
   let worst_seq_len := (shape1 positions_np * 2)%nat in
   let new_actions :=
     repeat (repeat 0 worst_seq_len) (length actions_np) in
   lift (collect futures worst_seq_len new_actions))%py.

(** [local_search]. *)
Definition local_search (td : tensordict) (actions : list (list Z))
    (max_iterations : Z) : M (list (list Z)) :=
  (do new_actions <- local_search_assemble td actions max_iterations;
   lift (trim new_actions))%py.

End Batch.

(** ** The decomposition as the specification words it *)

(** The positions of the depot value in the tour, in increasing order. *)
Definition depot_positions (tour : list Z) : list nat :=
  List.filter (fun i => nth i tour 1 =? 0) (seq 0 (length tour)).

(** The consecutive pairs of a sequence. *)
Fixpoint consecutive_pairs {A} (x : list A) : list (A * A) :=
  match x with
  | i :: ((j :: _) as rest) => (i, j) :: consecutive_pairs rest
  | _ => []
  end.

(** One subroute, the slice from [i] to [j] inclusive, for every
    consecutive pair of depot positions that are more than one apart. *)
Definition decompose_spec (tour : list Z) : list (list Z) :=
  map (fun ij => slice tour (fst ij) (S (snd ij)))
      (List.filter (fun ij => (1 <? snd ij - fst ij)%nat)
                   (consecutive_pairs (depot_positions tour))).

(** The subroutes read off the structure of the tour: [acc] holds, in
    reverse, the customers met since the last depot visit. *)
Fixpoint split_at_depot (acc : list Z) (s : list Z) : list (list Z) :=
  match s with
  | [] => []
  | v :: rest =>
      if v =? 0 then
        match acc with
        | [] => split_at_depot [] rest
        | _ => (0 :: rev acc ++ [0]) :: split_at_depot [] rest
        end
      else split_at_depot (v :: acc) rest
  end.

(** What one consecutive pair of depot positions contributes. *)
Definition emit (path : list Z) (end_with_zero : bool) (ij : nat * nat)
    : list (list Z) :=
  if (1 <? snd ij - fst ij)%nat then
    [slice path (fst ij) (if end_with_zero then snd ij + 1 else snd ij)%nat]
  else [].

(** What [merge_subroutes] writes: every subroute of more than two
    entries without its last entry, one after the other. *)
Definition merged_prefix (subroutes : list (list Z)) : list Z :=
  concat (map (@removelast Z)
              (List.filter (fun r => (2 <? length r)%nat) subroutes)).

(** The non-depot nodes of a sequence, in visiting order. *)
Definition non_depot (tour : list Z) : list Z :=
  List.filter (fun v => negb (v =? 0)) tour.

(** A non-trivial subroute: the depot, at least one customer, the depot. *)
Definition is_subroute (r : list Z) : Prop :=
  exists body, body <> [] /\ Forall (fun v => v <> 0) body
               /\ r = 0 :: body ++ [0].

(** A matrix without non-zero entry, and a matrix with one. *)
Definition all_zero (m : list (list Z)) : Prop :=
  Forall (Forall (fun v => v = 0)) m.

Definition has_nonzero (m : list (list Z)) : Prop :=
  exists row j, In row m /\ (j < length row)%nat /\ nth j row 0 <> 0.

(** Every row has width [w]. *)
Definition rectangular (w : nat) (m : list (list Z)) : Prop :=
  Forall (fun row => length row = w) m.

(** A subroute as the gateway receives it: the depot, customers with
    positive indices, the depot. *)
Definition depot_delimited (r : list Z) : Prop :=
  exists body, r = 0 :: body ++ [0] /\ Forall (fun x => 0 < x) body.

(** A line of the request, without its line feed: the header with the
    number [k] of the route and the tokens separated by single spaces. *)
Definition line_of_tokens (k : Z) (tokens : list Z) : string :=
  ("Route #" ++ str k ++ ": " ++ String.concat " " (map str tokens))%string.

(** The string holds no line feed. *)
Fixpoint no_newline (s : string) : bool :=
  match s with
  | EmptyString => true
  | String c rest => negb (Ascii.eqb c (ascii_of_nat 10)) && no_newline rest
  end.

(** ** Capacity of a route *)

(** The demand that a route serves: the exact sum of the demands of the
    nodes it visits. *)
Definition route_demand (demand : list float) (route : list Z) : Q :=
  fold_right Qplus 0%Q
    (map (fun v => F2Q (nth (Z.to_nat v) demand (S754_zero false))) route).

(** The demands of the nodes of a route are finite. *)
Definition route_finite (demand : list float) (route : list Z) : Prop :=
  Forall (fun v => nonneg (nth (Z.to_nat v) demand (S754_zero false))) route.

(** ** Sample environments *)

(** No transient file and no native call yet. *)
Definition empty_world : world := {| files := ∅; calls := [] |}.

(** A native entry point whose call raises, and one that answers every
    request with the single route 0, 1, 2, 0. *)
Definition failing_solver (args : solver_args) (f : gmap string string)
    : result Z * gmap string string :=
  (Raise (OtherException "ArgumentError"), f).

Definition answering_solver (args : solver_args) (f : gmap string string)
    : result Z * gmap string string :=
  (Ok 0,
   <[("/tmp/swapstar-result-" ++ str (arg_callid args))%string
     := ("Route #1: 1 2" ++ newline)%string]> f).

(** A decimal reader for the tokens the samples use. *)
Definition sample_int (s : string) : option Z :=
  if String.eqb s "1" then Some 1
  else if String.eqb s "2" then Some 2
  else if String.eqb s "3" then Some 3
  else None.

(** Some numbers of binary32: 0, 1, and the numbers nearest to 0.4 and
    to 0.6; some numbers of binary64. *)
Definition f32_0 : float := S754_zero false.
Definition f32_1 : float := S754_finite false 8388608 (-23).
Definition f32_0_4 : float := S754_finite false 13421773 (-25).
Definition f32_0_6 : float := S754_finite false 10066330 (-24).
Definition f32_0_5 : float := S754_finite false 8388608 (-24).
Definition f32_4 : float := S754_finite false 8388608 (-21).
Definition f32_6 : float := S754_finite false 12582912 (-21).
Definition f64_400 : float := S754_finite false 7036874417766400 (-44).
Definition f64_600 : float := S754_finite false 5277655813324800 (-43).
Definition f64_4000 : float := S754_finite false 8796093022208000 (-41).
Definition f64_6000 : float := S754_finite false 6597069766656000 (-40).

(** Two demands of binary32 whose sum is exactly 1, after the demand 0
    of the depot. *)
Definition tight_demands : list float :=
  [f32_0; S754_finite false 12856893 (-24);
   S754_finite false 15681292 (-26)].

(** The demands of the depot and of two customers, in binary32. *)
Definition sample_demands : list float := [f32_0; f32_0_4; f32_0_6].

(** Three locations, the depot first, with their distance matrix. *)
Definition sample_positions : list (float * float) :=
  [(f32_0, f32_0); (f32_1, f32_0); (f32_0, f32_1)].
Definition sample_matrix : list (list float) :=
  [[f32_0; f32_1; f32_1]; [f32_1; f32_0; f32_1]; [f32_1; f32_1; f32_0]].


(** A batch of one item: the three sample locations, the demands of the
    two customers, the sample distances. *)
Definition sample_td : tensordict := {|
  locs := [sample_positions];
  demand := [[f32_0_4; f32_0_6]];
  demand_dtype := float32;
  distances := Some [sample_matrix]
|}.

(** No distance computation and a constant clock, for the samples. *)
Definition sample_distance_matrix (l : list (list (float * float)))
    : list (list (list float)) := [].
Definition sample_clock (i : nat) : Z * Z := (0, 7).

(** ** Characters of the exchange files *)

(** The character [c] does not occur in [s]. *)
Fixpoint lacks (c : ascii) (s : string) : bool :=
  match s with
  | EmptyString => true
  | String a rest => negb (Ascii.eqb a c) && lacks c rest
  end.

(** Every character of [s] is neither white space nor a colon. *)
Fixpoint plain (s : string) : bool :=
  match s with
  | EmptyString => true
  | String a rest => negb (is_space a) && negb (Ascii.eqb a ":") && plain rest
  end.

(** What a route becomes when it is written and read back: the depot,
    its entries greater than 0, the depot. *)
Definition as_subroute (r : list Z) : list Z :=
  0 :: List.filter (fun x => 0 <? x) r ++ [0].

(** A reader of plain decimal numerals, which [int] accepts as well. *)
Definition decimal_int (s : string) : option Z :=
  option_map Z.of_int (NilZero.int_of_string s).

(** A native entry point that answers with the route 0, 1, 2, 0 and
    removes the request file itself. *)
Definition tidy_solver (args : solver_args) (f : gmap string string)
    : result Z * gmap string string :=
  (Ok 0,
   delete ("/tmp/route-" ++ str (arg_callid args))%string
     (<[("/tmp/swapstar-result-" ++ str (arg_callid args))%string
        := ("Route #1: 1 2" ++ newline)%string]> f)).

(** ** Instances that reach the native solver *)

(** The checks of [Solver.local_search] on the data that [swapstar]
    builds: as many positions as demands; every coordinate, every scaled
    demand and every distance compares greater than or equal to 0.0,
    which excludes NaN; a square distance matrix. *)
Definition passes_checks (dt : dtype) (demands : list float)
    (matrix : list (list float)) (positions : list (float * float)) : bool :=
  (length positions =? length demands)%nat
  && all_nonneg (map fst positions)
  && all_nonneg (map snd positions)
  && all_nonneg (map (scale_demand dt) demands)
  && match matrix with
     | [] => false
     | row :: _ => (length matrix =? length row)%nat
     end
  && forallb all_nonneg matrix.

(** The checks pass and the distance matrix has one entry per pair of
    positions, so that [reshape] succeeds. *)
Definition valid_instance (dt : dtype) (demands : list float)
    (matrix : list (list float)) (positions : list (float * float)) : bool :=
  passes_checks dt demands matrix positions
  && (length (concat matrix) =? length positions * length positions)%nat.

(** The arguments of the native call that [swapstar] makes. *)
Definition swapstar_args (time_ns randint : Z) (dt : dtype)
    (demands : list float) (matrix : list (list float))
    (positions : list (float * float)) (routes : list (list Z)) (count : Z)
    : solver_args := {|
  arg_n_nodes := length positions;
  arg_x := map (astype c_double) (map fst positions);
  arg_y := map (astype c_double) (map snd positions);
  arg_dist_mtx := map (astype c_double) (concat matrix);
  arg_service_times := map (astype c_double) (np_zeros (length demands));
  arg_demand := map (astype c_double) (map (scale_demand dt) demands);
  arg_vehicle_capacity := float_1000_001;
  arg_duration_limit := C_DBL_MAX;
  arg_is_duration_constraint := false;
  arg_max_nb_veh := Z.of_nat (length routes);
  arg_parameters := default_AlgorithmParameters;
  arg_verbose := false;
  arg_callid := make_callid time_ns randint;
  arg_count := count
|}.

(** A native entry point that finds no improvement: it copies the
    request file of the call to its response file. *)
Definition echo_solver (args : solver_args) (f : gmap string string)
    : result Z * gmap string string :=
  match f !! ("/tmp/route-" ++ str (arg_callid args))%string with
  | Some text =>
      (Ok 0,
       <[("/tmp/swapstar-result-" ++ str (arg_callid args))%string := text]> f)
  | None => (Ok 1, f)
  end.

(** ** Locating the native library *)

(** [s.startswith("/")] and [s.endswith("/")]. *)
Definition startswith_sep (s : string) : bool :=
  match s with
  | String c _ => Ascii.eqb c "/"
  | EmptyString => false
  end.

Fixpoint endswith_sep (s : string) : bool :=
  match s with
  | EmptyString => false
  | String c EmptyString => Ascii.eqb c "/"
  | String _ rest => endswith_sep rest
  end.

(** One step of [os.path.join] on a POSIX system. *)
Definition join_step (path b : string) : string :=
  if startswith_sep b then b
  else if match path with EmptyString => true | _ => endswith_sep path end
       then (path ++ b)%string
       else (path ++ "/" ++ b)%string.

(** [os.path.join(a, *p)]. *)
Definition os_path_join (a : string) (p : list string) : string :=
  fold_left join_step p a.

(** [os.path.isfile(path)]: the world holds regular files only. *)
Definition os_path_isfile (path : string) (w : world) : bool :=
  match files w !! path with
  | Some _ => true
  | None => false
  end.

(** [get_lib_filename(hgs_dir)]. *)
Definition get_lib_filename (hgs_dir : string) : M string :=
  let path := os_path_join hgs_dir ["build"; "libhgscvrp.so"]%string in
  fun w =>
    if negb (os_path_isfile path w) then (Raise FileNotFoundError, w)
    else (Ok path, w).

Section ModuleInitialisation.

(** The shell, outside the repository: what running a command does to
    the files. [os.popen(cmd).read()] waits for the command and does
    not raise when the command fails. *)
Variable sh : string -> gmap string string -> gmap string string.

Definition os_popen_read (cmd : string) : M unit :=
  fun w => (Ok tt, set_files w (sh cmd (files w))).

(** The statements at module level that bind [HGS_LIBRARY_FILEPATH];
    [module_dir] is [os.path.dirname(os.path.realpath(__file__))]. The
    two [log.info] calls are not modelled. *)
Definition HGS_LIBRARY_FILEPATH (module_dir : string) : M string :=
  let hgs_dir := os_path_join module_dir ["HGS-CVRP"%string] in
  try_ (get_lib_filename hgs_dir)
       (fun e =>
          match e with
          | FileNotFoundError =>
              (run os_popen_read ("sh " ++ hgs_dir ++ "/build.sh")%string;
               get_lib_filename hgs_dir)%py
          | _ => raise e
          end)
       (fun path => ret path)
       (ret tt).

End ModuleInitialisation.

(** * Properties of the route codec *)

Example str_samples :
  str 0 = "0"%string /\ str 12 = "12"%string /\ str (-5) = "-5"%string.
Proof. repeat split. Qed.

Example get_subroutes_scenario :
  get_subroutes [0; 3; 1; 0; 2; 0] true = [[0; 3; 1; 0]; [0; 2; 0]]
  /\ get_subroutes [0; 3; 1; 0; 2; 0] false = [[0; 3; 1]; [0; 2]]
  /\ get_subroutes [0; 0; 5; 0; 0] true = [[0; 5; 0]].
Proof. repeat split. Qed.

Example merge_subroutes_overflow :
  merge_subroutes [[0; 3; 1; 0]; [0; 2; 0]] 4 = Raise ValueError.
Proof. reflexivity. Qed.

Section RouteCodec.

Lemma get_subroutes_fold path ewz ps acc :
  fold_left (get_subroutes_step path ewz) ps acc
  = acc ++ flat_map (emit path ewz) ps.
Proof.
  revert acc. induction ps as [|[i j] ps IH]; intros acc; simpl.
  - now rewrite app_nil_r.
  - rewrite IH. unfold emit. simpl.
    destruct (1 <? j - i)%nat; simpl.
    + now rewrite <- app_assoc.
    + reflexivity.
Qed.

Lemma combine_tl_pairs {A} (x : list A) :
  combine x (tl x) = consecutive_pairs x.
Proof.
  induction x as [|i [|j x] IH]; simpl; try reflexivity.
  simpl in IH. now rewrite IH.
Qed.

Lemma get_subroutes_flat_map path ewz :
  get_subroutes path ewz
  = flat_map (emit path ewz) (consecutive_pairs (where_zero path)).
Proof.
  unfold get_subroutes. now rewrite get_subroutes_fold, combine_tl_pairs.
Qed.

Lemma where_zero_from_filter path k :
  where_zero_from k path
  = List.filter (fun i => nth (i - k) path 1 =? 0) (seq k (length path)).
Proof.
  revert k. induction path as [|v rest IH]; intros k; simpl; [reflexivity|].
  rewrite Nat.sub_diag. rewrite IH.
  assert (E : List.filter (fun i => nth (i - S k) rest 1 =? 0)
                (seq (S k) (length rest))
            = List.filter (fun i => match (i - k)%nat with
                                    | O => v
                                    | S m => nth m rest 1
                                    end =? 0)
                (seq (S k) (length rest))).
  { apply List.filter_ext_in. intros i Hi. apply in_seq in Hi.
    replace (i - k)%nat with (S (i - S k)) by lia. reflexivity. }
  rewrite E. destruct (v =? 0); reflexivity.
Qed.

Lemma where_zero_depot_positions tour :
  where_zero tour = depot_positions tour.
Proof.
  unfold where_zero, depot_positions. rewrite where_zero_from_filter.
  apply List.filter_ext. intros i. now rewrite Nat.sub_0_r.
Qed.

Lemma flat_map_emit path (ps : list (nat * nat)) :
  flat_map (emit path true) ps
  = map (fun ij => slice path (fst ij) (S (snd ij)))
        (List.filter (fun ij => (1 <? snd ij - fst ij)%nat) ps).
Proof.
  induction ps as [|ij ps IH]; simpl; [reflexivity|].
  unfold emit at 1. destruct (1 <? snd ij - fst ij)%nat; simpl.
  - rewrite Nat.add_1_r. now rewrite IH.
  - exact IH.
Qed.

Lemma get_subroutes_decompose_spec tour :
  get_subroutes tour true = decompose_spec tour.
Proof.
  rewrite get_subroutes_flat_map, flat_map_emit.
  unfold decompose_spec. now rewrite where_zero_depot_positions.
Qed.

End RouteCodec.

Section RouteCodecStructure.

Lemma slice_middle {A} (pre mid post : list A) :
  slice (pre ++ mid ++ post) (length pre) (length pre + length mid) = mid.
Proof.
  unfold slice. rewrite drop_app_length.
  replace (length pre + length mid - length pre)%nat with (length mid) by lia.
  apply take_app_length.
Qed.

Lemma consecutive_pairs_cons {A} (i j : A) (x : list A) :
  consecutive_pairs (i :: j :: x) = (i, j) :: consecutive_pairs (j :: x).
Proof. reflexivity. Qed.

(** The index-based scan and the structural scan agree: [pre] is the
    part of the tour before the last depot visit, at position
    [length pre]. *)
Lemma emit_split_at_depot s :
  forall acc pre k,
    k = (length pre + 1 + length acc)%nat ->
    flat_map (emit (pre ++ 0 :: rev acc ++ s) true)
             (consecutive_pairs (length pre :: where_zero_from k s))
    = split_at_depot acc s.
Proof.
  induction s as [|v rest IH]; intros acc pre k Hk; [reflexivity|].
  cbn [where_zero_from split_at_depot].
  destruct (v =? 0) eqn:Hv.
  - apply Z.eqb_eq in Hv. subst v.
    rewrite consecutive_pairs_cons. cbn [flat_map].
    assert (W : pre ++ 0 :: rev acc ++ 0 :: rest
                = (pre ++ 0 :: rev acc) ++ 0 :: rev [] ++ rest).
    { rewrite <- app_assoc. reflexivity. }
    assert (L : length (pre ++ 0 :: rev acc) = k).
    { rewrite length_app. cbn [length]. rewrite length_rev. lia. }
    pose proof (IH [] (pre ++ 0 :: rev acc) (S k)) as T.
    rewrite L, <- W in T. rewrite T by (simpl; lia). clear T W L IH.
    unfold emit. cbn [fst snd].
    destruct acc as [|a acc].
    + replace (k - length pre)%nat with 1%nat by (simpl in Hk; lia).
      reflexivity.
    + replace (1 <? k - length pre)%nat with true
        by (symmetry; apply Nat.ltb_lt; simpl in Hk; lia).
      cbn [app]. f_equal.
      remember (rev (a :: acc)) as body eqn:Hb.
      assert (E : pre ++ 0 :: body ++ 0 :: rest
                  = pre ++ (0 :: body ++ [0]) ++ rest).
      { cbn [app]. rewrite <- app_assoc. reflexivity. }
      rewrite E. set (seg := 0 :: body ++ [0]).
      replace (k + 1)%nat with (length pre + length seg)%nat.
      * apply slice_middle.
      * subst seg. cbn [length]. rewrite length_app, Hb, length_rev. simpl. simpl in Hk. lia.
  - assert (W : pre ++ 0 :: rev acc ++ v :: rest
                = pre ++ 0 :: rev (v :: acc) ++ rest).
    { cbn [rev]. rewrite <- app_assoc. reflexivity. }
    rewrite W. apply IH. simpl. lia.
Qed.

Lemma get_subroutes_split s :
  get_subroutes (0 :: s) true = split_at_depot [] s.
Proof.
  rewrite get_subroutes_flat_map. unfold where_zero.
  cbn [where_zero_from]. change (0 =? 0) with true. cbn iota.
  exact (emit_split_at_depot s [] [] 1%nat eq_refl).
Qed.

End RouteCodecStructure.

Section Merge.

Lemma setitem_slice_fits (done r : list Z) (n : nat) :
  (length done + length r <= n)%nat ->
  setitem_slice (done ++ repeat 0 (n - length done)) (length done) r
  = Ok (done ++ r ++ repeat 0 (n - length done - length r)).
Proof.
  intros Hfit. unfold setitem_slice, slice.
  rewrite drop_app_length, take_app_length.
  replace (length done + length r - length done)%nat with (length r) by lia.
  rewrite length_take, repeat_length.
  rewrite Nat.min_l by lia.
  rewrite Nat.eqb_refl. do 3 f_equal.
  rewrite drop_app_add.
  replace (n - length done)%nat
    with (length r + (n - length done - length r))%nat at 1 by lia.
  rewrite repeat_app, <- (repeat_length 0 (length r)) at 1.
  now rewrite drop_app_length.
Qed.

Lemma setitem_slice_overflow (done r : list Z) (n : nat) :
  (length done <= n)%nat ->
  (n < length done + length r)%nat ->
  (2 <= length r)%nat ->
  setitem_slice (done ++ repeat 0 (n - length done)) (length done) r
  = Raise ValueError.
Proof.
  intros Hle Hover Hlen. unfold setitem_slice, slice.
  rewrite drop_app_length.
  rewrite length_take, repeat_length.
  replace (length done + length r - length done)%nat with (length r) by lia.
  rewrite Nat.min_r by lia.
  destruct (Nat.eqb_spec (n - length done) (length r)) as [E|_]; [lia|].
  destruct r as [|a [|b r]]; simpl in Hlen; try lia; reflexivity.
Qed.

Lemma length_removelast_pos {A} (r : list A) :
  (2 < length r)%nat -> (2 <= length (removelast r))%nat.
Proof.
  intros H. rewrite removelast_firstn_len, length_take.
  rewrite Nat.min_l by lia. lia.
Qed.

Lemma merged_prefix_cons r rest :
  merged_prefix (r :: rest)
  = if (2 <? length r)%nat then removelast r ++ merged_prefix rest
    else merged_prefix rest.
Proof.
  unfold merged_prefix. cbn [List.filter].
  destruct (2 <? length r)%nat; reflexivity.
Qed.

Lemma merge_state_step (done r : list Z) (n : nat) :
  done ++ r ++ repeat 0 (n - length done - length r)
  = (done ++ r) ++ repeat 0 (n - length (done ++ r)).
Proof.
  rewrite <- app_assoc, length_app. do 3 f_equal. lia.
Qed.

(** The loop invariant of [merge_subroutes]: the array is what has been
    written so far followed by zeros, and the cursor is the length of
    what has been written. *)
Lemma merge_loop_fits subroutes :
  forall (done : list Z) (n : nat),
    (length done + length (merged_prefix subroutes) <= n)%nat ->
    merge_loop subroutes (done ++ repeat 0 (n - length done)) (length done)
    = Ok (done ++ merged_prefix subroutes
          ++ repeat 0 (n - length done - length (merged_prefix subroutes))).
Proof.
  induction subroutes as [|r rest IH]; intros done n Hfit.
  - cbn. now rewrite Nat.sub_0_r.
  - rewrite merged_prefix_cons in *. cbn [merge_loop].
    destruct (2 <? length r)%nat eqn:Hr.
    + rewrite length_app in Hfit.
      rewrite setitem_slice_fits by lia.
      rewrite merge_state_step, <- length_app.
      rewrite IH by (rewrite length_app; lia).
      rewrite <- !app_assoc, !length_app. do 5 f_equal. lia.
    + apply IH. exact Hfit.
Qed.

Lemma merge_loop_overflow subroutes :
  forall (done : list Z) (n : nat),
    (length done <= n)%nat ->
    (n < length done + length (merged_prefix subroutes))%nat ->
    merge_loop subroutes (done ++ repeat 0 (n - length done)) (length done)
    = Raise ValueError.
Proof.
  induction subroutes as [|r rest IH]; intros done n Hle Hover.
  - cbn in Hover. lia.
  - rewrite merged_prefix_cons in *. cbn [merge_loop].
    destruct (2 <? length r)%nat eqn:Hr.
    + rewrite length_app in Hover.
      apply Nat.ltb_lt in Hr. pose proof (length_removelast_pos r Hr) as H2.
      destruct (le_lt_dec (length done + length (removelast r)) n) as [Hf|Hf].
      * rewrite setitem_slice_fits by lia.
        rewrite merge_state_step, <- length_app.
        apply IH; rewrite length_app; lia.
      * now rewrite setitem_slice_overflow by lia.
    + apply IH; assumption.
Qed.

(** Closed form of [merge_subroutes]. *)
Lemma merge_subroutes_closed_form subroutes n :
  merge_subroutes subroutes n
  = if (length (merged_prefix subroutes) <=? n)%nat
    then Ok (merged_prefix subroutes
             ++ repeat 0 (n - length (merged_prefix subroutes)))
    else Raise ValueError.
Proof.
  unfold merge_subroutes.
  destruct (Nat.leb_spec (length (merged_prefix subroutes)) n) as [H|H].
  - pose proof (merge_loop_fits subroutes [] n H) as E.
    cbn [length app] in E. now rewrite !Nat.sub_0_r in E.
  - pose proof (merge_loop_overflow subroutes [] n (Nat.le_0_l n) H) as E.
    cbn [length app] in E. now rewrite !Nat.sub_0_r in E.
Qed.

End Merge.

Section RoundTrip.

Lemma merged_prefix_segment (acc : list Z) (l : list (list Z)) :
  acc <> [] ->
  merged_prefix ((0 :: rev acc ++ [0]) :: l)
  = 0 :: rev acc ++ merged_prefix l.
Proof.
  intros Hacc. rewrite merged_prefix_cons.
  replace (Nat.ltb 2 (length (0 :: rev acc ++ [0]))) with true.
  - change (0 :: rev acc ++ [0]) with ((0 :: rev acc) ++ [0]).
    now rewrite removelast_last.
  - symmetry. apply Nat.ltb_lt. cbn [length].
    rewrite length_app, length_rev. destruct acc; [congruence|simpl; lia].
Qed.

Lemma merged_split_length s :
  forall acc,
    (length (merged_prefix (split_at_depot acc s)) <= length acc + length s)%nat.
Proof.
  induction s as [|v rest IH]; intros acc; cbn [split_at_depot].
  - cbn. lia.
  - destruct (v =? 0).
    + destruct acc as [|a acc].
      * specialize (IH []). simpl in *. lia.
      * rewrite merged_prefix_segment by congruence.
        specialize (IH []). cbn [length] in *.
        rewrite length_app, length_rev. cbn [length]. lia.
    + specialize (IH (v :: acc)). cbn [length] in *. lia.
Qed.

Lemma non_depot_app l1 l2 :
  non_depot (l1 ++ l2) = non_depot l1 ++ non_depot l2.
Proof. apply List.filter_app. Qed.

Lemma non_depot_repeat n : non_depot (repeat 0 n) = [].
Proof. induction n; simpl; auto. Qed.

(** Merging the subroutes of a sequence that ends at the depot keeps
    its non-depot nodes, in order. *)
Lemma non_depot_merged_split s :
  forall acc,
    non_depot (merged_prefix (split_at_depot acc (s ++ [0])))
    = non_depot (rev acc ++ s).
Proof.
  induction s as [|v rest IH]; intros acc.
  - cbn [app split_at_depot]. change (0 =? 0) with true. cbn iota.
    rewrite app_nil_r. destruct acc as [|a acc]; [reflexivity|].
    rewrite merged_prefix_segment by congruence.
    change (merged_prefix []) with (@nil Z). now rewrite app_nil_r.
  - cbn [app split_at_depot]. destruct (v =? 0) eqn:Hv.
    + apply Z.eqb_eq in Hv. subst v. destruct acc as [|a acc].
      * rewrite IH. reflexivity.
      * rewrite merged_prefix_segment by congruence.
        change (0 :: rev (a :: acc) ++ merged_prefix (split_at_depot [] (rest ++ [0])))
          with ([0] ++ rev (a :: acc) ++ merged_prefix (split_at_depot [] (rest ++ [0]))).
        rewrite !non_depot_app, IH.
        change (rev (a :: acc) ++ 0 :: rest)
          with (rev (a :: acc) ++ [0] ++ rest).
        rewrite !non_depot_app. reflexivity.
    + rewrite IH. cbn [rev]. now rewrite <- app_assoc.
Qed.

Lemma split_at_depot_wf s :
  forall acc,
    Forall (fun v => v <> 0) acc ->
    Forall is_subroute (split_at_depot acc s).
Proof.
  induction s as [|v rest IH]; intros acc Hacc; cbn [split_at_depot].
  - constructor.
  - destruct (v =? 0) eqn:Hv.
    + destruct acc as [|a acc]; [apply IH; constructor|].
      constructor; [|apply IH; constructor].
      exists (rev (a :: acc)). repeat split.
      * intros E. apply (f_equal (@length Z)) in E.
        rewrite length_rev in E. discriminate.
      * apply Forall_rev. exact Hacc.
    + apply IH. constructor; [|exact Hacc].
      intros E. subst v. discriminate.
Qed.

Lemma split_at_depot_zeros k : split_at_depot [] (repeat 0 k) = [].
Proof. induction k; simpl; auto. Qed.

Lemma split_at_depot_body body :
  forall acc rest,
    Forall (fun v => v <> 0) body ->
    rev acc ++ body <> [] ->
    split_at_depot acc (body ++ 0 :: rest)
    = (0 :: rev acc ++ body ++ [0]) :: split_at_depot [] rest.
Proof.
  induction body as [|v body IH]; intros acc rest Hnz Hne.
  - cbn [app split_at_depot]. change (0 =? 0) with true. cbn iota.
    rewrite app_nil_r in Hne. destruct acc as [|a acc]; [now cbn in Hne|].
    reflexivity.
  - inversion Hnz as [|? ? Hv Hbody]; subst.
    cbn [app split_at_depot].
    replace (v =? 0) with false by (symmetry; now apply Z.eqb_neq).
    rewrite IH; [|exact Hbody|].
    + cbn [rev]. now rewrite <- !app_assoc.
    + cbn [rev]. rewrite <- app_assoc. cbn.
      intros E. apply (f_equal (@length Z)) in E.
      rewrite length_app in E. cbn in E. lia.
Qed.

Lemma merged_prefix_head segs k :
  Forall is_subroute segs ->
  exists rest, merged_prefix segs ++ repeat 0 (S k) = 0 :: rest.
Proof.
  intros Hwf. destruct Hwf as [|r segs (body & Hne & Hnz & ->) Hsegs].
  - exists (repeat 0 k). reflexivity.
  - rewrite <- (rev_involutive body).
    rewrite merged_prefix_segment.
    + eexists. cbn [app]. reflexivity.
    + intros E. apply Hne. rewrite <- (rev_involutive body), E. reflexivity.
Qed.

(** Decomposing what was merged gives the merged subroutes back. *)
Lemma get_subroutes_merged segs k :
  Forall is_subroute segs ->
  get_subroutes (merged_prefix segs ++ repeat 0 (S k)) true = segs.
Proof.
  induction 1 as [|r segs (body & Hne & Hnz & ->) Hsegs IH].
  - change (merged_prefix []) with (@nil Z). cbn [app repeat].
    rewrite get_subroutes_split. apply split_at_depot_zeros.
  - destruct (merged_prefix_head segs k Hsegs) as [rest Hrest].
    rewrite <- (rev_involutive body) at 1.
    rewrite merged_prefix_segment.
    + rewrite rev_involutive. cbn [app]. rewrite get_subroutes_split.
      rewrite <- app_assoc, Hrest.
      rewrite split_at_depot_body; [|exact Hnz|now cbn].
      cbn [rev app]. f_equal.
      rewrite <- get_subroutes_split, <- Hrest. exact IH.
    + intros E. apply Hne. rewrite <- (rev_involutive body), E. reflexivity.
Qed.

End RoundTrip.

Section RouteCodecClaims.

Lemma starts_ends_with_depot (tour : list Z) :
  hd 1 tour = 0 -> List.last tour 1 = 0 ->
  tour = [0] \/ exists s, tour = 0 :: s ++ [0].
Proof.
  intros Hhd Hlast. destruct tour as [|v s]; [discriminate|].
  cbn in Hhd. subst v.
  destruct s as [|x s' _] using rev_ind; [now left|right].
  exists s'. change (0 :: s' ++ [x]) with ((0 :: s') ++ [x]) in Hlast.
  rewrite last_last in Hlast. now subst x.
Qed.

Lemma one_vehicle_tour (body : list Z) :
  body <> [] -> Forall (fun v => v <> 0) body ->
  get_subroutes (0 :: body ++ [0]) true = [0 :: body ++ [0]].
Proof.
  intros Hne Hnz. rewrite get_subroutes_split.
  now rewrite split_at_depot_body.
Qed.

(** C4. For a tour that begins and ends with the depot value 0,
    [get_subroutes] returns, from left to right, the slice from [i] to
    [j] inclusive for every consecutive pair [(i, j)] of depot
    positions with [j - i > 1], and nothing for the other pairs; every
    returned subroute is the depot, at least one customer, the depot;
    a tour that serves all its customers with one vehicle gives
    exactly one subroute, the tour itself. *)
Theorem get_subroutes_correct (tour : list Z) :
  hd 1 tour = 0 -> List.last tour 1 = 0 ->
  get_subroutes tour true = decompose_spec tour
  /\ Forall is_subroute (get_subroutes tour true)
  /\ (forall body,
        tour = 0 :: body ++ [0] -> body <> [] ->
        Forall (fun v => v <> 0) body ->
        get_subroutes tour true = [tour]).
Proof.
  intros Hhd Hlast. split; [apply get_subroutes_decompose_spec|]. split.
  - destruct tour as [|v s]; [discriminate|]. cbn in Hhd. subst v.
    rewrite get_subroutes_split. apply split_at_depot_wf. constructor.
  - intros body -> Hne Hnz. now apply one_vehicle_tour.
Qed.

Lemma get_subroutes_correct_witness :
  get_subroutes [0; 3; 1; 0; 2; 0] true = decompose_spec [0; 3; 1; 0; 2; 0]
  /\ get_subroutes [0; 3; 1; 2; 0] true = [[0; 3; 1; 2; 0]].
Proof.
  split.
  - apply (get_subroutes_correct [0; 3; 1; 0; 2; 0]); reflexivity.
  - apply (get_subroutes_correct [0; 3; 1; 2; 0] eq_refl eq_refl)
      with (body := [3; 1; 2]).
    + reflexivity.
    + discriminate.
    + repeat constructor; discriminate.
Defined.

(** C5. [merge_subroutes] returns an array of the target length that
    holds, from position 0 on, every subroute of more than two entries
    without its last entry, one after the other in the order of the
    collection, and zeros after them; subroutes of at most two entries
    leave no trace. When these entries do not fit in the target length
    the slice assignment raises ValueError. The tour [0,3,1,0,2,0]
    decomposes into [0,3,1,0] and [0,2,0], which merge with target
    length 10 into [0,3,1,0,2,0,0,0,0,0]. *)
Theorem merge_subroutes_correct (subroutes : list (list Z)) (n : nat) :
  match merge_subroutes subroutes n with
  | Ok route =>
      length route = n
      /\ route = concat (map (@removelast Z)
                          (List.filter (fun r => (2 <? length r)%nat)
                                       subroutes))
                 ++ repeat 0 (n - length (merged_prefix subroutes))
  | Raise e => e = ValueError /\ (n < length (merged_prefix subroutes))%nat
  end
  /\ get_subroutes [0; 3; 1; 0; 2; 0] true = [[0; 3; 1; 0]; [0; 2; 0]]
  /\ merge_subroutes [[0; 3; 1; 0]; [0; 2; 0]] 10
     = Ok [0; 3; 1; 0; 2; 0; 0; 0; 0; 0].
Proof.
  split; [|split; reflexivity].
  rewrite merge_subroutes_closed_form.
  destruct (Nat.leb_spec (length (merged_prefix subroutes)) n) as [H|H].
  - split; [|reflexivity].
    rewrite length_app, repeat_length. lia.
  - split; [reflexivity|exact H].
Qed.

Lemma round_trip_general (tour : list Z) :
  hd 1 tour = 0 -> List.last tour 1 = 0 ->
  exists merged,
    merge_subroutes (get_subroutes tour true) (length tour) = Ok merged
    /\ length merged = length tour
    /\ non_depot merged = non_depot tour
    /\ get_subroutes merged true = get_subroutes tour true.
Proof.
  intros Hhd Hlast.
  destruct (starts_ends_with_depot tour Hhd Hlast) as [->|[s ->]].
  - exists [0]. repeat split.
  - set (tour := 0 :: s ++ [0]).
    set (segs := get_subroutes tour true).
    assert (Hsegs : segs = split_at_depot [] (s ++ [0]))
      by apply get_subroutes_split.
    assert (Hlen : (length (merged_prefix segs) < length tour)%nat).
    { rewrite Hsegs. pose proof (merged_split_length (s ++ [0]) []) as L.
      subst tour. cbn [length] in *. lia. }
    assert (Hwf : Forall is_subroute segs).
    { rewrite Hsegs. apply split_at_depot_wf. constructor. }
    exists (merged_prefix segs
            ++ repeat 0 (length tour - length (merged_prefix segs))).
    split; [|split; [|split]].
    + rewrite merge_subroutes_closed_form.
      destruct (Nat.leb_spec (length (merged_prefix segs)) (length tour));
        [reflexivity|lia].
    + rewrite length_app, repeat_length. lia.
    + rewrite non_depot_app, non_depot_repeat, app_nil_r.
      rewrite Hsegs, non_depot_merged_split. subst tour.
      change (0 :: s ++ [0]) with ([0] ++ s ++ [0]).
      rewrite !non_depot_app. cbn. now rewrite app_nil_r.
    + replace (length tour - length (merged_prefix segs))%nat
        with (S (length tour - length (merged_prefix segs) - 1)) by lia.
      now apply get_subroutes_merged.
Qed.

(** C3. For a tour that starts and ends with the depot and has at
    least one non-trivial subroute, merging its decomposition to the
    length of the tour succeeds and gives a sequence of that length
    with the same non-depot nodes in the same order (hence the same
    multiset), whose decomposition is the decomposition of the tour:
    every vehicle keeps its customers in their visiting order and only
    the zero padding moves. *)
Theorem merge_get_subroutes_round_trip (tour : list Z) :
  hd 1 tour = 0 -> List.last tour 1 = 0 ->
  get_subroutes tour true <> [] ->
  exists merged,
    merge_subroutes (get_subroutes tour true) (length tour) = Ok merged
    /\ length merged = length tour
    /\ non_depot merged = non_depot tour
    /\ Permutation (non_depot merged) (non_depot tour)
    /\ get_subroutes merged true = get_subroutes tour true.
Proof.
  intros Hhd Hlast _.
  destruct (round_trip_general tour Hhd Hlast) as (merged & H1 & H2 & H3 & H4).
  exists merged. repeat split; try assumption. now rewrite H3.
Qed.

Lemma merge_get_subroutes_round_trip_witness :
  exists merged,
    merge_subroutes (get_subroutes [0; 3; 1; 0; 0; 2; 0] true) 7 = Ok merged
    /\ length merged = 7%nat
    /\ non_depot merged = [3; 1; 2]
    /\ Permutation (non_depot merged) [3; 1; 2]
    /\ get_subroutes merged true = [[0; 3; 1; 0]; [0; 2; 0]].
Proof.
  apply (merge_get_subroutes_round_trip [0; 3; 1; 0; 0; 2; 0]).
  - reflexivity.
  - reflexivity.
  - vm_compute. discriminate.
Defined.

End RouteCodecClaims.

Section Trim.

Lemma in_where_nonzero_from row :
  forall k c,
    In c (where_nonzero_from k row)
    <-> (k <= c < k + length row)%nat /\ nth (c - k) row 0 <> 0.
Proof.
  induction row as [|v rest IH]; intros k c; cbn [where_nonzero_from length].
  - split; [intros []|lia].
  - destruct (Z.eqb_spec v 0) as [Hv|Hv].
    + rewrite IH. split.
      * intros [Hr Hn]. split; [lia|].
        replace (c - k)%nat with (S (c - S k)) by lia. exact Hn.
      * intros [Hr Hn]. destruct (Nat.eq_dec c k) as [->|Hck].
        -- rewrite Nat.sub_diag in Hn. now cbn in Hn.
        -- split; [lia|].
           replace (c - k)%nat with (S (c - S k)) in Hn by lia. exact Hn.
    + cbn [In]. rewrite IH. split.
      * intros [->|[Hr Hn]].
        -- split; [lia|]. now rewrite Nat.sub_diag.
        -- split; [lia|].
           replace (c - k)%nat with (S (c - S k)) by lia. exact Hn.
      * intros [Hr Hn]. destruct (Nat.eq_dec c k) as [->|Hck]; [now left|].
        right. split; [lia|].
        replace (c - k)%nat with (S (c - S k)) in Hn by lia. exact Hn.
Qed.

Lemma in_where_nonzero_columns m c :
  In c (where_nonzero_columns m)
  <-> exists row, In row m /\ (c < length row)%nat /\ nth c row 0 <> 0.
Proof.
  unfold where_nonzero_columns. rewrite in_flat_map.
  split; intros (row & Hin & H); exists row; (split; [exact Hin|]).
  - apply in_where_nonzero_from in H. rewrite Nat.sub_0_r in H.
    destruct H as [Hr Hn]. split; [lia|exact Hn].
  - apply in_where_nonzero_from. rewrite Nat.sub_0_r.
    destruct H as [Hr Hn]. split; [lia|exact Hn].
Qed.

Lemma fold_max_ge x : forall v, (v <= fold_left Nat.max x v)%nat.
Proof.
  induction x as [|a x IH]; intros v; cbn; [lia|].
  specialize (IH (Nat.max v a)). lia.
Qed.

Lemma fold_max_upper x :
  forall v y, In y x -> (y <= fold_left Nat.max x v)%nat.
Proof.
  induction x as [|a x IH]; intros v y Hy; [destruct Hy|].
  cbn. destruct Hy as [->|Hy]; [|now apply IH].
  pose proof (fold_max_ge x (Nat.max v y)). lia.
Qed.

Lemma fold_max_in x :
  forall v, fold_left Nat.max x v = v \/ In (fold_left Nat.max x v) x.
Proof.
  induction x as [|a x IH]; intros v; cbn; [now left|].
  destruct (IH (Nat.max v a)) as [E|Hin]; [|now right; right].
  rewrite E. destruct (Nat.max_spec v a) as [[_ ->]|[_ ->]]; auto.
Qed.

(** [np_max] returns the largest element, and raises on the empty
    array only. *)
Lemma np_max_spec x c :
  np_max x = Ok c <-> In c x /\ forall y, In y x -> (y <= c)%nat.
Proof.
  destruct x as [|v x]; cbn [np_max].
  - split; [discriminate|intros [[] _]].
  - split.
    + intros E. injection E as <-. split.
      * destruct (fold_max_in x v) as [->|Hin]; [now left|now right].
      * intros y [->|Hy]; [apply fold_max_ge|now apply fold_max_upper].
    + intros [Hin Hmax]. f_equal. apply Nat.le_antisymm.
      * apply Hmax. destruct (fold_max_in x v) as [->|H]; [now left|now right].
      * destruct Hin as [->|Hin]; [apply fold_max_ge|now apply fold_max_upper].
Qed.

Lemma np_max_empty x e : np_max x = Raise e -> x = [] /\ e = ValueError.
Proof. destruct x; cbn; [intros [= <-]; auto|discriminate]. Qed.

Lemma all_zero_no_columns m : all_zero m -> where_nonzero_columns m = [].
Proof.
  intros Hz. destruct (where_nonzero_columns m) as [|c x] eqn:E; [reflexivity|].
  assert (Hin : In c (where_nonzero_columns m)) by (rewrite E; now left).
  apply in_where_nonzero_columns in Hin as (row & Hrow & Hlt & Hn).
  unfold all_zero in Hz. rewrite List.Forall_forall in Hz.
  specialize (Hz row Hrow). rewrite List.Forall_forall in Hz.
  exfalso. apply Hn, Hz. now apply nth_In.
Qed.

Lemma trim_all_zero m : all_zero m -> trim m = Raise ValueError.
Proof. intros Hz. unfold trim. now rewrite all_zero_no_columns. Qed.

Lemma nth_slice_1 (row : list Z) c j :
  (j < c)%nat -> nth j (slice row 1 (c + 1)) 0 = nth (S j) row 0.
Proof.
  intros Hj. unfold slice. rewrite nth_firstn.
  replace (j <? c + 1 - 1)%nat with true
    by (symmetry; apply Nat.ltb_lt; lia).
  now rewrite nth_skipn.
Qed.

Lemma length_slice_1 (row : list Z) c :
  (c < length row)%nat -> length (slice row 1 (c + 1)) = c.
Proof.
  intros Hc. unfold slice. rewrite length_take, length_drop. lia.
Qed.

End Trim.

Section TrimClaims.

Lemma has_nonzero_max m :
  has_nonzero m -> exists c, np_max (where_nonzero_columns m) = Ok c.
Proof.
  intros (row & j & Hrow & Hj & Hn).
  destruct (np_max (where_nonzero_columns m)) as [c|e] eqn:E; [now exists c|].
  apply np_max_empty in E as [E _].
  assert (Hin : In j (where_nonzero_columns m))
    by (apply in_where_nonzero_columns; now exists row).
  rewrite E in Hin. destruct Hin.
Qed.

Lemma trim_second_pass c (m' : list (list Z)) :
  rectangular c m' -> (1 <= c)%nat ->
  (exists row, In row m' /\ nth (c - 1) row 0 <> 0) ->
  trim m' = Ok (map (drop 1) m').
Proof.
  intros Hrect Hc (row & Hrow & Hn).
  unfold rectangular in Hrect. rewrite List.Forall_forall in Hrect.
  assert (E : np_max (where_nonzero_columns m') = Ok (c - 1)%nat).
  { apply np_max_spec. split.
    - apply in_where_nonzero_columns. exists row.
      rewrite (Hrect row Hrow). repeat split; [assumption|lia|assumption].
    - intros y Hy. apply in_where_nonzero_columns in Hy as (r & Hr & Hlt & _).
      rewrite (Hrect r Hr) in Hlt. lia. }
  unfold trim. rewrite E. f_equal. apply map_ext_in. intros r Hr.
  unfold slice. apply take_ge. rewrite length_drop, (Hrect r Hr). lia.
Qed.

(** C2, as the code has it. The trim finds the rightmost column [c]
    that holds a non-zero entry in any row and keeps the columns 1 to
    [c] of every row, so the rows keep a common width, [c], decided by
    the whole batch. The step always drops column 0, hence it is not
    idempotent: applied to its own output it removes the first column
    of that output and no further trailing column, and it raises
    ValueError when that output is empty. *)
Theorem trim_joint_drops_first_column (w : nat) (m : list (list Z)) :
  rectangular w m -> has_nonzero m ->
  exists c,
    np_max (where_nonzero_columns m) = Ok c
    /\ (c < w)%nat
    /\ (exists row, In row m /\ nth c row 0 <> 0)
    /\ (forall row j, In row m -> (c < j)%nat -> nth j row 0 = 0)
    /\ trim m = Ok (map (fun row => slice row 1 (c + 1)) m)
    /\ rectangular c (map (fun row => slice row 1 (c + 1)) m)
    /\ ((1 <= c)%nat ->
        trim (map (fun row => slice row 1 (c + 1)) m)
        = Ok (map (drop 1) (map (fun row => slice row 1 (c + 1)) m)))
    /\ (c = 0%nat ->
        trim (map (fun row => slice row 1 (c + 1)) m) = Raise ValueError).
Proof.
  intros Hrect Hnz. destruct (has_nonzero_max m Hnz) as [c Hc].
  exists c. split; [exact Hc|].
  pose proof Hc as Hspec. apply np_max_spec in Hspec as [Hin Hmax].
  apply in_where_nonzero_columns in Hin as (row & Hrow & Hlt & Hn).
  pose proof Hrect as Hall. unfold rectangular in Hall.
  rewrite List.Forall_forall in Hall.
  assert (Hcw : (c < w)%nat) by (rewrite <- (Hall row Hrow); exact Hlt).
  assert (Hrect' : rectangular c (map (fun row => slice row 1 (c + 1)) m)).
  { unfold rectangular. rewrite List.Forall_forall. intros r' Hr'.
    apply in_map_iff in Hr' as (r & <- & Hr).
    apply length_slice_1. now rewrite (Hall r Hr). }
  split; [exact Hcw|]. split; [now exists row|]. split.
  { intros r j Hr Hj. destruct (Z.eq_dec (nth j r 0) 0) as [E|E]; [exact E|].
    destruct (le_lt_dec (length r) j) as [Hge|Hlt'].
    - now apply nth_overflow.
    - assert (Hj' : In j (where_nonzero_columns m))
        by (apply in_where_nonzero_columns; now exists r).
      apply Hmax in Hj'. lia. }
  split; [unfold trim; now rewrite Hc|]. split; [exact Hrect'|]. split.
  - intros H1. apply (trim_second_pass c _ Hrect' H1).
    exists (slice row 1 (c + 1)). split.
    + apply in_map_iff. now exists row.
    + rewrite nth_slice_1 by lia.
      replace (S (c - 1)) with c by lia. exact Hn.
  - intros ->. apply trim_all_zero. unfold all_zero.
    rewrite List.Forall_forall. intros r' Hr'.
    unfold rectangular in Hrect'. rewrite List.Forall_forall in Hrect'.
    specialize (Hrect' r' Hr'). destruct r'; [constructor|discriminate].
Qed.

Lemma trim_joint_drops_first_column_witness :
  exists c,
    np_max (where_nonzero_columns [[0; 3; 1; 0; 0; 0]; [0; 2; 0; 4; 0; 0]])
    = Ok c
    /\ (c < 6)%nat
    /\ (exists row,
          In row [[0; 3; 1; 0; 0; 0]; [0; 2; 0; 4; 0; 0]]
          /\ nth c row 0 <> 0)
    /\ (forall row j,
          In row [[0; 3; 1; 0; 0; 0]; [0; 2; 0; 4; 0; 0]] ->
          (c < j)%nat -> nth j row 0 = 0)
    /\ trim [[0; 3; 1; 0; 0; 0]; [0; 2; 0; 4; 0; 0]]
       = Ok (map (fun row => slice row 1 (c + 1))
                 [[0; 3; 1; 0; 0; 0]; [0; 2; 0; 4; 0; 0]])
    /\ rectangular c
         (map (fun row => slice row 1 (c + 1))
              [[0; 3; 1; 0; 0; 0]; [0; 2; 0; 4; 0; 0]])
    /\ ((1 <= c)%nat ->
        trim (map (fun row => slice row 1 (c + 1))
                  [[0; 3; 1; 0; 0; 0]; [0; 2; 0; 4; 0; 0]])
        = Ok (map (drop 1)
                (map (fun row => slice row 1 (c + 1))
                     [[0; 3; 1; 0; 0; 0]; [0; 2; 0; 4; 0; 0]])))
    /\ (c = 0%nat ->
        trim (map (fun row => slice row 1 (c + 1))
                  [[0; 3; 1; 0; 0; 0]; [0; 2; 0; 4; 0; 0]])
        = Raise ValueError).
Proof.
  apply (trim_joint_drops_first_column 6).
  - repeat constructor.
  - exists [0; 3; 1; 0; 0; 0], 1%nat. repeat split.
    + now left.
    + simpl. lia.
    + simpl. discriminate.
Defined.

(** C2, as the specification words it, fails: the matrix [[0,3,1,0]]
    has a non-zero entry and is trimmed to [[3,1]]; trimming [[3,1]]
    gives [[1]], not [[3,1]]. *)
Lemma trim_not_idempotent :
  has_nonzero [[0; 3; 1; 0]]
  /\ trim [[0; 3; 1; 0]] = Ok [[3; 1]]
  /\ trim [[3; 1]] = Ok [[1]]
  /\ ~ (forall m m', has_nonzero m -> trim m = Ok m' -> trim m' = Ok m').
Proof.
  assert (Hnz : has_nonzero [[0; 3; 1; 0]]).
  { exists [0; 3; 1; 0], 1%nat. repeat split;
      [now left|simpl; lia|simpl; discriminate]. }
  split; [exact Hnz|]. split; [reflexivity|]. split; [reflexivity|].
  intros H. specialize (H [[0; 3; 1; 0]] [[3; 1]] Hnz eq_refl).
  discriminate H.
Qed.

End TrimClaims.

Section RequestEncoding.

Lemma positive_entries body :
  Forall (fun x => 0 < x) body ->
  List.filter (fun x => 0 <? x) (0 :: body ++ [0]) = body.
Proof.
  intros H. cbn [List.filter]. change (0 <? 0) with false. cbn iota.
  rewrite List.filter_app. cbn. rewrite app_nil_r.
  induction H as [|x body Hx _ IH]; [reflexivity|].
  cbn. replace (0 <? x) with true by (symmetry; now apply Z.ltb_lt).
  now rewrite IH.
Qed.

Lemma ends_removed (body : list Z) :
  removelast (tl (0 :: body ++ [0])) = body.
Proof. cbn [tl]. apply removelast_last. Qed.

(** On a depot-delimited subroute the entries that [write_routes] keeps
    are the subroute without its two ends. *)
Lemma depot_delimited_tokens r :
  depot_delimited r ->
  List.filter (fun x => 0 <? x) r = removelast (tl r).
Proof.
  intros (body & -> & Hpos).
  now rewrite positive_entries, ends_removed.
Qed.

Lemma append_String c (s t : string) :
  (String c s ++ t)%string = String c (s ++ t)%string.
Proof. reflexivity. Qed.

Lemma string_app_assoc (s t u : string) :
  ((s ++ t) ++ u = s ++ t ++ u)%string.
Proof.
  induction s as [|c s IH]; [reflexivity|].
  rewrite !append_String. now f_equal.
Qed.

Lemma route_line_tokens i r :
  route_line i r
  = (line_of_tokens (Z.of_nat i + 1)%Z
       (List.filter (fun x => (0 <? x)%Z) r)
     ++ newline)%string.
Proof.
  unfold route_line, line_of_tokens. now rewrite !string_app_assoc.
Qed.

Lemma no_newline_app s t :
  no_newline (s ++ t) = no_newline s && no_newline t.
Proof.
  induction s as [|c s IH]; [reflexivity|].
  rewrite append_String. cbn [no_newline]. rewrite IH.
  now rewrite andb_assoc.
Qed.

Lemma no_newline_uint d : no_newline (NilEmpty.string_of_uint d) = true.
Proof. induction d; cbn; auto. Qed.

Lemma no_newline_str x : no_newline (str x) = true.
Proof.
  unfold str, NilZero.string_of_int, NilZero.string_of_uint.
  destruct (Z.to_int x) as [d|d]; destruct d; cbn;
    try reflexivity; apply no_newline_uint.
Qed.

Lemma no_newline_concat sep l :
  no_newline sep = true ->
  Forall (fun t => no_newline t = true) l ->
  no_newline (String.concat sep l) = true.
Proof.
  intros Hsep H. induction H as [|t l Ht Hl IH]; [reflexivity|].
  destruct l as [|t' l]; [exact Ht|].
  change (String.concat sep (t :: t' :: l))
    with (t ++ sep ++ String.concat sep (t' :: l))%string.
  now rewrite !no_newline_app, Ht, Hsep, IH.
Qed.

Lemma no_newline_line k tokens :
  no_newline (line_of_tokens k tokens) = true.
Proof.
  unfold line_of_tokens. rewrite !no_newline_app, no_newline_str.
  rewrite no_newline_concat; [reflexivity|reflexivity|].
  apply List.Forall_forall. intros t Ht.
  apply in_map_iff in Ht as (x & <- & _). apply no_newline_str.
Qed.

Lemma split_on_line s rest :
  no_newline s = true ->
  split_on (ascii_of_nat 10) (s ++ newline ++ rest)
  = s :: split_on (ascii_of_nat 10) rest.
Proof.
  induction s as [|c s IH]; intros Hs.
  - reflexivity.
  - cbn in Hs. apply andb_true_iff in Hs as [Hc Hs].
    rewrite append_String. cbn [split_on].
    apply negb_true_iff in Hc. rewrite Hc. now rewrite IH.
Qed.

(** The lines of the text that [write_routes] produces, for any list of
    routes: one per route, then the empty remainder after the last line
    feed. *)
Lemma write_routes_from_lines routes :
  forall i,
    split_on (ascii_of_nat 10) (write_routes_from i routes)
    = imap (fun k r =>
              line_of_tokens (Z.of_nat (i + k) + 1)
                (List.filter (fun x => 0 <? x) r)) routes
      ++ [EmptyString].
Proof.
  induction routes as [|r rest IH]; intros i; [reflexivity|].
  cbn [write_routes_from imap].
  rewrite route_line_tokens, string_app_assoc.
  rewrite split_on_line by apply no_newline_line.
  rewrite IH. rewrite Nat.add_0_r. cbn [app]. f_equal.
  f_equal. apply imap_ext. intros k x _. cbn.
  now replace (i + S k)%nat with (S i + k)%nat by lia.
Qed.

End RequestEncoding.

Section RequestEncodingClaims.

(** C8. For every list of routes, [write_routes] leaves in the file one
    line per route; the line of the route at position [k] of the list
    (the [k+1]-th written) is "Route #" followed by [k+1], ": " and the
    tokens of the route separated by single spaces. The tokens are the
    entries greater than 0; for a subroute (the depot, customers with
    positive indices, the depot) they are the node indices of the
    subroute without the depot markers at its two ends. *)
Theorem write_routes_encoding (routes : list (list Z)) (filepath : string)
    (w : world) :
  fst (write_routes routes filepath w) = Ok tt
  /\ exists text,
       files (snd (write_routes routes filepath w)) !! filepath = Some text
       /\ length (split_on (ascii_of_nat 10) text) = S (length routes)
       /\ split_on (ascii_of_nat 10) text !! length routes
          = Some EmptyString
       /\ forall (k : nat) (r : list Z),
            routes !! k = Some r ->
            exists tokens,
              split_on (ascii_of_nat 10) text !! k
              = Some ("Route #" ++ str (Z.of_nat k + 1) ++ ": "
                      ++ String.concat " " (map str tokens))%string
              /\ tokens = List.filter (fun x => 0 <? x) r
              /\ (depot_delimited r -> tokens = removelast (tl r)).
Proof.
  split; [reflexivity|].
  exists (write_routes_text routes). cbn [write_routes snd set_files files].
  split; [apply lookup_insert_eq|].
  unfold write_routes_text. rewrite write_routes_from_lines.
  split; [|split].
  - rewrite length_app, length_imap. cbn. lia.
  - rewrite lookup_app_r; rewrite length_imap; [|lia].
    now rewrite Nat.sub_diag.
  - intros k r Hk. exists (List.filter (fun x => 0 <? x) r).
    split; [|split; [reflexivity|apply depot_delimited_tokens]].
    rewrite lookup_app_l.
    + rewrite list_lookup_imap, Hk. reflexivity.
    + rewrite length_imap. now apply lookup_lt_Some in Hk.
Qed.

Lemma write_routes_encoding_witness :
  files (snd (write_routes [[0; 3; 1; 0]; [0; 2; 0]] "/tmp/route-7"
                empty_world)) !! "/tmp/route-7"%string
  = Some ("Route #1: 3 1" ++ newline ++ "Route #2: 2" ++ newline)%string
  /\ exists text,
       files (snd (write_routes [[0; 3; 1; 0]; [0; 2; 0]] "/tmp/route-7"
                     empty_world)) !! "/tmp/route-7"%string = Some text
       /\ split_on (ascii_of_nat 10) text !! 1%nat
          = Some ("Route #" ++ str 2 ++ ": "
                  ++ String.concat " " (map str (removelast (tl [0; 2; 0]))))%string.
Proof.
  split; [vm_compute; reflexivity|].
  destruct (write_routes_encoding [[0; 3; 1; 0]; [0; 2; 0]] "/tmp/route-7"
              empty_world) as (_ & text & Htext & _ & _ & Hline).
  exists text. split; [exact Htext|].
  destruct (Hline 1%nat [0; 2; 0] eq_refl) as (tokens & Hk & _ & Hends).
  rewrite Hk, Hends; [reflexivity|].
  exists [2]. split; [reflexivity|repeat constructor].
Defined.

End RequestEncodingClaims.

(** * Properties of the floating-point arithmetic *)

(** The numbers written out in the definitions are what their names
    say. A decimal literal is the correctly rounded quotient of two
    integers that the format holds, which is what the division of the
    format computes; the numbers are in the canonical form of their
    format. *)
Example float_samples :
  float_1000_001
  = SFdiv 53 1024 (float_of_int float64 1000001) (float_of_int float64 1000)
  /\ float_0_2
     = SFdiv 53 1024 (float_of_int float64 2) (float_of_int float64 10)
  /\ C_DBL_MAX = S754_finite false (2 ^ 53 - 1) 971
  /\ f32_0_4 = SFdiv 24 128 (float_of_int float32 2) (float_of_int float32 5)
  /\ f32_0_6 = SFdiv 24 128 (float_of_int float32 3) (float_of_int float32 5)
  /\ f32_0_5 = SFdiv 24 128 (float_of_int float32 1) (float_of_int float32 2)
  /\ f32_1 = float_of_int float32 1
  /\ f32_4 = float_of_int float32 4
  /\ f32_6 = float_of_int float32 6
  /\ [f64_400; f64_600; f64_4000; f64_6000]
     = map (float_of_int float64) [400; 600; 4000; 6000]
  /\ forallb (valid_binary 53 1024) [float_1000_001; float_0_2; C_DBL_MAX]
     = true
  /\ forallb (valid_binary 24 128) tight_demands = true.
Proof. repeat split. Qed.

(** The conversion to a C double changes no number of binary32 or of
    binary64 among the samples, and the product by 1000 rounds: 0.4 and
    0.6 of binary32, each a little above the decimal fraction, give 400
    and 600. *)
Example conversion_samples :
  map (astype c_double) [f32_0; f32_1; f32_4; f64_400; float_1000_001]
  = [f32_0; S754_finite false 4503599627370496 (-52);
     S754_finite false 4503599627370496 (-50); f64_400; float_1000_001]
  /\ map (fun d => astype c_double (scale_demand float32 d))
       [f32_0_4; f32_0_6; S754_nan; S754_infinity false]
     = [f64_400; f64_600; S754_nan; S754_infinity false]
  /\ (2 # 5 < F2Q f32_0_4)%Q /\ (3 # 5 < F2Q f32_0_6)%Q.
Proof. repeat split. Qed.

Section Rounding.

(** The precision and the exponent bound of a format. *)

Variables p em : Z.

Lemma digits2_pos_bounds (m : positive) :
  2 ^ (Z.pos (digits2_pos m) - 1) <= Z.pos m < 2 ^ Z.pos (digits2_pos m).
Proof.
  induction m as [m IH|m IH|]; cbn [digits2_pos].
  - rewrite Pos2Z.inj_succ.
    replace (Z.succ (Z.pos (digits2_pos m)) - 1)
      with (Z.succ (Z.pos (digits2_pos m) - 1)) by lia.
    rewrite !Z.pow_succ_r by lia. lia.
  - rewrite Pos2Z.inj_succ.
    replace (Z.succ (Z.pos (digits2_pos m)) - 1)
      with (Z.succ (Z.pos (digits2_pos m) - 1)) by lia.
    rewrite !Z.pow_succ_r by lia. lia.
  - cbn. lia.
Qed.

Lemma iter_pos_invariant {A} (f : A -> A) (P : Z -> A -> Prop) :
  (forall k x, 0 <= k -> P k x -> P (k + 1) (f x)) ->
  forall n k x, 0 <= k -> P k x -> P (k + Z.pos n) (SpecFloat.iter_pos f n x).
Proof.
  intros Hstep. induction n as [n IH|n IH|]; intros k x Hk HP; cbn [SpecFloat.iter_pos].
  - replace (k + Z.pos n~1) with (k + 1 + Z.pos n + Z.pos n) by lia.
    apply IH; [lia|]. apply IH; [lia|]. now apply Hstep.
  - replace (k + Z.pos n~0) with (k + Z.pos n + Z.pos n) by lia.
    apply IH; [lia|]. now apply IH.
  - now apply Hstep.
Qed.

Lemma shr_1_spec (mrs : shr_record) :
  0 <= shr_m mrs ->
  shr_m (shr_1 mrs) = shr_m mrs / 2
  /\ shr_r (shr_1 mrs) = Z.odd (shr_m mrs).
Proof.
  destruct mrs as [m r s]. cbn [shr_m shr_1].
  destruct m as [|[q|q|]|q]; intros H; cbn [shr_m shr_r]; try lia.
  - split; reflexivity.
  - split; [|reflexivity].
    apply Z.div_unique with 1; lia.
  - split; [|reflexivity].
    apply Z.div_unique with 0; lia.
  - split; reflexivity.
Qed.

(** [k] right shifts of a mantissa [m0]: the quotient by [2 ^ k], and
    the last bit shifted out. *)
Lemma shr_iter_spec (m0 : Z) (n : positive) :
  0 <= m0 ->
  let mrs := SpecFloat.iter_pos shr_1 n {| shr_m := m0; shr_r := false; shr_s := false |} in
  shr_m mrs = m0 / 2 ^ Z.pos n
  /\ shr_r mrs = Z.odd (m0 / 2 ^ (Z.pos n - 1)).
Proof.
  intros Hm0. cbn zeta.
  pose (P := fun k mrs =>
               shr_m mrs = m0 / 2 ^ k
               /\ (1 <= k -> shr_r mrs = Z.odd (m0 / 2 ^ (k - 1)))).
  assert (H : P (0 + Z.pos n)
                (SpecFloat.iter_pos shr_1 n
                   {| shr_m := m0; shr_r := false; shr_s := false |})).
  { apply iter_pos_invariant; [|lia|].
    - intros k x Hk [Hm Hr].
      assert (Hx : 0 <= shr_m x).
      { rewrite Hm. apply Z.div_pos; [lia|]. apply Z.pow_pos_nonneg; lia. }
      destruct (shr_1_spec x Hx) as [Hm1 Hr1]. split.
      + rewrite Hm1, Hm, Z.pow_add_r, Z.pow_1_r by lia.
        rewrite Z.div_div; [reflexivity| |lia].
        apply Z.pow_nonzero; lia.
      + intros _. rewrite Hr1, Hm. now replace (k + 1 - 1) with k by lia.
    - split; [cbn; now rewrite Z.div_1_r|lia]. }
  destruct H as [Hm Hr]. cbn [Z.add] in *. split; [exact Hm|]. apply Hr. lia.
Qed.


Lemma shr_round_upper (M E n : Z) mrs e' :
  0 <= M ->
  shr {| shr_m := M; shr_r := false; shr_s := false |} E n = (mrs, e') ->
  let R := round_nearest_even (shr_m mrs) (loc_of_shr_record mrs) in
  0 <= R /\ e' = E + Z.max n 0 /\ R * 2 ^ (e' - E) <= M + round_carry M n.
Proof.
  intros HM Hs. cbn zeta. unfold round_carry.
  destruct n as [|q|q]; cbn [shr] in Hs; injection Hs as <- <-.
  - rewrite Z.sub_diag. cbn. lia.
  - destruct (shr_iter_spec M q HM) as [Hm Hr]. cbn zeta in Hm, Hr.
    destruct (SpecFloat.iter_pos shr_1 q _) as [m' r' s'].
    cbn [shr_m shr_r] in *.
    replace (E + Z.pos q - E) with (Z.pos q) by lia.
    replace (E + Z.pos q) with (E + Z.max (Z.pos q) 0) by lia.
    replace (1 <=? Z.pos q) with true by (symmetry; apply Z.leb_le; lia).
    cbn [andb]. rewrite <- Hr.
    assert (Hpow : 0 < 2 ^ (Z.pos q - 1)) by (apply Z.pow_pos_nonneg; lia).
    assert (Hq : 2 ^ Z.pos q = 2 * 2 ^ (Z.pos q - 1)).
    { rewrite <- Z.pow_succ_r by lia. f_equal. lia. }
    assert (Hm' : 0 <= m').
    { rewrite Hm. apply Z.div_pos; [lia|]. apply Z.pow_pos_nonneg; lia. }
    assert (Hle : m' * 2 ^ Z.pos q <= M).
    { rewrite Hm, Z.mul_comm. apply Z.mul_div_le. apply Z.pow_pos_nonneg; lia. }
    destruct r'.
    + (* the first bit lost is set *)
      assert (Ha : M / 2 ^ (Z.pos q - 1) = 2 * m' + 1).
      { assert (Hdiv : m' = M / 2 ^ (Z.pos q - 1) / 2).
        { rewrite Hm, Hq, Z.mul_comm.
          rewrite Z.div_div; [reflexivity|lia|lia]. }
        symmetry in Hr. rewrite Z.odd_spec in Hr. destruct Hr as [c Hc].
        rewrite Hc in Hdiv |- *.
        replace (2 * c + 1) with (1 + c * 2) in Hdiv by lia.
        rewrite Z.div_add in Hdiv by lia. rewrite (Z.div_small 1 2) in Hdiv by lia. lia. }
      assert (Hb : 2 ^ (Z.pos q - 1) * (M / 2 ^ (Z.pos q - 1)) <= M)
        by (apply Z.mul_div_le; lia).
      rewrite Ha in Hb.
      assert (HR : round_nearest_even m'
                     (loc_of_shr_record
                        {| shr_m := m'; shr_r := true; shr_s := s' |})
                   <= m' + 1).
      { destruct s'; cbn; [lia|]. destruct (Z.even m'); lia. }
      assert (HR0 : 0 <= round_nearest_even m'
                          (loc_of_shr_record
                             {| shr_m := m'; shr_r := true; shr_s := s' |})).
      { destruct s'; cbn; [lia|]. destruct (Z.even m'); lia. }
      repeat split; [exact HR0|]. rewrite Hq. nia.
    + assert (HR : round_nearest_even m'
                     (loc_of_shr_record
                        {| shr_m := m'; shr_r := false; shr_s := s' |}) = m').
      { destruct s'; reflexivity. }
      rewrite HR. repeat split; [exact Hm'|]. lia.
  - rewrite Z.sub_diag. cbn. lia.
Qed.

Lemma shr_trunc_upper (R e' n : Z) mrs e'' :
  0 <= R ->
  shr {| shr_m := R; shr_r := false; shr_s := false |} e' n = (mrs, e'') ->
  0 <= shr_m mrs /\ e'' = e' + Z.max n 0 /\ shr_m mrs * 2 ^ (e'' - e') <= R.
Proof.
  intros HR Hs.
  destruct n as [|q|q]; cbn [shr] in Hs; injection Hs as <- <-.
  - rewrite Z.sub_diag. cbn. lia.
  - destruct (shr_iter_spec R q HR) as [Hm _]. cbn zeta in Hm.
    rewrite Hm. replace (e' + Z.pos q - e') with (Z.pos q) by lia.
    assert (Hpow : 0 < 2 ^ Z.pos q) by (apply Z.pow_pos_nonneg; lia).
    split; [apply Z.div_pos; lia|]. split; [lia|].
    rewrite Z.mul_comm. apply Z.mul_div_le. lia.
  - rewrite Z.sub_diag. cbn. lia.
Qed.

(** Rounding an exact product or conversion: the result has a mantissa
    [mf] and an exponent [ef], not below the exponent of the input nor
    below the least exponent of the format, and exceeds the input by at
    most the carry of the rounding. *)
Lemma binary_round_aux_upper (s : bool) (M : positive) (E : Z) :
  exists mf ef,
    0 <= mf /\ E <= ef /\ emin p em <= ef
    /\ mf * 2 ^ (ef - E)
       <= Z.pos M
          + round_carry (Z.pos M)
              (fexp p em (Z.pos (digits2_pos M) + E) - E)
    /\ binary_round_aux p em s (Z.pos M) E loc_Exact = datum p em s mf ef.
Proof.
  unfold binary_round_aux, shr_fexp. cbn [Zdigits2 shr_record_of_loc].
  set (n := fexp p em (Z.pos (digits2_pos M) + E) - E).
  destruct (shr {| shr_m := Z.pos M; shr_r := false; shr_s := false |} E n)
    as [mrs' e'] eqn:H1.
  destruct (shr_round_upper (Z.pos M) E n mrs' e' ltac:(lia) H1)
    as (HR0 & He' & HR).
  set (R := round_nearest_even (shr_m mrs') (loc_of_shr_record mrs')) in *.
  set (n2 := fexp p em (Zdigits2 R + e') - e').
  destruct (shr {| shr_m := R; shr_r := false; shr_s := false |} e' n2)
    as [mrs'' e''] eqn:H2.
  destruct (shr_trunc_upper R e' n2 mrs'' e'' HR0 H2) as (Hm0 & He'' & Hm).
  exists (shr_m mrs''), e''. split; [exact Hm0|]. split; [lia|].
  split.
  { subst n. unfold fexp in He'. unfold emin in *. lia. }
  split; [|reflexivity].
  replace (e'' - E) with ((e'' - e') + (e' - E)) by lia.
  rewrite Z.pow_add_r by lia.
  assert (0 < 2 ^ (e' - E)) by (apply Z.pow_pos_nonneg; lia).
  nia.
Qed.


Lemma pow2_pos (e : Z) : (0 < 2 ^ e)%Q.
Proof. now apply Qpower_0_lt. Qed.

Lemma pow2_add (a b : Z) : (2 ^ (a + b) == 2 ^ a * 2 ^ b)%Q.
Proof. now apply Qpower_plus. Qed.

Lemma pow2_Z (k : Z) : 0 <= k -> (2 ^ k == inject_Z (2 ^ k))%Q.
Proof. intros Hk. now rewrite Zpower_Qpower. Qed.

Lemma pow2_cancel (k : Z) : (2 ^ k * 2 ^ (- k) == 1)%Q.
Proof. rewrite <- pow2_add. now replace (k + - k) with 0 by lia. Qed.

Lemma pow2_lt_inv (a b : Z) : (2 ^ a < 2 ^ b)%Q -> a < b.
Proof.
  intros H. destruct (Z_lt_le_dec a b) as [Hlt|Hge]; [exact Hlt|].
  exfalso. apply (Qlt_not_le _ _ H).
  apply Qpower_le_compat_l; [exact Hge|discriminate].
Qed.

(** The value of a rounded mantissa, when the carry of the rounding is
    within the relative error of the format and the result is below the
    overflow threshold. *)
Lemma round_aux_value (M : positive) (E : Z) :
  0 <= p ->
  round_carry (Z.pos M) (fexp p em (Z.pos (digits2_pos M) + E) - E) * 2 ^ p
  <= Z.pos M ->
  (inject_Z (Z.pos M) * 2 ^ E * (1 + 2 ^ (- p)) < 2 ^ (em - p + 1))%Q ->
  let r := binary_round_aux p em false (Z.pos M) E loc_Exact in
  nonneg r /\ expo_ge (emin p em) r
  /\ (F2Q r <= inject_Z (Z.pos M) * 2 ^ E * (1 + 2 ^ (- p)))%Q.
Proof.
  intros Hp Hcarry Hover. cbn zeta.
  destruct (binary_round_aux_upper false M E)
    as (mf & ef & Hmf & HE & Hemin & Hb & ->).
  set (c := round_carry (Z.pos M)
              (fexp p em (Z.pos (digits2_pos M) + E) - E)) in *.
  assert (HV : (0 < inject_Z (Z.pos M) * 2 ^ E)%Q).
  { apply Qmult_lt_0_compat; [reflexivity|apply pow2_pos]. }
  pose proof (pow2_pos (- p)) as Hu.
  pose proof (pow2_pos E) as HpE.
  assert (Hval : (inject_Z mf * 2 ^ ef
                  <= inject_Z (Z.pos M) * 2 ^ E * (1 + 2 ^ (- p)))%Q).
  { replace ef with ((ef - E) + E) by lia.
    rewrite pow2_add, pow2_Z by lia. rewrite Qmult_assoc.
    rewrite <- inject_Z_mult.
    apply Qle_trans with (inject_Z (Z.pos M + c) * 2 ^ E)%Q.
    - apply Qmult_le_compat_r; [|now apply Qlt_le_weak].
      now rewrite <- Zle_Qle.
    - rewrite inject_Z_plus.
      assert (Hc : (inject_Z c <= inject_Z (Z.pos M) * 2 ^ (- p))%Q).
      { apply Qle_trans with (inject_Z (c * 2 ^ p) * 2 ^ (- p))%Q.
        - rewrite inject_Z_mult, <- pow2_Z by lia.
          rewrite <- Qmult_assoc, pow2_cancel. ring_simplify.
          apply Qle_refl.
        - apply Qmult_le_compat_r; [|now apply Qlt_le_weak].
          now rewrite <- Zle_Qle. }
      nra. }
  unfold datum. destruct mf as [|m|m]; [| |lia].
  - cbn. repeat split. nra.
  - assert (Hef : ef < em - p + 1).
    { apply pow2_lt_inv. eapply Qle_lt_trans; [|exact Hover].
      eapply Qle_trans; [|exact Hval].
      pose proof (pow2_pos ef) as Hpef.
      assert (H1 : (1 <= inject_Z (Z.pos m))%Q).
      { change 1%Q with (inject_Z 1). rewrite <- Zle_Qle. lia. }
      nra. }
    replace (ef <=? em - p) with true by (symmetry; apply Z.leb_le; lia).
    cbn [nonneg expo_ge F2Q]. repeat split; [exact Hemin|].
    eapply Qle_trans; [|exact Hval]. ring_simplify. apply Qle_refl.
Qed.


(** The carry of a rounding in the normal range is within the relative
    error of the format. *)
Lemma round_carry_normal (M : positive) (n : Z) :
  0 <= p ->
  n <= Z.pos (digits2_pos M) - p ->
  round_carry (Z.pos M) n * 2 ^ p <= Z.pos M.
Proof.
  intros Hp Hn. unfold round_carry.
  destruct (1 <=? n) eqn:H1; cbn [andb]; [|lia].
  apply Z.leb_le in H1.
  destruct (Z.odd _); [|lia].
  rewrite <- Z.pow_add_r by lia.
  apply Z.le_trans with (2 ^ (Z.pos (digits2_pos M) - 1)).
  - apply Z.pow_le_mono_r; lia.
  - apply digits2_pos_bounds.
Qed.

(** No carry when the bits lost hold zeros. *)
Lemma round_carry_zero_bits (c k n : Z) :
  0 <= k -> n <= k ->
  round_carry (c * 2 ^ k) n = 0.
Proof.
  intros Hk Hn. unfold round_carry.
  destruct (1 <=? n) eqn:H1; cbn [andb]; [|reflexivity].
  apply Z.leb_le in H1.
  replace (c * 2 ^ k) with (c * 2 * 2 ^ (k - n) * 2 ^ (n - 1)).
  - rewrite Z.div_mul by (apply Z.pow_nonzero; lia).
    replace (c * 2 * 2 ^ (k - n)) with (2 * (c * 2 ^ (k - n))) by lia.
    now rewrite Z.odd_mul.
  - replace k with (1 + (k - n) + (n - 1)) at 2 by lia.
    rewrite !Z.pow_add_r by lia. lia.
Qed.

(** A product by 1000, the factor being held with [k] trailing zero
    bits: the rounded product of a positive finite datum of the format
    is a zero or a positive finite datum, at most the exact product
    increased by the relative error of the format. *)
Lemma SFmul_thousand_upper (md my : positive) (ed k : Z) :
  0 <= p -> 0 <= k ->
  emin p em <= ed ->
  Z.pos my = 1000 * 2 ^ k ->
  (1000 * (inject_Z (Z.pos md) * 2 ^ ed) * (1 + 2 ^ (- p))
   < 2 ^ (em - p + 1))%Q ->
  let r := SFmul p em (S754_finite false md ed) (S754_finite false my (- k)) in
  nonneg r /\ expo_ge (emin p em) r
  /\ (F2Q r
      <= 1000 * (inject_Z (Z.pos md) * 2 ^ ed) * (1 + 2 ^ (- p)))%Q.
Proof.
  intros Hp Hk Hed Hmy Hover. cbn zeta. cbn [SFmul xorb].
  assert (HV : (inject_Z (Z.pos (md * my)) * 2 ^ (ed + - k)
                == 1000 * (inject_Z (Z.pos md) * 2 ^ ed))%Q).
  { rewrite Pos2Z.inj_mul, Hmy, !inject_Z_mult, <- pow2_Z by lia.
    rewrite pow2_add. 
    transitivity (1000 * (inject_Z (Z.pos md) * 2 ^ ed)
                  * (2 ^ k * 2 ^ (- k)))%Q; [|rewrite pow2_cancel]; ring. }
  assert (Hcarry :
    round_carry (Z.pos (md * my))
      (fexp p em (Z.pos (digits2_pos (md * my)) + (ed + - k))
       - (ed + - k)) * 2 ^ p
    <= Z.pos (md * my)).
  { unfold fexp.
    destruct (Z.max_spec (Z.pos (digits2_pos (md * my)) + (ed + - k) - p)
                (emin p em)) as [[Hlt ->]|[Hge ->]].
    - (* below the normal range: the bits lost are zeros of the factor *)
      rewrite Pos2Z.inj_mul, Hmy.
      replace (Z.pos md * (1000 * 2 ^ k)) with (Z.pos md * 1000 * 2 ^ k)
        by lia.
      rewrite round_carry_zero_bits by lia. lia.
    - apply round_carry_normal; lia. }
  destruct (round_aux_value (md * my) (ed + - k) Hp Hcarry) as (H1 & H2 & H3).
  { now rewrite HV. }
  split; [exact H1|]. split; [exact H2|]. now rewrite <- HV.
Qed.

Lemma iter_xO_spec (m d : positive) :
  Z.pos (Pos.iter xO m d) = Z.pos m * 2 ^ Z.pos d
  /\ Z.pos (digits2_pos (Pos.iter xO m d)) = Z.pos (digits2_pos m) + Z.pos d.
Proof.
  induction d as [|d IH] using Pos.peano_ind.
  - cbn [Pos.iter digits2_pos]. rewrite Pos2Z.inj_succ. lia.
  - rewrite Pos.iter_succ. cbn [digits2_pos].
    rewrite !Pos2Z.inj_succ, Z.pow_succ_r by lia.
    destruct IH as [IH1 IH2]. rewrite IH2. lia.
Qed.

(** A conversion to the format: a positive finite datum whose exponent
    is not below the least exponent of the format becomes a zero or a
    positive finite datum, at most its value increased by the relative
    error of the format. *)
Lemma binary_round_upper (mf : positive) (ef : Z) :
  0 <= p ->
  emin p em <= ef ->
  (inject_Z (Z.pos mf) * 2 ^ ef * (1 + 2 ^ (- p)) < 2 ^ (em - p + 1))%Q ->
  let r := binary_round p em false mf ef in
  nonneg r /\ expo_ge (emin p em) r
  /\ (F2Q r <= inject_Z (Z.pos mf) * 2 ^ ef * (1 + 2 ^ (- p)))%Q.
Proof.
  intros Hp Hef Hover. cbn zeta. unfold binary_round, shl_align.
  set (F := fexp p em (Z.pos (digits2_pos mf) + ef)).
  destruct (F - ef) as [|d|d] eqn:Hd.
  - apply round_aux_value; [exact Hp| |exact Hover].
    fold F. rewrite Hd. unfold round_carry. cbn. lia.
  - apply round_aux_value; [exact Hp| |exact Hover].
    fold F. apply round_carry_normal; [exact Hp|].
    subst F. unfold fexp in *. lia.
  - destruct (iter_xO_spec mf d) as [Hm Hdig].
    assert (HV : (inject_Z (Z.pos (Pos.iter xO mf d)) * 2 ^ F
                  == inject_Z (Z.pos mf) * 2 ^ ef)%Q).
    { rewrite Hm, inject_Z_mult, <- pow2_Z by lia.
      rewrite <- Qmult_assoc, <- pow2_add.
      now replace (Z.pos d + F) with ef by lia. }
    destruct (round_aux_value (Pos.iter xO mf d) F Hp) as (H1 & H2 & H3).
    + rewrite Hdig.
      replace (Z.pos (digits2_pos mf) + Z.pos d + F)
        with (Z.pos (digits2_pos mf) + ef) by lia.
      fold F. rewrite Z.sub_diag. unfold round_carry. cbn. lia.
    + now rewrite HV.
    + split; [exact H1|]. split; [exact H2|]. now rewrite <- HV.
Qed.

End Rounding.

(** * Properties of the solver gateway *)

Section GatewayFacts.

Variable CDLL : result unit.
Variable c_api_local_search :
  solver_args -> gmap string string -> result Z * gmap string string.
Variable py_int : string -> option Z.

Local Abbreviation invoke := (invoke_and_decode c_api_local_search py_int).
Local Abbreviation Solver_ls := (Solver_local_search c_api_local_search py_int).
Local Abbreviation swap := (swapstar CDLL c_api_local_search py_int).

Lemma paths_differ callid : tmppath_of callid <> resultpath_of callid.
Proof. unfold tmppath_of, resultpath_of. intros E. discriminate E. Qed.


(** What passes the checks is handed on unchanged. *)
Lemma prepare_ok d x y mtx st dem cap lim isd veh :
  prepare d = Ok (x, y, mtx, st, dem, cap, lim, isd, veh) ->
  dem = demands d /\ cap = vehicle_capacity d
  /\ default 0 (depot d) = 0
  /\ veh = default C_INT_MAX (num_vehicles d).
Proof.
  unfold prepare.
  destruct (Z.eqb_spec (default 0 (depot d)) 0) as [E|_]; [|discriminate].
  cbn [negb].
  destruct (duration_limit d);
    (destruct (x_coordinates d), (y_coordinates d), (distance_matrix d)
       as [[|row mtx']|]; try discriminate;
     repeat match goal with
            | |- context [if negb ?b then _ else _] => destruct b; cbn [negb]
            end; try discriminate;
     intros [= <- <- <- <- <- <- <- <- <-]; auto).
Qed.

(** [swapstar] always names node 0 as the depot, so the depot check
    never stops a call that comes from it. *)
Lemma swapstar_depot dt demands matrix positions routes :
  default 0 (depot (swapstar_data dt demands matrix positions routes)) = 0.
Proof. reflexivity. Qed.

(** A failed check leaves the world as it was. *)
Lemma Solver_local_search_rejected ap verbose t rnd d routes count w e :
  prepare d = Raise e ->
  Solver_ls ap verbose t rnd d routes count w = (Raise e, w).
Proof.
  intros H. unfold Solver_local_search, bind, lift. now rewrite H.
Qed.

(** The body of the [try]: at most one native call, with the prepared
    data; the decoding does not touch the files. *)
Lemma invoke_world ap verbose x y mtx st dem cap lim isd veh callid count w :
  let out := invoke ap verbose (x, y, mtx, st, dem, cap, lim, isd, veh)
               callid count w in
  (snd out = w /\ fst out = Raise ValueError)
  \/ exists args,
       calls (snd out) = calls w ++ [args]
       /\ files (snd out) = snd (c_api_local_search args (files w))
       /\ arg_demand args = map (astype c_double) dem
       /\ arg_vehicle_capacity args = cap
       /\ arg_max_nb_veh args = veh
       /\ arg_callid args = callid
       /\ arg_count args = count
       /\ arg_parameters args = ap.
Proof.
  cbn zeta. unfold invoke_and_decode, Solver__local_search, bind.
  destruct (length (concat mtx) =? length x * length x)%nat; cbn [negb].
  - right.
    match goal with
    | |- context [c_api_local_search ?a (files w)] => set (args := a)
    end.
    exists args. destruct (c_api_local_search args (files w)) as [[s|e] f] eqn:E.
    + unfold read_routes. cbn [files].
      destruct (f !! resultpath_of callid); cbn; repeat split; reflexivity.
    + cbn. repeat split; reflexivity.
  - left. split; reflexivity.
Qed.

(** A successful decoding has read the response file. *)
Lemma invoke_ok_reads ap verbose p callid count w decoded w2 :
  invoke ap verbose p callid count w = (Ok decoded, w2) ->
  is_Some (files w2 !! resultpath_of callid).
Proof.
  destruct p as [[[[[[[[x y] mtx] st] dem] cap] lim] isd] veh].
  unfold invoke_and_decode, Solver__local_search, bind.
  destruct (length (concat mtx) =? length x * length x)%nat; cbn [negb];
    [|discriminate].
  match goal with
  | |- context [c_api_local_search ?a (files w)] =>
      destruct (c_api_local_search a (files w)) as [[s|e] f]
  end; [|discriminate].
  unfold read_routes. cbn [files].
  destruct (f !! resultpath_of callid) as [content|] eqn:E; [|discriminate].
  intros [= _ <-]. cbn [files]. rewrite E. eauto.
Qed.

End GatewayFacts.

Section GatewayClaims.

Variable CDLL : result unit.
Variable c_api_local_search :
  solver_args -> gmap string string -> result Z * gmap string string.
Variable py_int : string -> option Z.

Local Abbreviation invoke := (invoke_and_decode c_api_local_search py_int).
Local Abbreviation Solver_ls := (Solver_local_search c_api_local_search py_int).
Local Abbreviation swap := (swapstar CDLL c_api_local_search py_int).

(** The result of [Solver.local_search] once the checks have passed,
    when the body of the [try] completes with the routes [decoded]. *)
Lemma Solver_local_search_decoded ap verbose t rnd d routes count w p
    decoded w2 :
  prepare d = Ok p ->
  invoke ap verbose p (make_callid t rnd) count
    (snd (write_routes routes (tmppath_of (make_callid t rnd)) w))
  = (Ok decoded, w2) ->
  Solver_ls ap verbose t rnd d routes count w
  = match delete (resultpath_of (make_callid t rnd)) (files w2)
          !! tmppath_of (make_callid t rnd) with
    | Some _ =>
        (Ok decoded,
         {| files := delete (tmppath_of (make_callid t rnd))
                       (delete (resultpath_of (make_callid t rnd)) (files w2));
            calls := calls w2 |})
    | None =>
        (Raise FileNotFoundError,
         {| files := delete (resultpath_of (make_callid t rnd)) (files w2);
            calls := calls w2 |})
    end.
Proof.
  intros Hp Hb.
  pose proof (invoke_ok_reads _ _ _ _ _ _ _ _ _ _ Hb) as [content Hc].
  unfold Solver_local_search, bind, lift, try_. rewrite Hp.
  unfold write_routes in *. cbn [snd] in Hb. cbn iota beta. rewrite Hb.
  unfold os_remove, ret, raise, set_files. rewrite Hc. cbn [files calls].
  destruct (delete (resultpath_of (make_callid t rnd)) (files w2)
              !! tmppath_of (make_callid t rnd)); reflexivity.
Qed.

(** The same when the body of the [try] raises. *)
Lemma Solver_local_search_failed ap verbose t rnd d routes count w p e w2 :
  prepare d = Ok p ->
  invoke ap verbose p (make_callid t rnd) count
    (snd (write_routes routes (tmppath_of (make_callid t rnd)) w))
  = (Raise e, w2) ->
  Solver_ls ap verbose t rnd d routes count w
  = match files w2 !! tmppath_of (make_callid t rnd) with
    | Some _ =>
        (Raise UnboundLocalError,
         {| files := delete (tmppath_of (make_callid t rnd)) (files w2);
            calls := calls w2 |})
    | None => (Raise FileNotFoundError, w2)
    end.
Proof.
  intros Hp Hb.
  unfold Solver_local_search, bind, lift, try_. rewrite Hp.
  unfold write_routes in *. cbn [snd] in Hb. cbn iota beta. rewrite Hb.
  unfold os_remove, ret, raise, set_files.
  destruct (files w2 !! tmppath_of (make_callid t rnd)); reflexivity.
Qed.

(** Every outcome of [Solver.local_search] once the checks have passed,
    by the outcome [(rb, w2)] of the body of the [try]. *)
Lemma Solver_local_search_outcome ap verbose t rnd d routes count w p rb w2 :
  prepare d = Ok p ->
  invoke ap verbose p (make_callid t rnd) count
    (snd (write_routes routes (tmppath_of (make_callid t rnd)) w)) = (rb, w2) ->
  let out := Solver_ls ap verbose t rnd d routes count w in
  files (snd out) !! tmppath_of (make_callid t rnd) = None
  /\ calls (snd out) = calls w2
  /\ match rb with
     | Ok decoded =>
         files (snd out) !! resultpath_of (make_callid t rnd) = None
         /\ (fst out = Ok decoded \/ fst out = Raise FileNotFoundError)
     | Raise _ =>
         files (snd out) !! resultpath_of (make_callid t rnd)
         = files w2 !! resultpath_of (make_callid t rnd)
         /\ (fst out = Raise UnboundLocalError
             \/ fst out = Raise FileNotFoundError)
     end.
Proof.
  intros Hp Hb. cbn zeta.
  pose proof (paths_differ (make_callid t rnd)) as Hne.
  destruct rb as [decoded|e].
  - rewrite (Solver_local_search_decoded _ _ _ _ _ _ _ _ _ _ _ Hp Hb).
    destruct (delete (resultpath_of (make_callid t rnd)) (files w2)
                !! tmppath_of (make_callid t rnd)) eqn:Ht; cbn [fst snd files calls].
    + rewrite lookup_delete_eq, lookup_delete_ne, lookup_delete_eq by done.
      auto.
    + rewrite Ht, lookup_delete_eq. auto.
  - rewrite (Solver_local_search_failed _ _ _ _ _ _ _ _ _ _ _ Hp Hb).
    destruct (files w2 !! tmppath_of (make_callid t rnd)) eqn:Ht;
      cbn [fst snd files calls].
    + rewrite lookup_delete_eq, lookup_delete_ne by done. auto.
    + rewrite Ht. auto.
Qed.

(** C7. Once the checks of [Solver.local_search] have passed and the
    request file "route-<callid>" has been written, the file is gone
    when the call ends, whether the native call and the decoding
    succeed or raise. The response file "swapstar-result-<callid>" is
    removed when they succeed and is left as the native call left it
    when they raise. A call stopped by a check ends before any file is
    written. *)
Theorem request_response_cleanup ap verbose t rnd d routes count w :
  match prepare d with
  | Raise e =>
      Solver_local_search c_api_local_search py_int ap verbose t rnd d
        routes count w
      = (Raise e, w)
  | Ok p =>
      let callid := make_callid t rnd in
      let body :=
        invoke_and_decode c_api_local_search py_int ap verbose p callid count
          (snd (write_routes routes (tmppath_of callid) w)) in
      let out :=
        Solver_local_search c_api_local_search py_int ap verbose t rnd d
          routes count w in
      files (snd out) !! tmppath_of callid = None
      /\ match fst body with
         | Ok _ => files (snd out) !! resultpath_of callid = None
         | Raise _ =>
             files (snd out) !! resultpath_of callid
             = files (snd body) !! resultpath_of callid
         end
  end.
Proof.
  destruct (prepare d) as [p|e] eqn:Hp.
  - cbn zeta.
    destruct (invoke ap verbose p (make_callid t rnd) count
                (snd (write_routes routes (tmppath_of (make_callid t rnd)) w)))
      as [rb w2] eqn:Hb.
    destruct (Solver_local_search_outcome ap verbose t rnd d routes count w
                p rb w2 Hp Hb) as (H1 & _ & H3).
    split; [exact H1|]. cbn [fst snd]. destruct rb; tauto.
  - now apply Solver_local_search_rejected.
Qed.

Lemma Solver_raises_swapstar_falls_back t rnd dt demands matrix positions
    routes count w e :
  CDLL = Ok tt ->
  fst (Solver_ls default_AlgorithmParameters false t rnd
         (swapstar_data dt demands matrix positions routes) routes count w)
  = Raise e ->
  fst (swap t rnd dt demands matrix positions routes count w) = Ok routes.
Proof.
  intros Hlib H. unfold swapstar, swapstar_try, bind, lift, try_, ret. rewrite Hlib.
  destruct (Solver_ls _ _ _ _ _ _ _ _) as [[r|e'] w']; [discriminate|].
  reflexivity.
Qed.


(** A failure of the native call or of the decoding makes [swapstar]
    return the routes it was given. *)
Lemma swapstar_fallback t rnd dt demands matrix positions routes count w p e :
  CDLL = Ok tt ->
  prepare (swapstar_data dt demands matrix positions routes) = Ok p ->
  fst (invoke default_AlgorithmParameters false p (make_callid t rnd) count
         (snd (write_routes routes (tmppath_of (make_callid t rnd)) w)))
  = Raise e ->
  fst (swap t rnd dt demands matrix positions routes count w) = Ok routes.
Proof.
  intros Hlib Hp Hb.
  destruct (invoke default_AlgorithmParameters false p (make_callid t rnd) count
              (snd (write_routes routes (tmppath_of (make_callid t rnd)) w)))
    as [rb w2] eqn:Hinv.
  cbn [fst] in Hb. subst rb.
  destruct (Solver_local_search_outcome _ _ _ _ _ _ _ _ _ _ _ Hp Hinv)
    as (_ & _ & _ & [H|H]);
    eapply Solver_raises_swapstar_falls_back; eauto.
Qed.



End GatewayClaims.

(** The number of the format that holds 1000. *)
Lemma float_of_int_1000 :
  float_of_int float32 1000 = S754_finite false 16384000 (-14)
  /\ float_of_int float64 1000 = S754_finite false 8796093022208000 (-43).
Proof. split; reflexivity. Qed.

Lemma F2Q_nonneg (x : float) : nonneg x -> (0 <= F2Q x)%Q.
Proof.
  destruct x as [s|s| |[|] m e]; intros H; try contradiction;
    cbn [F2Q]; try apply Qle_refl.
  pose proof (pow2_pos e).
  assert (0 < inject_Z (Z.pos m))%Q by reflexivity. nra.
Qed.

(** A number that the format holds has an exponent of the format. *)
Lemma valid_binary_expo (p em : Z) (s : bool) (m : positive) (e : Z) :
  valid_binary p em (S754_finite s m e) = true -> emin p em <= e.
Proof.
  cbn [valid_binary]. unfold bounded, canonical_mantissa, fexp.
  intros H. apply andb_true_iff in H as [H _]. apply Z.eqb_eq in H. lia.
Qed.

(** The product by 1000 in a format, then the conversion to a second
    format that reaches at least as low: the result is a zero or a
    positive finite number, at most 1000 times the operand increased by
    the relative errors of the two roundings. *)
Lemma scale_convert_upper (p em p2 em2 k : Z) (my md : positive) (ed : Z) :
  0 <= p -> 0 <= k -> 0 <= p2 ->
  emin p2 em2 <= emin p em ->
  Z.pos my = 1000 * 2 ^ k ->
  emin p em <= ed ->
  (inject_Z (Z.pos md) * 2 ^ ed <= 1)%Q ->
  (1000 * (1 + 2 ^ (- p)) < 2 ^ (em - p + 1))%Q ->
  (1000 * (1 + 2 ^ (- p)) * (1 + 2 ^ (- p2)) < 2 ^ (em2 - p2 + 1))%Q ->
  let r := astype {| prec := p2; emax := em2 |}
             (SFmul p em (S754_finite false md ed)
                (S754_finite false my (- k))) in
  nonneg r
  /\ (F2Q r
      <= 1000 * (inject_Z (Z.pos md) * 2 ^ ed)
         * (1 + 2 ^ (- p)) * (1 + 2 ^ (- p2)))%Q.
Proof.
  intros Hp Hk Hp2 Hemin Hmy Hed Hle Hn1 Hn2. cbn zeta.
  pose proof (pow2_pos (- p)) as Hu. pose proof (pow2_pos (- p2)) as Hu2.
  assert (Hx : (0 < inject_Z (Z.pos md) * 2 ^ ed)%Q).
  { apply Qmult_lt_0_compat; [reflexivity|apply pow2_pos]. }
  set (x := (inject_Z (Z.pos md) * 2 ^ ed)%Q) in *.
  set (a := (1 + 2 ^ (- p))%Q) in *. set (b := (1 + 2 ^ (- p2))%Q) in *.
  assert (Ha : (1 < a)%Q) by (subst a; lra).
  assert (Hb : (1 < b)%Q) by (subst b; lra).
  assert (Hxa : (1000 * x * a <= 1000 * a)%Q) by nra.
  destruct (SFmul_thousand_upper p em md my ed k Hp Hk Hed Hmy)
    as (H1 & H2 & H3); [fold x a; lra|].
  fold x a in H3.
  destruct (SFmul p em _ _) as [s|s| |[|] m e]; try contradiction.
  - cbn [astype nonneg F2Q]. split; [exact I|].
    assert (0 <= 1000 * x * a)%Q by nra. nra.
  - cbn [astype prec emax]. cbn [expo_ge] in H2. cbn [F2Q] in H3.
    assert (Hv : (inject_Z (Z.pos m) * 2 ^ e <= 1000 * x * a)%Q).
    { eapply Qle_trans; [|exact H3]. apply Qle_lteq. right. ring. }
    set (v := (inject_Z (Z.pos m) * 2 ^ e)%Q) in *.
    assert (Hvb : (v * b <= 1000 * x * a * b)%Q) by nra.
    assert (Hab : (1000 * x * a * b <= 1000 * a * b)%Q) by nra.
    destruct (binary_round_upper p2 em2 m e Hp2) as (K1 & _ & K3); [lia| |].
    + fold v b. lra.
    + split; [exact K1|]. fold v b in K3. lra.
Qed.

Section Rescaling.

Variable CDLL : result unit.
Variable c_api_local_search :
  solver_args -> gmap string string -> result Z * gmap string string.
Variable py_int : string -> option Z.

Local Abbreviation Solver_ls := (Solver_local_search c_api_local_search py_int).
Local Abbreviation swap := (swapstar CDLL c_api_local_search py_int).

(** [Solver.local_search] calls the native library at most once, with
    the demands and the capacity of [data]. *)
Lemma Solver_local_search_calls ap verbose t rnd d routes count w :
  let w' := snd (Solver_ls ap verbose t rnd d routes count w) in
  calls w' = calls w
  \/ exists args,
       calls w' = calls w ++ [args]
       /\ arg_demand args = map (astype c_double) (demands d)
       /\ arg_vehicle_capacity args = vehicle_capacity d
       /\ arg_max_nb_veh args = default C_INT_MAX (num_vehicles d)
       /\ arg_callid args = make_callid t rnd.
Proof.
  cbn zeta. destruct (prepare d) as [p|e] eqn:Hp.
  - destruct (invoke_and_decode c_api_local_search py_int ap verbose p
                (make_callid t rnd) count
                (snd (write_routes routes (tmppath_of (make_callid t rnd)) w)))
      as [rb w2] eqn:Hb.
    destruct (Solver_local_search_outcome _ _ _ _ _ _ _ _ _ _ _ _ _ Hp Hb)
      as (_ & Hcalls & _).
    rewrite Hcalls.
    destruct p as [[[[[[[[x y] mtx] st] dem] cap] lim] isd] veh].
    destruct (prepare_ok _ _ _ _ _ _ _ _ _ _ Hp) as (-> & -> & _ & ->).
    pose proof (invoke_world c_api_local_search py_int ap verbose x y mtx st
                  (demands d) (vehicle_capacity d) lim isd
                  (default C_INT_MAX (num_vehicles d))
                  (make_callid t rnd) count
                  (snd (write_routes routes (tmppath_of (make_callid t rnd)) w)))
      as Hw.
    cbn zeta in Hw. rewrite Hb in Hw. cbn [fst snd] in Hw.
    destruct Hw as [[-> _]|(args & Hc & _ & Hd & Hv & Hm & Hi & _)].
    + now left.
    + right. exists args. cbn [write_routes snd set_files calls] in Hc. auto.
  - rewrite (Solver_local_search_rejected _ _ _ _ _ _ _ _ _ _ _ Hp). now left.
Qed.

Lemma swapstar_world t rnd dt demands matrix positions routes count w :
  snd (swap t rnd dt demands matrix positions routes count w) = w
  \/ snd (swap t rnd dt demands matrix positions routes count w)
     = snd (Solver_ls default_AlgorithmParameters false t rnd
              (swapstar_data dt demands matrix positions routes) routes count w).
Proof.
  unfold swapstar, swapstar_try, bind, lift, try_, ret.
  destruct CDLL; [|now left]. right.
  destruct (Solver_ls _ _ _ _ _ _ _ _) as [[r|e] w']; reflexivity.
Qed.

(** The demand of a node as the solver receives it: scaled in the
    format of the array, then converted to a C double. *)
Lemma scale_demand_upper dt d :
  dt = float32 \/ dt = float64 ->
  nonneg d -> valid_binary (prec dt) (emax dt) d = true ->
  (F2Q d <= 1)%Q ->
  nonneg (astype c_double (scale_demand dt d))
  /\ (F2Q (astype c_double (scale_demand dt d))
      <= 1000 * F2Q d * (1 + 2 ^ (- prec dt)) * (1 + 2 ^ (- (53))))%Q.
Proof.
  intros Hdt Hd Hv Hle. unfold scale_demand, np_multiply.
  destruct float_of_int_1000 as [E32 E64].
  destruct d as [s|s| |[|] md ed]; try contradiction.
  - assert (E : astype c_double
                  (SFmul (prec dt) (emax dt) (S754_zero s)
                     (float_of_int dt 1000)) = S754_zero s).
    { destruct Hdt as [-> | ->]; [rewrite E32|rewrite E64]; now destruct s. }
    rewrite E. cbn [nonneg F2Q]. split; [exact I|].
    pose proof (pow2_pos (- prec dt)). pose proof (pow2_pos (- (53))). nra.
  - apply valid_binary_expo in Hv. cbn [F2Q] in Hle |- *.
    assert (Hle' : (inject_Z (Z.pos md) * 2 ^ ed <= 1)%Q) by nra.
    assert (Hgoal :
      nonneg (astype c_double
                (SFmul (prec dt) (emax dt) (S754_finite false md ed)
                   (float_of_int dt 1000)))
      /\ (F2Q (astype c_double
                 (SFmul (prec dt) (emax dt) (S754_finite false md ed)
                    (float_of_int dt 1000)))
          <= 1000 * (inject_Z (Z.pos md) * 2 ^ ed)
             * (1 + 2 ^ (- prec dt)) * (1 + 2 ^ (- (53))))%Q).
    { destruct Hdt as [-> | ->]; [rewrite E32|rewrite E64].
      - apply (scale_convert_upper 24 128 53 1024 14 16384000 md ed);
          try (unfold emin; cbn; lia); try assumption; try reflexivity.
      - apply (scale_convert_upper 53 1024 53 1024 43 8796093022208000 md ed);
          try (unfold emin; cbn; lia); try assumption; try reflexivity. }
    destruct Hgoal as [G1 G2]. split; [exact G1|].
    eapply Qle_trans; [exact G2|]. apply Qle_lteq. right. ring.
Qed.

(** The nodes outside the demand array count for nothing, before and
    after the scaling. *)
Lemma nth_scaled dt demands v :
  dt = float32 \/ dt = float64 ->
  nth v (map (astype c_double) (map (scale_demand dt) demands))
    (S754_zero false)
  = astype c_double (scale_demand dt (nth v demands (S754_zero false))).
Proof.
  intros Hdt. rewrite map_map.
  rewrite <- (map_nth (fun d => astype c_double (scale_demand dt d))).
  f_equal. destruct float_of_int_1000 as [E32 E64].
  unfold scale_demand, np_multiply.
  destruct Hdt as [-> | ->]; [rewrite E32|rewrite E64]; reflexivity.
Qed.

Lemma route_demand_nonneg demands route :
  Forall nonneg demands -> (0 <= route_demand demands route)%Q.
Proof.
  intros H. unfold route_demand.
  induction route as [|v route IH]; cbn [map fold_right]; [apply Qle_refl|].
  assert (Hv : nonneg (nth (Z.to_nat v) demands (S754_zero false))).
  { destruct (nth_in_or_default (Z.to_nat v) demands (S754_zero false))
      as [Hin| ->]; [|exact I].
    rewrite List.Forall_forall in H. now apply H. }
  apply F2Q_nonneg in Hv. lra.
Qed.

(** A route within the unit capacity stays within the capacity handed
    to the solver, whatever the roundings of the scaling add. *)
Lemma scaled_route_feasible dt demands route :
  dt = float32 \/ dt = float64 ->
  Forall (fun d => nonneg d /\ valid_binary (prec dt) (emax dt) d = true)
    demands ->
  (route_demand demands route <= 1)%Q ->
  route_finite (map (astype c_double) (map (scale_demand dt) demands)) route
  /\ (route_demand (map (astype c_double) (map (scale_demand dt) demands))
        route
      <= F2Q float_1000_001)%Q.
Proof.
  intros Hdt Hall Hle.
  assert (Hnn : Forall nonneg demands).
  { eapply List.Forall_impl; [|exact Hall]. now intros d [H _]. }
  set (c := (1000 * (1 + 2 ^ (- prec dt)) * (1 + 2 ^ (- (53))))%Q).
  assert (Hc : (0 <= c /\ c <= F2Q float_1000_001)%Q).
  { subst c. destruct Hdt as [-> | ->]; split; vm_compute; discriminate. }
  assert (H : route_finite
                (map (astype c_double) (map (scale_demand dt) demands)) route
              /\ (route_demand
                    (map (astype c_double) (map (scale_demand dt) demands))
                    route
                  <= c * route_demand demands route)%Q).
  { unfold route_finite, route_demand in *.
    induction route as [|v route IH]; cbn [map fold_right] in *.
    - split; [constructor|]. lra.
    - pose proof (route_demand_nonneg demands route Hnn) as Hrest.
      unfold route_demand in Hrest.
      assert (Hv : nonneg (nth (Z.to_nat v) demands (S754_zero false))
                   /\ valid_binary (prec dt) (emax dt)
                        (nth (Z.to_nat v) demands (S754_zero false)) = true).
      { destruct (nth_in_or_default (Z.to_nat v) demands (S754_zero false))
          as [Hin| ->]; [|now split].
        rewrite List.Forall_forall in Hall. now apply Hall. }
      destruct Hv as [Hv1 Hv2].
      pose proof (F2Q_nonneg _ Hv1) as Hv0.
      destruct (scale_demand_upper dt _ Hdt Hv1 Hv2) as [S1 S2]; [lra|].
      destruct IH as [IH1 IH2]; [lra|].
      split.
      + constructor; [|exact IH1]. now rewrite nth_scaled by exact Hdt.
      + rewrite nth_scaled by exact Hdt.
        assert (S2' :
          (F2Q (astype c_double
                  (scale_demand dt
                     (nth (Z.to_nat v) demands (S754_zero false))))
           <= c * F2Q (nth (Z.to_nat v) demands (S754_zero false)))%Q).
        { eapply Qle_trans; [exact S2|]. unfold c.
          apply Qle_lteq. right. ring. }
        nra. }
  destruct H as [H1 H2]. split; [exact H1|].
  eapply Qle_trans; [exact H2|]. destruct Hc as [Hc0 Hc1]. nra.
Qed.

(** C1, as the code has it. Every call that [swapstar] makes to the
    native solver carries, for every node, the input demand multiplied
    by 1000 in the floating-point format of the demand array and
    converted to a C double, and the constant capacity 1000.001, held as
    the double nearest to it: 1000 times a capacity of 1 plus 0.001. The
    instance has no capacity of its own, its demands are fractions of
    the unit capacity. For demands of binary32 or binary64, a route
    whose demand is at most 1 stays within the capacity after the
    scaling, whatever the roundings add; the 0.001 is needed for this,
    as two demands of binary32 of sum 1 have a scaled sum above 1000. *)
Theorem swapstar_rescaling t rnd dt demands matrix positions routes count w
    route :
  (let w' :=
     snd (swapstar CDLL c_api_local_search py_int t rnd dt demands matrix
            positions routes count w) in
   calls w' = calls w
   \/ exists args,
        calls w' = calls w ++ [args]
        /\ arg_demand args
           = map (astype c_double) (map (scale_demand dt) demands)
        /\ arg_vehicle_capacity args = float_1000_001)
  /\ (1000 * 1 + (1 # 1000) - 2 ^ (-44) < F2Q float_1000_001
      /\ F2Q float_1000_001 < 1000 * 1 + (1 # 1000) + 2 ^ (-44))%Q
  /\ (dt = float32 \/ dt = float64 ->
      (F2Q (float_of_int dt 1000) == 1000)%Q
      /\ (Forall
            (fun d => nonneg d /\ valid_binary (prec dt) (emax dt) d = true)
            demands ->
          (route_demand demands route <= 1)%Q ->
          route_finite
            (map (astype c_double) (map (scale_demand dt) demands)) route
          /\ (route_demand
                (map (astype c_double) (map (scale_demand dt) demands)) route
              <= F2Q float_1000_001)%Q))
  /\ (Forall
        (fun d =>
           nonneg d /\ valid_binary (prec float32) (emax float32) d = true)
        tight_demands
      /\ (route_demand tight_demands [0; 1; 2; 0]%Z == 1)%Q
      /\ (1000 < route_demand
                   (map (astype c_double)
                      (map (scale_demand float32) tight_demands))
                   [0; 1; 2; 0]%Z)%Q).
Proof.
  split; [|split; [|split]].
  - cbn zeta.
    destruct (swapstar_world t rnd dt demands matrix positions routes count w)
      as [->| ->]; [now left|].
    destruct (Solver_local_search_calls default_AlgorithmParameters false
                t rnd (swapstar_data dt demands matrix positions routes)
                routes count w)
      as [H|(args & Hc & Hd & Hv & _)]; [now left|].
    right. exists args. auto.
  - split; vm_compute; reflexivity.
  - intros Hdt. split.
    + destruct Hdt as [-> | ->]; vm_compute; reflexivity.
    + now apply scaled_route_feasible.
  - split; [repeat constructor|].
    split; vm_compute; reflexivity.
Qed.

End Rescaling.

Lemma swapstar_rescaling_witness :
  (exists args,
     calls (snd (swapstar (Ok tt) failing_solver sample_int 0 7 float32
                   [f32_0; f32_0_4; f32_0_5] sample_matrix sample_positions
                   [[0; 1; 2; 0]] 1 empty_world))
     = [args]
     /\ arg_demand args
        = [f32_0; f64_400; S754_finite false 8796093022208000 (-44)]
     /\ arg_vehicle_capacity args = float_1000_001)
  /\ (route_demand
        (map (astype c_double)
           (map (scale_demand float32) [f32_0; f32_0_4; f32_0_5]))
        [0; 1; 2; 0]%Z
      <= F2Q float_1000_001)%Q.
Proof.
  split.
  - eexists. split; [vm_compute; reflexivity|]. split; reflexivity.
  - apply (swapstar_rescaling (Ok tt) failing_solver sample_int 0 7 float32
             [f32_0; f32_0_4; f32_0_5] sample_matrix sample_positions
             [[0; 1; 2; 0]] 1 empty_world [0; 1; 2; 0]).
    + now left.
    + repeat constructor.
    + vm_compute. discriminate.
Defined.

(** C1, as the specification words it, fails: for the demand [0,4,6] the
    solver receives the scaled demand [0,4000,6000] and the capacity
    1000.001, which is far from 1000 times 10 plus 0.001, and the route
    that serves both customers, of scaled demand 10000, exceeds it. *)
Lemma swapstar_capacity_is_constant :
  exists args,
    calls (snd (swapstar (Ok tt) failing_solver sample_int 0 7 float32
                  [f32_0; f32_4; f32_6] sample_matrix sample_positions
                  [[0; 1; 2; 0]] 1 empty_world))
    = [args]
    /\ arg_demand args = [f32_0; f64_4000; f64_6000]
    /\ arg_vehicle_capacity args = float_1000_001
    /\ (F2Q (arg_vehicle_capacity args) < 1000 * 10 + (1 # 1000) - 8999)%Q
    /\ (route_demand (arg_demand args) [0; 1; 2; 0]%Z == 10000)%Q
    /\ ~ (route_demand (arg_demand args) [0; 1; 2; 0]%Z
          <= F2Q (arg_vehicle_capacity args))%Q.
Proof.
  eexists. split; [vm_compute; reflexivity|].
  cbn [arg_demand arg_vehicle_capacity].
  split; [reflexivity|]. split; [reflexivity|].
  split; [vm_compute; reflexivity|].
  split; [vm_compute; reflexivity|].
  vm_compute. intros H. apply H. reflexivity.
Qed.



(** The two outcomes of the [try] on samples: the solver answers and
    both files are gone; the call raises and the request file is gone. *)
Example cleanup_after_success :
  Solver_local_search answering_solver sample_int default_AlgorithmParameters
    false 0 7
    (swapstar_data float32 sample_demands sample_matrix sample_positions
       [[0; 2; 1; 0]])
    [[0; 2; 1; 0]] 1 empty_world
  = (Ok [[0; 1; 2; 0]],
     {| files := ∅;
        calls := calls (snd (swapstar (Ok tt) answering_solver sample_int 0 7
                               float32 sample_demands sample_matrix
                               sample_positions [[0; 2; 1; 0]] 1
                               empty_world)) |}).
Proof. vm_compute. reflexivity. Qed.

Example cleanup_after_failure :
  fst (Solver_local_search failing_solver sample_int
         default_AlgorithmParameters false 0 7
         (swapstar_data float32 sample_demands sample_matrix sample_positions
            [[0; 2; 1; 0]])
         [[0; 2; 1; 0]] 1 empty_world)
  = Raise UnboundLocalError
  /\ files (snd (Solver_local_search failing_solver sample_int
                   default_AlgorithmParameters false 0 7
                   (swapstar_data float32 sample_demands sample_matrix
                      sample_positions [[0; 2; 1; 0]])
                   [[0; 2; 1; 0]] 1 empty_world)) = ∅
  /\ fst (swapstar (Ok tt) failing_solver sample_int 0 7
            float32 sample_demands sample_matrix sample_positions
            [[0; 2; 1; 0]] 1 empty_world)
     = Ok [[0; 2; 1; 0]].
Proof. repeat split; vm_compute; reflexivity. Qed.

(** * Properties of the batch driver *)

Section Collect.

Lemma collect_length futures : forall L init m,
  collect futures L init = Ok m -> length m = length init.
Proof.
  induction futures as [|[i fut] rest IH]; intros L init m H; cbn in H.
  - now injection H as <-.
  - destruct fut as [routes|e]; [|discriminate].
    destruct (merge_subroutes routes L) as [row|e]; [|discriminate].
    apply IH in H. now rewrite length_insert in H.
Qed.

(** A row that no later future writes keeps its content. *)
Lemma collect_other futures : forall L init m i,
  collect futures L init = Ok m ->
  (forall j, In j (map fst futures) -> j <> i) ->
  m !! i = init !! i.
Proof.
  induction futures as [|[i0 fut] rest IH]; intros L init m i H Hfresh;
    cbn in H.
  - now injection H as <-.
  - destruct fut as [routes|e]; [|discriminate].
    destruct (merge_subroutes routes L) as [row|e]; [|discriminate].
    rewrite (IH _ _ _ i H).
    + apply list_lookup_insert_ne. apply Hfresh. now left.
    + intros j Hj. apply Hfresh. now right.
Qed.

(** The futures of the indices [s], [s+1], ... each fill their own row
    with the merge of their routes. *)
Lemma collect_seq futures : forall L init m s n,
  collect futures L init = Ok m ->
  map fst futures = seq s n ->
  (s + n <= length init)%nat ->
  forall k fut,
    futures !! k = Some fut ->
    exists routes row,
      fut = ((s + k)%nat, Ok routes)
      /\ merge_subroutes routes L = Ok row
      /\ m !! (s + k)%nat = Some row.
Proof.
  induction futures as [|[i0 fut0] rest IH];
    intros L init m s n H Hidx Hlen k fut Hk; [discriminate|].
  destruct n as [|n]; [discriminate|]. cbn in Hidx.
  injection Hidx as -> Hrest. cbn in H.
  destruct fut0 as [routes0|e]; [|discriminate].
  destruct (merge_subroutes routes0 L) as [row0|e] eqn:Hm; [|discriminate].
  destruct k as [|k].
  - cbn in Hk. injection Hk as <-. exists routes0, row0.
    rewrite Nat.add_0_r. repeat split; [exact Hm|].
    rewrite (collect_other _ _ _ _ s H).
    + apply list_lookup_insert_eq. lia.
    + intros j Hj. rewrite Hrest in Hj. apply in_seq in Hj. lia.
  - cbn in Hk.
    destruct (IH L _ m (S s) n H Hrest) with (k := k) (fut := fut)
      as (routes & row & -> & Hr & Hrow).
    + rewrite length_insert. lia.
    + exact Hk.
    + exists routes, row. replace (s + S k)%nat with (S s + k)%nat by lia.
      auto.
Qed.

End Collect.

Section BatchFacts.

Variable CDLL : result unit.
Variable c_api_local_search :
  solver_args -> gmap string string -> result Z * gmap string string.
Variable py_int : string -> option Z.
Variable get_distance_matrix :
  list (list (float * float)) -> list (list (list float)).
Variable clock : nat -> Z * Z.

Local Abbreviation swap := (swapstar CDLL c_api_local_search py_int).
Local Abbreviation submit_jobs :=
  (submit_all CDLL c_api_local_search py_int clock).

Lemma submit_all_indices dt dem dist pos subs it indices : forall w futures w',
  submit_jobs dt dem dist pos subs it indices w = (Ok futures, w') ->
  map fst futures = indices.
Proof.
  induction indices as [|i rest IH]; intros w futures w' H; cbn in H.
  - unfold ret in H. now injection H as <- _.
  - unfold bind, ret in H.
    destruct (submit CDLL c_api_local_search py_int clock dt dem dist pos subs it
                i w) as [[fut|e] w1] eqn:Hs;
      [|discriminate].
    destruct (submit_jobs dt dem dist pos subs it rest w1) as [[futs|e] w2] eqn:Hr;
      [|discriminate].
    injection H as <- _. cbn. f_equal.
    + unfold submit, bind, lift in Hs.
      destruct (getitem dem i); [|discriminate].
      destruct (getitem dist i); [|discriminate].
      destruct (getitem pos i); [|discriminate].
      destruct (getitem subs i); [|discriminate].
      destruct (swapstar _ _ _ _ _ _ _ _ _ _ _ _) in Hs.
      now injection Hs as <- _.
    + eapply IH. exact Hr.
Qed.

(** The future at position [k] holds what [swapstar] returned for the
    item of index [indices !! k], run in the world left by the jobs
    submitted before it. *)
Lemma submit_all_lookup dt dem dist pos subs it indices :
  forall w futures w' k fut,
    submit_jobs dt dem dist pos subs it indices w = (Ok futures, w') ->
    futures !! k = Some fut ->
    exists i d m p r,
      indices !! k = Some i
      /\ dem !! i = Some d /\ dist !! i = Some m
      /\ pos !! i = Some p /\ subs !! i = Some r
      /\ fut = (i, fst (swap (fst (clock i)) (snd (clock i)) dt d m p r it
                          (snd (submit_jobs dt dem dist pos subs it
                                  (take k indices) w)))).
Proof.
  induction indices as [|i rest IH]; intros w futures w' k fut H Hk; cbn in H.
  - unfold ret in H. injection H as <- _. discriminate.
  - unfold bind, ret in H.
    destruct (submit CDLL c_api_local_search py_int clock dt dem dist pos subs it
                i w) as [[fut0|e] w1] eqn:Hs;
      [|discriminate].
    destruct (submit_jobs dt dem dist pos subs it rest w1) as [[futs|e] w2] eqn:Hr;
      [|discriminate].
    injection H as <- _.
    unfold submit, bind, lift, getitem in Hs.
    destruct (dem !! i) as [d|] eqn:Hd; [|discriminate].
    destruct (dist !! i) as [m|] eqn:Hdist; [|discriminate].
    destruct (pos !! i) as [p|] eqn:Hp; [|discriminate].
    destruct (subs !! i) as [r|] eqn:Hsub; [|discriminate].
    destruct (swap (fst (clock i)) (snd (clock i)) dt d m p r it w)
      as [res w1'] eqn:Hsw.
    injection Hs as <- <-.
    destruct k as [|k].
    + cbn in Hk. injection Hk as <-. exists i, d, m, p, r.
      cbn [take submit_all ret snd]. rewrite Hsw. repeat split; assumption.
    + cbn in Hk.
      destruct (IH w1' futs w2 k fut Hr Hk)
        as (i' & d' & m' & p' & r' & Hi & Hd' & Hm' & Hp' & Hr' & ->).
      exists i', d', m', p', r'. repeat split; try assumption.
      do 2 f_equal. cbn [take submit_all]. unfold bind, ret.
      unfold submit, bind, lift, getitem. rewrite Hd, Hdist, Hp, Hsub, Hsw.
      destruct (submit_jobs dt dem dist pos subs it (take k rest) w1')
        as [[a|e] w3]; reflexivity.
Qed.

End BatchFacts.

Section BatchClaims.

Variable CDLL : result unit.
Variable c_api_local_search :
  solver_args -> gmap string string -> result Z * gmap string string.
Variable py_int : string -> option Z.
Variable get_distance_matrix :
  list (list (float * float)) -> list (list (list float)).
Variable clock : nat -> Z * Z.

Local Abbreviation invoke := (invoke_and_decode c_api_local_search py_int).
Local Abbreviation swap := (swapstar CDLL c_api_local_search py_int).
Local Abbreviation submit_jobs :=
  (submit_all CDLL c_api_local_search py_int clock).
Local Abbreviation assemble :=
  (local_search_assemble CDLL c_api_local_search py_int get_distance_matrix
     clock).
Local Abbreviation batch_search :=
  (local_search CDLL c_api_local_search py_int get_distance_matrix clock).

Lemma lookup_map {A B} (f : A -> B) (l : list A) (i : nat) :
  map f l !! i = f <$> l !! i.
Proof.
  revert i. induction l as [|a l IH]; intros [|i]; cbn; auto.
Qed.

(** The row of a batch item in the assembled matrix is the merge of what
    [swapstar] returned for the item; [swapstar] ran on the subroutes of
    the padded tour, in the world left by the jobs of the items before. *)
Lemma assemble_row td actions it w new_actions w' i path :
  assemble td actions it w = (Ok new_actions, w') ->
  actions !! i = Some path ->
  exists d m p routes row,
    demand td !! i = Some d
    /\ match distances td with
       | None => get_distance_matrix (locs td)
       | Some distances => distances
       end !! i = Some m
    /\ locs td !! i = Some p
    /\ fst (swap (fst (clock i)) (snd (clock i)) (demand_dtype td)
              (S754_zero false :: d) m p
              (get_subroutes (0 :: path ++ [0]) true) it
              (snd (submit_jobs (demand_dtype td)
                      (map (fun row => S754_zero false :: row) (demand td))
                      match distances td with
                      | None => get_distance_matrix (locs td)
                      | Some distances => distances
                      end
                      (locs td)
                      (map (fun path => get_subroutes path true)
                           (map (fun row => 0 :: row ++ [0]) actions))
                      it (seq 0 i) w)))
      = Ok routes
    /\ merge_subroutes routes (shape1 (locs td) * 2) = Ok row
    /\ new_actions !! i = Some row.
Proof.
  intros H Hi. unfold local_search_assemble, bind, lift in H.
  rewrite !length_map in H.
  set (dist := match distances td with
               | None => get_distance_matrix (locs td)
               | Some distances => distances
               end) in *.
  set (dem := map (fun row => S754_zero false :: row) (demand td)) in *.
  set (subs := map (fun path => get_subroutes path true)
                   (map (fun row => 0 :: row ++ [0]) actions)) in *.
  destruct (submit_jobs (demand_dtype td) dem dist (locs td) subs it
              (seq 0 (length actions)) w)
    as [[futures|e] w1] eqn:Hs; [|discriminate].
  destruct (collect futures (shape1 (locs td) * 2)
              (repeat (repeat 0 (shape1 (locs td) * 2)) (length actions)))
    as [m0|e] eqn:Hc; [|discriminate].
  injection H as <- <-.
  pose proof (submit_all_indices CDLL c_api_local_search py_int clock
                _ _ _ _ _ _ _ _ _ _ Hs) as Hidx.
  pose proof (lookup_lt_Some _ _ _ Hi) as Hlt.
  assert (Hfut : exists fut, futures !! i = Some fut).
  { apply lookup_lt_is_Some_2.
    rewrite <- (length_map fst futures), Hidx, length_seq. exact Hlt. }
  destruct Hfut as [fut Hfut].
  destruct (collect_seq futures _ _ _ 0%nat (length actions) Hc Hidx)
    with (k := i) (fut := fut) as (routes & row & -> & Hmerge & Hrow).
  { rewrite repeat_length. lia. }
  { exact Hfut. }
  destruct (submit_all_lookup CDLL c_api_local_search py_int clock
              _ _ _ _ _ _ _ _ _ _ _ _ Hs Hfut)
    as (i' & d' & m' & p' & r' & Hi' & Hd' & Hm' & Hp' & Hr' & Hres).
  apply lookup_seq in Hi' as [-> _]. cbn [Nat.add] in *.
  subst dem subs. rewrite lookup_map in Hd'. rewrite !lookup_map, Hi in Hr'.
  change (Some (get_subroutes (0 :: path ++ [0]) true) = Some r') in Hr'.
  injection Hr' as <-.
  destruct (demand td !! i) as [d|] eqn:Hd; [|discriminate].
  change (Some (S754_zero false :: d) = Some d') in Hd'. injection Hd' as <-.
  exists d, m', p', routes, row.
  rewrite take_seq, Nat.min_l in Hres by lia.
  injection Hres as Hres. rewrite <- Hres. repeat split; assumption.
Qed.

(** C6. When the native call or the decoding of the response raises,
    [swapstar] returns the routes it was given and raises nothing; the
    row of that batch item in the assembled matrix is then the merge of
    the subroutes of the item's own padded tour, and the row that
    [local_search] returns for the item is that merge cut by the joint
    trim. The library is loaded. *)
Theorem improvement_failure_falls_back :
  CDLL = Ok tt ->
  (forall t rnd dt demands matrix positions routes count w p e,
     prepare (swapstar_data dt demands matrix positions routes) = Ok p ->
     fst (invoke_and_decode c_api_local_search py_int
            default_AlgorithmParameters false p (make_callid t rnd) count
            (snd (write_routes routes (tmppath_of (make_callid t rnd)) w)))
     = Raise e ->
     swapstar CDLL c_api_local_search py_int t rnd dt demands matrix
       positions routes count w
     = (Ok routes,
        snd (swapstar CDLL c_api_local_search py_int t rnd dt demands matrix
               positions routes count w)))
  /\ (forall td actions it w new_actions w' i path,
        local_search_assemble CDLL c_api_local_search py_int
          get_distance_matrix clock td actions it w
        = (Ok new_actions, w') ->
        actions !! i = Some path ->
        exists d m p,
          demand td !! i = Some d
          /\ match distances td with
             | None => get_distance_matrix (locs td)
             | Some distances => distances
             end !! i = Some m
          /\ locs td !! i = Some p
          /\ let routes := get_subroutes (0 :: path ++ [0]) true in
             let callid := make_callid (fst (clock i)) (snd (clock i)) in
             let w_i :=
               snd (submit_all CDLL c_api_local_search py_int clock
                      (demand_dtype td)
                      (map (fun row => S754_zero false :: row) (demand td))
                      match distances td with
                      | None => get_distance_matrix (locs td)
                      | Some distances => distances
                      end
                      (locs td)
                      (map (fun path => get_subroutes path true)
                           (map (fun row => 0 :: row ++ [0]) actions))
                      it (seq 0 i) w) in
             forall pr e,
               prepare (swapstar_data (demand_dtype td)
                          (S754_zero false :: d) m p routes) = Ok pr ->
               fst (invoke_and_decode c_api_local_search py_int
                      default_AlgorithmParameters false pr callid it
                      (snd (write_routes routes (tmppath_of callid) w_i)))
               = Raise e ->
               exists row,
                 merge_subroutes routes (shape1 (locs td) * 2) = Ok row
                 /\ new_actions !! i = Some row
                 /\ forall result w'',
                      local_search CDLL c_api_local_search py_int
                        get_distance_matrix clock td actions it w
                      = (Ok result, w'') ->
                      exists max_pos,
                        np_max (where_nonzero_columns new_actions)
                        = Ok max_pos
                        /\ result !! i = Some (slice row 1 (max_pos + 1))).
Proof.
  intros Hlib. split.
  - intros t rnd dt demands matrix positions routes count w p e Hp Hb.
    rewrite <- (swapstar_fallback CDLL c_api_local_search py_int t rnd dt
                  demands matrix positions routes count w p e Hlib Hp Hb)
      at 1.
    now destruct (swap t rnd dt demands matrix positions routes count w).
  - intros td actions it w new_actions w' i path Ha Hi.
    destruct (assemble_row td actions it w new_actions w' i path Ha Hi)
      as (d & m & p & routes & row & Hd & Hm & Hp & Hsw & Hmerge & Hrow).
    exists d, m, p. repeat split; try assumption.
    cbn zeta. intros pr e Hpr Hb.
    rewrite (swapstar_fallback CDLL c_api_local_search py_int _ _ _ _ _ _ _ _
               _ pr e Hlib Hpr Hb) in Hsw.
    injection Hsw as <-. exists row. repeat split; try assumption.
    intros result w'' Hres. unfold local_search, bind, lift in Hres.
    rewrite Ha in Hres. unfold trim in Hres.
    destruct (np_max (where_nonzero_columns new_actions)) as [max_pos|e'];
      [|discriminate].
    injection Hres as <- _. exists max_pos. split; [reflexivity|].
    now rewrite lookup_map, Hrow.
Qed.

(** C10. When the assembled matrix holds no non-zero entry, the trim
    has no column to take the maximum of and [local_search] raises
    ValueError instead of returning a matrix. *)
Theorem all_zero_batch_raises td actions it w new_actions w' :
  local_search_assemble CDLL c_api_local_search py_int get_distance_matrix
    clock td actions it w
  = (Ok new_actions, w') ->
  all_zero new_actions ->
  local_search CDLL c_api_local_search py_int get_distance_matrix clock
    td actions it w
  = (Raise ValueError, w').
Proof.
  intros Ha Hz. unfold local_search, bind, lift. rewrite Ha.
  now rewrite (trim_all_zero new_actions Hz).
Qed.

End BatchClaims.

Lemma improvement_failure_falls_back_witness :
  swapstar (Ok tt) failing_solver sample_int 0 7 float32 sample_demands
    sample_matrix sample_positions [[0; 1; 2; 0]] 1 empty_world
  = (Ok [[0; 1; 2; 0]],
     snd (swapstar (Ok tt) failing_solver sample_int 0 7 float32 sample_demands
            sample_matrix sample_positions [[0; 1; 2; 0]] 1 empty_world))
  /\ exists new_actions w' row,
       local_search_assemble (Ok tt) failing_solver sample_int
         sample_distance_matrix sample_clock sample_td [[1; 2]] 1 empty_world
       = (Ok new_actions, w')
       /\ merge_subroutes (get_subroutes [0; 1; 2; 0] true) 6 = Ok row
       /\ new_actions !! 0%nat = Some row.
Proof.
  destruct (improvement_failure_falls_back (Ok tt) failing_solver sample_int
              sample_distance_matrix sample_clock eq_refl) as [Hswap Hrow].
  split.
  - eapply Hswap; vm_compute; reflexivity.
  - exists [[0; 1; 2; 0; 0; 0]],
      (snd (local_search_assemble (Ok tt) failing_solver sample_int
              sample_distance_matrix sample_clock sample_td [[1; 2]] 1
              empty_world)).
    assert (Ha : local_search_assemble (Ok tt) failing_solver sample_int
                   sample_distance_matrix sample_clock sample_td [[1; 2]] 1
                   empty_world
                 = (Ok [[0; 1; 2; 0; 0; 0]],
                    snd (local_search_assemble (Ok tt) failing_solver
                           sample_int sample_distance_matrix sample_clock
                           sample_td [[1; 2]] 1 empty_world)))
      by (vm_compute; reflexivity).
    destruct (Hrow sample_td [[1; 2]] 1 empty_world _ _ 0%nat [1; 2] Ha eq_refl)
      as (d & m & p & Hd & Hm & Hp & Hfail).
    injection Hd as <-. injection Hm as <-. injection Hp as <-.
    edestruct Hfail as (row & Hmerge & Hlookup & _);
      [vm_compute; reflexivity|vm_compute; reflexivity|].
    exists row. repeat split; assumption.
Defined.

Lemma all_zero_batch_raises_witness :
  local_search (Ok tt) failing_solver sample_int sample_distance_matrix
    sample_clock sample_td [[0]] 1 empty_world
  = (Raise ValueError,
     snd (local_search_assemble (Ok tt) failing_solver sample_int
            sample_distance_matrix sample_clock sample_td [[0]] 1
            empty_world)).
Proof.
  apply all_zero_batch_raises with (new_actions := [[0; 0; 0; 0; 0; 0]]).
  - vm_compute. reflexivity.
  - repeat constructor.
Defined.

(** The batch driver on the sample: the solver answers with the route
    0, 1, 2, 0 and the trimmed result is the tour 1, 2. *)
Example local_search_sample :
  fst (local_search (Ok tt) answering_solver sample_int sample_distance_matrix
         sample_clock sample_td [[2; 1]] 1 empty_world)
  = Ok [[1; 2]].
Proof. vm_compute. reflexivity. Qed.

(** * Further properties of the route codec *)

Section RouteCodecMore.

Lemma in_where_zero_from path : forall k j,
  In j (where_zero_from k path) -> (k <= j < k + length path)%nat.
Proof.
  intros k j H. rewrite where_zero_from_filter in H.
  apply filter_In in H as [H _]. apply in_seq in H. lia.
Qed.

Lemma in_consecutive_pairs {A} (x : list A) i j :
  In (i, j) (consecutive_pairs x) -> In i x /\ In j x.
Proof.
  induction x as [|a [|b x] IH]; cbn; try tauto.
  intros [[= <- <-]|H]; [auto|].
  destruct (IH H) as [H1 H2]. auto.
Qed.

Lemma where_zero_pairs_bound path k i j :
  In (i, j) (consecutive_pairs (where_zero_from k path)) ->
  (k <= i)%nat /\ (j < k + length path)%nat.
Proof.
  intros H. apply in_consecutive_pairs in H as [Hi Hj].
  apply in_where_zero_from in Hi. apply in_where_zero_from in Hj. lia.
Qed.

Lemma emit_without_trailing_depot path i j :
  (j < length path)%nat ->
  emit path false (i, j) = map (@removelast Z) (emit path true (i, j)).
Proof.
  intros Hj. unfold emit. cbn [fst snd].
  destruct (Nat.ltb_spec 1 (j - i)) as [H|H]; [|reflexivity].
  cbn [map]. f_equal. unfold slice.
  replace (j + 1 - i)%nat with (S (j - i)) by lia.
  symmetry. apply removelast_firstn. rewrite length_drop. lia.
Qed.

(** X1. Without [end_with_zero], [get_subroutes] returns the subroutes of
    the default mode, each without its trailing depot. *)
Theorem get_subroutes_end_with_zero (path : list Z) :
  get_subroutes path false
  = map (@removelast Z) (get_subroutes path true).
Proof.
  rewrite !get_subroutes_flat_map. unfold where_zero.
  assert (H : forall ps,
             (forall i j, In (i, j) ps -> (j < length path)%nat) ->
             flat_map (emit path false) ps
             = map (@removelast Z) (flat_map (emit path true) ps)).
  { induction ps as [|[i j] ps IH]; intros Hps; [reflexivity|].
    cbn [flat_map]. rewrite map_app, IH, emit_without_trailing_depot.
    - reflexivity.
    - apply (Hps i j). now left.
    - intros i' j' Hin. apply (Hps i' j'). now right. }
  apply H. intros i j Hin.
  apply where_zero_pairs_bound in Hin. lia.
Qed.

Lemma where_zero_from_app l1 : forall k l2,
  where_zero_from k (l1 ++ l2)
  = where_zero_from k l1 ++ where_zero_from (k + length l1) l2.
Proof.
  induction l1 as [|v l1 IH]; intros k l2; cbn [app where_zero_from length].
  - now rewrite Nat.add_0_r.
  - rewrite IH. replace (S k + length l1)%nat with (k + S (length l1))%nat by lia.
    destruct (v =? 0); reflexivity.
Qed.

Lemma where_zero_from_nonzero l : forall k,
  Forall (fun v => v <> 0) l -> where_zero_from k l = [].
Proof.
  induction l as [|v l IH]; intros k H; [reflexivity|].
  inversion H as [|? ? Hv Hl]; subst. cbn.
  destruct (Z.eqb_spec v 0); [contradiction|]. now apply IH.
Qed.

Lemma where_zero_from_shift l : forall k d,
  where_zero_from (k + d) l = map (fun i => (i + d)%nat) (where_zero_from k l).
Proof.
  induction l as [|v l IH]; intros k d; [reflexivity|].
  cbn [where_zero_from]. change (S (k + d)) with (S k + d)%nat.
  rewrite IH. destruct (v =? 0); reflexivity.
Qed.

Lemma consecutive_pairs_map {A B} (f : A -> B) (x : list A) :
  consecutive_pairs (map f x)
  = map (fun p => (f (fst p), f (snd p))) (consecutive_pairs x).
Proof.
  induction x as [|a [|b x] IH]; try reflexivity.
  cbn [map] in *. rewrite !consecutive_pairs_cons. cbn [map fst snd].
  now rewrite IH.
Qed.

Lemma slice_inside (pre tour post : list Z) i j :
  (i <= j)%nat -> (j <= length tour)%nat ->
  slice (pre ++ tour ++ post) (i + length pre) (j + length pre)
  = slice tour i j.
Proof.
  intros Hij Hj. unfold slice.
  replace (j + length pre - (i + length pre))%nat with (j - i)%nat by lia.
  replace (i + length pre)%nat with (length pre + i)%nat by lia.
  rewrite drop_app_add, drop_app_le by lia.
  apply take_app_le. rewrite length_drop. lia.
Qed.

(** X2. The entries before the first depot visit and after the last one
    play no part: a stretch without depot put before or after a tour
    does not change its subroutes. This is why [local_search] pads the
    actions with a depot on both sides. *)
Theorem get_subroutes_outside_depots (pre tour post : list Z)
    (end_with_zero : bool) :
  Forall (fun v => v <> 0) pre ->
  Forall (fun v => v <> 0) post ->
  get_subroutes (pre ++ tour ++ post) end_with_zero
  = get_subroutes tour end_with_zero.
Proof.
  intros Hpre Hpost. rewrite !get_subroutes_flat_map. unfold where_zero.
  rewrite where_zero_from_app, (where_zero_from_nonzero pre) by exact Hpre.
  rewrite where_zero_from_app, (where_zero_from_nonzero post) by exact Hpost.
  rewrite app_nil_r. cbn [app].
  rewrite (where_zero_from_shift tour 0 (length pre)).
  rewrite consecutive_pairs_map, (flat_map_concat_map _ (map _ _)), map_map.
  rewrite (flat_map_concat_map (emit tour end_with_zero)).
  f_equal. apply map_ext_in. intros [i j] Hin. cbn [fst snd].
  apply where_zero_pairs_bound in Hin as [_ Hj]. cbn [Nat.add] in Hj.
  unfold emit. cbn [fst snd].
  replace (j + length pre - (i + length pre))%nat with (j - i)%nat by lia.
  destruct (Nat.ltb_spec 1 (j - i)) as [H|H]; [|reflexivity].
  f_equal. destruct end_with_zero.
  - replace (j + length pre + 1)%nat with (j + 1 + length pre)%nat by lia.
    apply slice_inside; lia.
  - apply slice_inside; lia.
Qed.

Lemma get_subroutes_outside_depots_witness :
  get_subroutes ([5; 4] ++ [0; 3; 1; 0; 2; 0] ++ [7]) true
  = get_subroutes [0; 3; 1; 0; 2; 0] true.
Proof.
  apply get_subroutes_outside_depots; repeat constructor; discriminate.
Defined.

End RouteCodecMore.

(** * Further properties of the trim *)

Section TrimMore.

Lemma non_depot_zeros (l : list Z) :
  (forall j, nth j l 0 = 0) -> non_depot l = [].
Proof.
  induction l as [|v l IH]; intros H; [reflexivity|].
  cbn. pose proof (H 0%nat) as H0. cbn in H0. subst v. cbn.
  apply IH. intros j. exact (H (S j)).
Qed.

Lemma non_depot_slice_1 (row : list Z) c :
  (forall j, (c < j)%nat -> nth j row 0 = 0) ->
  non_depot (slice row 1 (c + 1)) = non_depot (drop 1 row).
Proof.
  intros Hz. unfold slice.
  replace (c + 1 - 1)%nat with c by lia.
  rewrite <- (take_drop c (drop 1 row)) at 2.
  rewrite non_depot_app, (non_depot_zeros (drop c (drop 1 row))).
  - now rewrite app_nil_r.
  - intros j. rewrite !nth_skipn. apply Hz. lia.
Qed.

Lemma trim_columns m c :
  np_max (where_nonzero_columns m) = Ok c ->
  forall row j, In row m -> (c < j)%nat -> nth j row 0 = 0.
Proof.
  intros Hc row j Hrow Hj. apply np_max_spec in Hc as [_ Hmax].
  destruct (Z.eq_dec (nth j row 0) 0) as [E|E]; [exact E|].
  destruct (le_lt_dec (length row) j) as [Hge|Hlt]; [now apply nth_overflow|].
  assert (Hin : In j (where_nonzero_columns m))
    by (apply in_where_nonzero_columns; now exists row).
  apply Hmax in Hin. lia.
Qed.

(** X3. The trim keeps the number of rows and, in every row, all the
    non-zero entries that are not in column 0, in their order; a row
    whose column 0 holds the depot loses no node. *)
Theorem trim_keeps_nodes (m m' : list (list Z)) :
  trim m = Ok m' ->
  length m' = length m
  /\ forall i row,
       m !! i = Some row ->
       exists row',
         m' !! i = Some row'
         /\ non_depot row' = non_depot (drop 1 row)
         /\ (hd 0 row = 0 -> non_depot row' = non_depot row).
Proof.
  unfold trim. destruct (np_max (where_nonzero_columns m)) as [c|e] eqn:Hc;
    [|discriminate].
  intros [= <-]. split; [apply length_map|].
  intros i row Hi. exists (slice row 1 (c + 1)).
  assert (Hin : In row m).
  { apply list_elem_of_In. eapply list_elem_of_lookup_2. exact Hi. }
  assert (E : non_depot (slice row 1 (c + 1)) = non_depot (drop 1 row)).
  { apply non_depot_slice_1. intros j Hj. now apply (trim_columns m c Hc). }
  split; [|split; [exact E|]].
  - clear -Hi. revert i Hi. induction m as [|r m IH]; intros [|i] Hi;
      try discriminate; cbn in *; [congruence|now apply IH].
  - intros Hhd. rewrite E. destruct row as [|v row]; [reflexivity|].
    cbn in Hhd. subst v. reflexivity.
Qed.

Lemma trim_keeps_nodes_witness :
  exists row',
    [[3; 1]; [2; 0]] !! 1%nat = Some row'
    /\ non_depot row' = non_depot (drop 1 [0; 2; 0; 0])
    /\ (hd 0 [0; 2; 0; 0] = 0 -> non_depot row' = non_depot [0; 2; 0; 0]).
Proof.
  apply (trim_keeps_nodes [[0; 3; 1; 0]; [0; 2; 0; 0]] [[3; 1]; [2; 0]]);
    reflexivity.
Defined.

End TrimMore.

Section OutputFormat.

Lemma take_repeat {A} (x : A) n m :
  (n <= m)%nat -> take n (repeat x m) = repeat x n.
Proof.
  revert m. induction n as [|n IH]; intros [|m] H; cbn; try reflexivity;
    [lia|]. f_equal. apply IH. lia.
Qed.

Lemma drop_repeat {A} (x : A) n m :
  drop n (repeat x m) = repeat x (m - n).
Proof.
  revert m. induction n as [|n IH]; intros [|m]; cbn; try reflexivity.
  apply IH.
Qed.

Lemma merge_subroutes_ok routes L row :
  merge_subroutes routes L = Ok row ->
  (length (merged_prefix routes) <= L)%nat
  /\ row = merged_prefix routes
           ++ repeat 0 (L - length (merged_prefix routes)).
Proof.
  rewrite merge_subroutes_closed_form.
  destruct (Nat.leb_spec (length (merged_prefix routes)) L) as [H|H];
    [|discriminate].
  intros [= <-]. auto.
Qed.

(** What is merged from proper subroutes starts at the depot and ends
    with a customer. *)
Lemma merged_prefix_ends_with_customer segs :
  Forall is_subroute segs -> segs <> [] ->
  exists t x, merged_prefix segs = 0 :: t ++ [x] /\ x <> 0.
Proof.
  induction 1 as [|r segs (body & Hne & Hnz & ->) Hsegs IH]; [congruence|].
  intros _.
  assert (E : merged_prefix ((0 :: body ++ [0]) :: segs)
              = 0 :: body ++ merged_prefix segs).
  { rewrite <- (rev_involutive body). rewrite merged_prefix_segment.
    - reflexivity.
    - intros E. apply Hne. rewrite <- (rev_involutive body), E. reflexivity. }
  rewrite E. destruct segs as [|s segs].
  - change (merged_prefix []) with (@nil Z). rewrite app_nil_r.
    destruct (exists_last Hne) as (b & x & ->).
    exists b, x. split; [reflexivity|].
    apply Forall_app in Hnz as [_ Hx]. now inversion Hx.
  - destruct IH as (t & x & Ht & Hx); [discriminate|].
    rewrite Ht. exists (body ++ 0 :: t), x. split; [|exact Hx].
    now rewrite <- app_assoc.
Qed.

(** X4. The rows that [local_search] returns are in the format of its
    input: a row of the merged matrix that holds the merge of proper
    subroutes, once trimmed and padded with a depot on both sides as
    [local_search] pads the actions, decomposes into those subroutes. *)
Theorem trimmed_row_decomposes (L : nat) (rows result : list (list Z))
    (i : nat) (routes : list (list Z)) (row : list Z) :
  rectangular L rows ->
  rows !! i = Some row ->
  merge_subroutes routes L = Ok row ->
  Forall is_subroute routes ->
  trim rows = Ok result ->
  exists out,
    result !! i = Some out
    /\ get_subroutes (0 :: out ++ [0]) true = routes.
Proof.
  intros Hrect Hi Hmerge Hwf Htrim.
  unfold trim in Htrim.
  destruct (np_max (where_nonzero_columns rows)) as [c|e] eqn:Hc;
    [|discriminate].
  injection Htrim as <-.
  exists (slice row 1 (c + 1)).
  split; [now rewrite lookup_map, Hi|].
  apply merge_subroutes_ok in Hmerge as [Hfit ->].
  pose proof Hc as Hspec. apply np_max_spec in Hspec as [Hin Hmax].
  apply in_where_nonzero_columns in Hin as (r0 & Hr0 & Hlt & _).
  unfold rectangular in Hrect. rewrite List.Forall_forall in Hrect.
  rewrite (Hrect r0 Hr0) in Hlt.
  assert (Hrow : In (merged_prefix routes
                     ++ repeat 0 (L - length (merged_prefix routes))) rows).
  { apply list_elem_of_In. eapply list_elem_of_lookup_2. exact Hi. }
  unfold slice. replace (c + 1 - 1)%nat with c by lia.
  destruct routes as [|r routes].
  - change (merged_prefix []) with (@nil Z). cbn [app length].
    rewrite drop_repeat, take_repeat by lia.
    rewrite <- (repeat_cons c 0).
    change (0 :: 0 :: repeat 0 c) with (merged_prefix [] ++ repeat 0 (S (S c))).
    now apply get_subroutes_merged.
  - destruct (merged_prefix_ends_with_customer (r :: routes) Hwf)
      as (t & x & Ht & Hx); [discriminate|].
    rewrite Ht in *. cbn [length] in Hfit. rewrite length_app in Hfit.
    cbn [length] in Hfit.
    assert (Hcol : (S (length t) <= c)%nat).
    { apply Hmax. apply in_where_nonzero_columns.
      eexists. split; [exact Hrow|]. split.
      - rewrite length_app, repeat_length. cbn [length].
        rewrite length_app. cbn [length]. lia.
      - replace ((0 :: t ++ [x]) ++ repeat 0 (L - length (0 :: t ++ [x])))
          with ((0 :: t) ++ x :: repeat 0 (L - length (0 :: t ++ [x])))
          by (cbn [app]; now rewrite <- app_assoc).
        change (S (length t)) with (length (0 :: t)).
        now rewrite nth_middle. }
    cbn [app skipn]. rewrite skipn_O.
    rewrite take_app_ge by (rewrite length_app; cbn [length]; lia).
    rewrite take_repeat
      by (cbn [length]; rewrite !length_app; cbn [length]; lia).
    rewrite <- app_assoc. rewrite <- (repeat_cons _ 0).
    change (0 :: (t ++ [x]) ++ 0 :: repeat 0 (c - length (t ++ [x])))
      with ((0 :: t ++ [x]) ++ repeat 0 (S (c - length (t ++ [x])))).
    rewrite <- Ht. now apply get_subroutes_merged.
Qed.

Lemma trimmed_row_decomposes_witness :
  exists out,
    [[3; 1; 0; 2]; [2; 0; 0; 0]] !! 0%nat = Some out
    /\ get_subroutes (0 :: out ++ [0]) true = [[0; 3; 1; 0]; [0; 2; 0]].
Proof.
  apply (trimmed_row_decomposes 6
           [[0; 3; 1; 0; 2; 0]; [0; 2; 0; 0; 0; 0]]
           [[3; 1; 0; 2]; [2; 0; 0; 0]] 0
           [[0; 3; 1; 0]; [0; 2; 0]] [0; 3; 1; 0; 2; 0]).
  - repeat constructor.
  - reflexivity.
  - reflexivity.
  - repeat constructor.
    + exists [3; 1]. repeat split; [discriminate|repeat constructor; discriminate].
    + exists [2]. repeat split; [discriminate|repeat constructor; discriminate].
  - reflexivity.
Defined.

End OutputFormat.

(** * Properties of the response decoding *)

Section Decoding.

Variable py_int : string -> option Z.

Lemma parse_route_ok line r :
  parse_route py_int line = Ok r -> exists body, r = 0 :: body ++ [0].
Proof.
  unfold parse_route. destruct (split_on ":" line) as [|a [|fields l]];
    try discriminate.
  destruct (map_int py_int (split_ws fields)) as [vs|e]; [|discriminate].
  intros [= <-]. now exists vs.
Qed.

(** X5. Whatever the file holds, every route that [read_routes] decodes
    begins and ends with the depot, and there are at most as many
    routes as lines. *)
Theorem read_routes_lines_depot_delimited (lines : list string)
    (routes : list (list Z)) :
  read_routes_lines py_int lines = Ok routes ->
  Forall (fun r => exists body, r = 0 :: body ++ [0]) routes
  /\ (length routes <= length lines)%nat.
Proof.
  revert routes. induction lines as [|l rest IH]; intros routes H; cbn in H.
  - injection H as <-. split; [constructor|cbn; lia].
  - destruct (String.prefix "Route" (strip l)).
    + destruct (parse_route py_int (strip l)) as [r|e] eqn:Hp; [|discriminate].
      destruct (read_routes_lines py_int rest) as [rs|e]; [|discriminate].
      injection H as <-. destruct (IH rs eq_refl) as [Hall Hlen].
      split; [constructor; [now apply parse_route_ok in Hp|exact Hall]|].
      cbn. lia.
    + injection H as <-. split; [constructor|cbn; lia].
Qed.

(** X6. The decoding stops at the first line that does not start with
    "Route": what follows that line is never read, whatever it holds. *)
Theorem read_routes_lines_stops (pre : list string) (stop : string)
    (post : list string) :
  String.prefix "Route" (strip stop) = false ->
  read_routes_lines py_int (pre ++ stop :: post)
  = read_routes_lines py_int pre.
Proof.
  intros Hstop. induction pre as [|l pre IH]; cbn.
  - now rewrite Hstop.
  - destruct (String.prefix "Route" (strip l)); [|reflexivity].
    destruct (parse_route py_int (strip l)); [|reflexivity].
    now rewrite IH.
Qed.

Lemma split_on_lacks c s : lacks c s = true -> split_on c s = [s].
Proof.
  induction s as [|a s IH]; intros H; [reflexivity|].
  cbn in H. apply andb_true_iff in H as [Ha Hs]. apply negb_true_iff in Ha.
  cbn. now rewrite Ha, IH.
Qed.

(** X7. A first line that starts with "Route", once stripped, and holds
    no colon makes the decoding raise IndexError. *)
Theorem read_routes_lines_no_colon (l : string) (rest : list string) :
  String.prefix "Route" (strip l) = true ->
  lacks ":" (strip l) = true ->
  read_routes_lines py_int (l :: rest) = Raise IndexError.
Proof.
  intros Hp Hc. cbn. rewrite Hp. unfold parse_route.
  now rewrite split_on_lacks.
Qed.

End Decoding.

(** The text mode ends a line at a carriage return as well: two routes
    separated by a lone carriage return are two lines. *)
Example read_routes_carriage_return :
  fst (read_routes sample_int "/tmp/swapstar-result-7"
         {| files :=
              {[ "/tmp/swapstar-result-7"%string :=
                   ("Route #1: 1 2" ++ String (ascii_of_nat 13) "Route #2: 3"
                    ++ String (ascii_of_nat 13) newline)%string ]};
            calls := [] |})
  = Ok [[0; 1; 2; 0]; [0; 3; 0]].
Proof. vm_compute. reflexivity. Qed.

Lemma read_routes_lines_stops_witness :
  read_routes_lines sample_int ["Route #1: 1 2"; "Cost 7"; "Route #2: x"]%string
  = read_routes_lines sample_int ["Route #1: 1 2"]%string.
Proof.
  apply (read_routes_lines_stops sample_int ["Route #1: 1 2"%string]).
  reflexivity.
Defined.

Lemma read_routes_lines_depot_delimited_witness :
  Forall (fun r => exists body, r = 0 :: body ++ [0]) [[0; 1; 2; 0]]
  /\ (1 <= 2)%nat.
Proof.
  apply (read_routes_lines_depot_delimited sample_int
           ["Route #1: 1 2"; "Cost 7"]%string [[0; 1; 2; 0]]).
  reflexivity.
Defined.

Lemma read_routes_lines_no_colon_witness :
  read_routes_lines sample_int ["  Route 1 2 "; "Route #2: 3"]%string
  = Raise IndexError.
Proof.
  apply read_routes_lines_no_colon; reflexivity.
Defined.

(** * Round trip of the request encoding and the response decoding *)

Section CodecRoundTrip.

Variable py_int : string -> option Z.

Lemma append_nil_l (s : string) : (EmptyString ++ s)%string = s.
Proof. reflexivity. Qed.

Lemma append_nil_r (s : string) : (s ++ EmptyString)%string = s.
Proof.
  induction s as [|c s IH]; [reflexivity|].
  rewrite append_String. now f_equal.
Qed.

Lemma plain_app s t : plain (s ++ t) = plain s && plain t.
Proof.
  induction s as [|c s IH]; [reflexivity|].
  rewrite append_String. cbn [plain]. rewrite IH. now rewrite andb_assoc.
Qed.

Lemma plain_uint d : plain (NilEmpty.string_of_uint d) = true.
Proof. induction d; cbn; auto. Qed.

Lemma plain_str x : plain (str x) = true.
Proof.
  unfold str, NilZero.string_of_int, NilZero.string_of_uint.
  destruct (Z.to_int x) as [d|d]; destruct d; cbn;
    try reflexivity; apply plain_uint.
Qed.

Lemma str_nonempty x : str x <> EmptyString.
Proof.
  unfold str, NilZero.string_of_int, NilZero.string_of_uint.
  destruct (Z.to_int x) as [d|d]; destruct d; discriminate.
Qed.

Lemma plain_lacks_colon s : plain s = true -> lacks ":" s = true.
Proof.
  induction s as [|c s IH]; [reflexivity|]. cbn.
  intros H. apply andb_true_iff in H as [H Hs].
  apply andb_true_iff in H as [_ Hc]. now rewrite Hc, IH.
Qed.

Lemma lacks_app c s t : lacks c (s ++ t) = lacks c s && lacks c t.
Proof.
  induction s as [|a s IH]; [reflexivity|].
  rewrite append_String. cbn [lacks]. rewrite IH. now rewrite andb_assoc.
Qed.

Lemma split_on_sep c s rest :
  lacks c s = true ->
  split_on c (s ++ String c rest) = s :: split_on c rest.
Proof.
  induction s as [|a s IH]; intros H.
  - rewrite append_nil_l. cbn. now rewrite Ascii.eqb_refl.
  - cbn in H. apply andb_true_iff in H as [Ha Hs]. apply negb_true_iff in Ha.
    rewrite append_String. cbn [split_on]. now rewrite Ha, IH.
Qed.

Lemma rstrip_plain s : plain s = true -> rstrip s = s.
Proof.
  induction s as [|c s IH]; [reflexivity|]. cbn.
  intros H. apply andb_true_iff in H as [H Hs].
  apply andb_true_iff in H as [Hc _]. apply negb_true_iff in Hc.
  rewrite (IH Hs), Hc. now destruct s.
Qed.

Lemma rstrip_app s t :
  rstrip (s ++ t)
  = match rstrip t with
    | EmptyString => rstrip s
    | _ => (s ++ rstrip t)%string
    end.
Proof.
  induction s as [|c s IH].
  - rewrite append_nil_l. cbn. now destruct (rstrip t).
  - rewrite append_String. cbn [rstrip]. rewrite IH.
    destruct (rstrip t) as [|a u]; [reflexivity|].
    rewrite append_String. now destruct s.
Qed.

Lemma split_ws_from_plain t : forall tok rest,
  plain t = true ->
  split_ws_from tok (t ++ rest) = split_ws_from (tok ++ t) rest.
Proof.
  induction t as [|c t IH]; intros tok rest H.
  - now rewrite append_nil_l, append_nil_r.
  - cbn in H. apply andb_true_iff in H as [H Ht].
    apply andb_true_iff in H as [Hc _]. apply negb_true_iff in Hc.
    rewrite append_String. cbn [split_ws_from]. rewrite Hc.
    rewrite (IH _ _ Ht). f_equal.
    now rewrite string_app_assoc.
Qed.

Lemma join_cons (t t' : string) (l : list string) :
  String.concat " " (t :: t' :: l)
  = (t ++ " " ++ String.concat " " (t' :: l))%string.
Proof. reflexivity. Qed.

Lemma join_nonempty (ss : list string) :
  ss <> [] -> Forall (fun t => t <> EmptyString) ss ->
  String.concat " " ss <> EmptyString.
Proof.
  intros Hne H. destruct H as [|t ss Ht _]; [congruence|].
  destruct t as [|c t]; [congruence|].
  destruct ss as [|t' ss]; [discriminate|].
  rewrite join_cons, append_String. discriminate.
Qed.

Lemma rstrip_join (ss : list string) :
  Forall (fun t => plain t = true) ss ->
  Forall (fun t => t <> EmptyString) ss ->
  rstrip (String.concat " " ss) = String.concat " " ss.
Proof.
  intros Hp Hn. induction Hp as [|t ss Ht Hss IH]; [reflexivity|].
  inversion Hn as [|? ? Hnt Hnss]; subst.
  destruct ss as [|t' ss]; [now apply rstrip_plain|].
  rewrite join_cons. specialize (IH Hnss).
  assert (Hj : String.concat " " (t' :: ss) <> EmptyString)
    by (apply join_nonempty; [discriminate|exact Hnss]).
  rewrite rstrip_app, (rstrip_app " "), IH.
  destruct (String.concat " " (t' :: ss)) as [|c u]; [congruence|].
  reflexivity.
Qed.

Lemma split_ws_join (ss : list string) :
  Forall (fun t => plain t = true) ss ->
  Forall (fun t => t <> EmptyString) ss ->
  split_ws_from EmptyString (String.concat " " ss) = ss.
Proof.
  intros Hp Hn. induction Hp as [|t ss Ht Hss IH]; [reflexivity|].
  inversion Hn as [|? ? Hnt Hnss]; subst.
  destruct ss as [|t' ss].
  - cbn [String.concat]. rewrite <- (append_nil_r t) at 1.
    rewrite split_ws_from_plain by exact Ht. rewrite append_nil_l.
    cbn. now destruct t.
  - rewrite join_cons, split_ws_from_plain by exact Ht.
    rewrite append_nil_l, append_String, append_nil_l.
    cbn [split_ws_from]. change (is_space " ") with true. cbn iota.
    rewrite (IH Hnss). now destruct t.
Qed.

Lemma lacks_colon_join (ss : list string) :
  Forall (fun t => plain t = true) ss ->
  lacks ":" (String.concat " " ss) = true.
Proof.
  induction 1 as [|t ss Ht Hss IH]; [reflexivity|].
  destruct ss as [|t' ss]; [now apply plain_lacks_colon|].
  rewrite join_cons, !lacks_app, IH, (plain_lacks_colon t Ht). reflexivity.
Qed.

Lemma map_int_str (toks : list Z) :
  Forall (fun x => py_int (str x) = Some x) toks ->
  map_int py_int (map str toks) = Ok toks.
Proof.
  induction 1 as [|x toks Hx _ IH]; [reflexivity|].
  cbn. now rewrite Hx, IH.
Qed.

(** The stripped line: the header, a colon, and the tokens after a
    space, or nothing when there is no token. *)
Lemma strip_line_of_tokens k toks :
  strip (line_of_tokens k toks)
  = ("Route #" ++ str k
     ++ String ":" match toks with
                   | [] => EmptyString
                   | _ => String " " (String.concat " " (map str toks))
                   end)%string.
Proof.
  unfold strip, line_of_tokens.
  assert (Hl : forall s, lstrip ("Route #" ++ s) = ("Route #" ++ s)%string)
    by reflexivity.
  rewrite Hl.
  assert (Hall : Forall (fun t => plain t = true) (map str toks)).
  { apply List.Forall_forall. intros t Ht.
    apply in_map_iff in Ht as (x & <- & _). apply plain_str. }
  assert (Hne : Forall (fun t => t <> EmptyString) (map str toks)).
  { apply List.Forall_forall. intros t Ht.
    apply in_map_iff in Ht as (x & <- & _). apply str_nonempty. }
  destruct toks as [|x toks].
  - cbn [map String.concat].
    assert (E : ("Route #" ++ str k ++ ": " ++ "")%string
                = ((("Route #" ++ str k) ++ ":") ++ " ")%string)
      by (now rewrite !string_app_assoc).
    rewrite E, rstrip_app. change (rstrip " ") with EmptyString. cbn iota.
    rewrite rstrip_app. change (rstrip ":") with ":"%string. cbn iota.
    now rewrite string_app_assoc.
  - assert (E : ("Route #" ++ str k ++ ": "
                 ++ String.concat " " (map str (x :: toks)))%string
                = (("Route #" ++ str k ++ ": ")
                   ++ String.concat " " (map str (x :: toks)))%string)
      by (now rewrite !string_app_assoc).
    rewrite E, rstrip_app, rstrip_join by assumption.
    pose proof (join_nonempty (map str (x :: toks))) as Hj.
    destruct (String.concat " " (map str (x :: toks))) as [|c u] eqn:Ej.
    + exfalso. apply Hj; [discriminate|exact Hne|reflexivity].
    + now rewrite !string_app_assoc.
Qed.

Lemma decoded_line k toks :
  Forall (fun x => py_int (str x) = Some x) toks ->
  String.prefix "Route" (strip (line_of_tokens k toks)) = true
  /\ parse_route py_int (strip (line_of_tokens k toks))
     = Ok (0 :: toks ++ [0]).
Proof.
  intros Hint. rewrite strip_line_of_tokens. split; [reflexivity|].
  unfold parse_route.
  assert (Hall : Forall (fun t => plain t = true) (map str toks)).
  { apply List.Forall_forall. intros t Ht.
    apply in_map_iff in Ht as (x & <- & _). apply plain_str. }
  assert (Hne : Forall (fun t => t <> EmptyString) (map str toks)).
  { apply List.Forall_forall. intros t Ht.
    apply in_map_iff in Ht as (x & <- & _). apply str_nonempty. }
  rewrite <- string_app_assoc, split_on_sep.
  - assert (Hf : forall F,
               lacks ":" F = true -> split_ws F = map str toks ->
               match split_on ":" F with
               | [] => @Raise (list Z) IndexError
               | fields :: _ =>
                   match map_int py_int (split_ws fields) with
                   | Ok vs => Ok (0 :: vs ++ [0])
                   | Raise e => Raise e
                   end
               end = Ok (0 :: toks ++ [0])).
    { intros F HF Hs. rewrite split_on_lacks by exact HF.
      now rewrite Hs, map_int_str. }
    destruct toks as [|x toks].
    + now apply Hf.
    + apply Hf.
      * cbn [lacks]. change (negb (Ascii.eqb " " ":")) with true.
        cbn [andb]. now apply lacks_colon_join.
      * unfold split_ws. cbn [split_ws_from].
        change (is_space " ") with true. cbn iota.
        now apply split_ws_join.
  - rewrite lacks_app, (plain_lacks_colon _ (plain_str k)). reflexivity.
Qed.

Lemma read_written_lines routes : forall i,
  (forall x, 0 < x -> py_int (str x) = Some x) ->
  read_routes_lines py_int
    (imap (fun k r =>
             line_of_tokens (Z.of_nat (i + k) + 1)
               (List.filter (fun x => 0 <? x) r)) routes
     ++ [EmptyString])
  = Ok (map as_subroute routes).
Proof.
  induction routes as [|r routes IH]; intros i Hint; [reflexivity|].
  cbn [imap app read_routes_lines map].
  destruct (decoded_line (Z.of_nat (i + 0) + 1)
              (List.filter (fun x => 0 <? x) r)) as [Hp Hr].
  { apply List.Forall_forall. intros x Hx. apply filter_In in Hx as [_ Hx].
    apply Hint. now apply Z.ltb_lt. }
  rewrite Hp, Hr.
  rewrite (imap_ext _ (fun k r =>
             line_of_tokens (Z.of_nat (S i + k) + 1)
               (List.filter (fun x => 0 <? x) r))).
  - now rewrite IH.
  - intros k x _. cbn. now replace (i + S k)%nat with (S (i + k)) by lia.
Qed.

Lemma plain_lacks_cr s : plain s = true -> lacks (ascii_of_nat 13) s = true.
Proof.
  induction s as [|c s IH]; [reflexivity|]. cbn [plain lacks].
  intros H. apply andb_true_iff in H as [H Hs].
  apply andb_true_iff in H as [Hc _]. rewrite (IH Hs), andb_true_r.
  destruct (Ascii.eqb_spec c (ascii_of_nat 13)) as [->|_]; [|reflexivity].
  discriminate Hc.
Qed.

Lemma lacks_cr_join (ss : list string) :
  Forall (fun t => plain t = true) ss ->
  lacks (ascii_of_nat 13) (String.concat " " ss) = true.
Proof.
  induction 1 as [|t ss Ht Hss IH]; [reflexivity|].
  destruct ss as [|t' ss]; [now apply plain_lacks_cr|].
  rewrite join_cons, !lacks_app, IH, (plain_lacks_cr t Ht). reflexivity.
Qed.

(** The text that [write_routes] produces holds no carriage return, so
    the text mode reads it as it is. *)
Lemma write_routes_from_lacks_cr routes : forall i,
  lacks (ascii_of_nat 13) (write_routes_from i routes) = true.
Proof.
  induction routes as [|r routes IH]; intros i; [reflexivity|].
  cbn [write_routes_from]. unfold route_line.
  rewrite !lacks_app, IH, (plain_lacks_cr _ (plain_str _)), lacks_cr_join.
  - reflexivity.
  - apply List.Forall_forall. intros t Ht.
    apply in_map_iff in Ht as (x & <- & _). apply plain_str.
Qed.

Lemma universal_newlines_lacks_cr s :
  lacks (ascii_of_nat 13) s = true -> universal_newlines s = s.
Proof.
  induction s as [|c s IH]; [reflexivity|]. cbn [lacks universal_newlines].
  intros H. apply andb_true_iff in H as [Hc Hs].
  apply negb_true_iff in Hc. rewrite Hc. now rewrite IH.
Qed.

(** X8. Reading back the file that [write_routes] has written gives
    every route as the depot, its entries greater than 0, the depot; a
    list of subroutes (the depot, customers with positive indices, the
    depot) is read back unchanged. [int] reads what [str] prints. *)
Theorem write_then_read_routes (routes : list (list Z)) (filepath : string)
    (w : world) :
  (forall x, 0 < x -> py_int (str x) = Some x) ->
  read_routes py_int filepath (snd (write_routes routes filepath w))
  = (Ok (map as_subroute routes), snd (write_routes routes filepath w))
  /\ (Forall depot_delimited routes -> map as_subroute routes = routes).
Proof.
  intros Hint. split.
  - unfold read_routes. cbn [write_routes snd set_files files].
    rewrite lookup_insert_eq. unfold write_routes_text.
    rewrite universal_newlines_lacks_cr by apply write_routes_from_lacks_cr.
    now rewrite write_routes_from_lines, read_written_lines.
  - intros Hwf. induction Hwf as [|r routes (body & -> & Hpos) _ IH];
      [reflexivity|].
    cbn [map]. rewrite IH. unfold as_subroute.
    now rewrite positive_entries.
Qed.

End CodecRoundTrip.

Lemma decimal_int_str (x : Z) : decimal_int (str x) = Some x.
Proof.
  unfold decimal_int, str. rewrite NilZero.isi.
  - cbn. now rewrite DecimalZ.of_to.
  - destruct x; cbn; try discriminate.
    intros [= E]. now apply Unsigned.to_uint_nonnil in E.
  - destruct x; cbn; try discriminate.
    intros [= E]. now apply Unsigned.to_uint_nonnil in E.
Qed.

Lemma write_then_read_routes_witness :
  read_routes decimal_int "/tmp/route-7"
    (snd (write_routes [[0; 3; 1; 0]; [0; 12; 0]] "/tmp/route-7" empty_world))
  = (Ok [[0; 3; 1; 0]; [0; 12; 0]],
     snd (write_routes [[0; 3; 1; 0]; [0; 12; 0]] "/tmp/route-7" empty_world)).
Proof.
  destruct (write_then_read_routes decimal_int [[0; 3; 1; 0]; [0; 12; 0]]
              "/tmp/route-7" empty_world) as [H _].
  - intros x _. apply decimal_int_str.
  - exact H.
Defined.

(** * Further properties of the solver gateway *)

Section CallIdentity.

(** X9. The call identity fits a C [int]: it lies between 0 and
    [C_INT_MAX] - 1. It does not identify the call: the draw 10000 at one
    clock reading and the draw 0 at the next reading give the same
    identity, and so do two readings [C_INT_MAX] nanoseconds apart. *)
Theorem make_callid_range_and_collisions (time_ns randint : Z) :
  0 <= make_callid time_ns randint < C_INT_MAX
  /\ C_INT_MAX = 2147483647
  /\ make_callid time_ns 10000 = make_callid (time_ns + 1) 0
  /\ make_callid (time_ns + C_INT_MAX) randint = make_callid time_ns randint.
Proof.
  unfold make_callid. change C_INT_MAX with 2147483647.
  split; [apply Z.mod_pos_bound; lia|]. split; [reflexivity|]. split.
  - f_equal. lia.
  - replace ((time_ns + 2147483647) * 10000 + randint)
      with (time_ns * 10000 + randint + 10000 * 2147483647) by lia.
    apply Z.mod_add. lia.
Qed.

Lemma str_inj (a b : Z) : str a = str b -> a = b.
Proof.
  intros E. pose proof (decimal_int_str a) as Ha.
  rewrite E, decimal_int_str in Ha. congruence.
Qed.

Lemma append_inj_l (p s t : string) : (p ++ s = p ++ t)%string -> s = t.
Proof.
  induction p as [|c p IH]; [auto|].
  rewrite !append_String. intros [= E]. auto.
Qed.

(** X10. The exchange files are named after the call identity without
    ambiguity: two identities share a request file, or a response file,
    only when they are equal, and the request file of one call is never
    the response file of another. *)
Theorem exchange_paths_injective (a b : Z) :
  (tmppath_of a = tmppath_of b <-> a = b)
  /\ (resultpath_of a = resultpath_of b <-> a = b)
  /\ tmppath_of a <> resultpath_of b.
Proof.
  unfold tmppath_of, resultpath_of. split; [|split].
  - split; [|congruence]. intros E. apply append_inj_l in E. now apply str_inj.
  - split; [|congruence]. intros E. apply append_inj_l in E. now apply str_inj.
  - intros E. discriminate E.
Qed.

End CallIdentity.

Section GatewayResults.

Variable c_api_local_search :
  solver_args -> gmap string string -> result Z * gmap string string.
Variable py_int : string -> option Z.

(** The checks raise one of three exceptions. *)
Lemma prepare_exceptions d e :
  prepare d = Raise e ->
  e = ValueError \/ e = AssertionError \/ e = IndexError.
Proof.
  unfold prepare.
  destruct (negb (default 0 (depot d) =? 0)); [intros [= <-]; auto|].
  destruct (duration_limit d);
    (destruct (x_coordinates d), (y_coordinates d), (distance_matrix d)
       as [[|row mtx']|];
     repeat match goal with
            | |- context [if negb ?b then _ else _] => destruct b; cbn [negb]
            end;
     intros [= <-]; auto).
Qed.

(** X11. [Solver.local_search] returns routes exactly when the checks
    pass, the native call and the decoding succeed, and the request file
    is still there to be removed; the routes are then the decoded ones.
    A solver that has removed the request file turns a successful
    improvement into an exception. *)
Theorem Solver_local_search_returns ap verbose t rnd d routes count w r :
  fst (Solver_local_search c_api_local_search py_int ap verbose t rnd d
         routes count w) = Ok r
  <-> exists p,
        prepare d = Ok p
        /\ fst (invoke_and_decode c_api_local_search py_int ap verbose p
                  (make_callid t rnd) count
                  (snd (write_routes routes (tmppath_of (make_callid t rnd))
                          w))) = Ok r
        /\ is_Some
             (files
                (snd (invoke_and_decode c_api_local_search py_int ap verbose
                        p (make_callid t rnd) count
                        (snd (write_routes routes
                                (tmppath_of (make_callid t rnd)) w))))
              !! tmppath_of (make_callid t rnd)).
Proof.
  pose proof (paths_differ (make_callid t rnd)) as Hne.
  destruct (prepare d) as [p|e] eqn:Hp.
  - destruct (invoke_and_decode c_api_local_search py_int ap verbose p
                (make_callid t rnd) count
                (snd (write_routes routes (tmppath_of (make_callid t rnd)) w)))
      as [[decoded|e] w2] eqn:Hb.
    + rewrite (Solver_local_search_decoded _ _ _ _ _ _ _ _ _ _ _ _ _ Hp Hb).
      rewrite lookup_delete_ne by done.
      destruct (files w2 !! tmppath_of (make_callid t rnd)) as [c|] eqn:Ht.
      * cbn [fst]. split.
        -- intros [= <-]. exists p. rewrite Hb. cbn [fst snd].
           rewrite Ht. eauto.
        -- intros (p' & [= <-] & Hr & _). rewrite Hb in Hr. exact Hr.
      * cbn [fst]. split; [discriminate|].
        intros (p' & [= <-] & _ & Hs). rewrite Hb in Hs. cbn [snd] in Hs.
        rewrite Ht in Hs. now destruct Hs.
    + rewrite (Solver_local_search_failed _ _ _ _ _ _ _ _ _ _ _ _ _ Hp Hb).
      split.
      * destruct (files w2 !! tmppath_of (make_callid t rnd)); discriminate.
      * intros (p' & [= <-] & Hr & _). rewrite Hb in Hr. discriminate.
  - rewrite (Solver_local_search_rejected _ _ _ _ _ _ _ _ _ _ _ Hp).
    split; [discriminate|]. intros (p' & [=] & _).
Qed.

(** X12. Whatever the native call raises, the caller of
    [Solver.local_search] never sees it: the exceptions that leave the
    method are those of its checks (ValueError, AssertionError,
    IndexError), UnboundLocalError from the final [return], and
    FileNotFoundError from the removal of the request file. *)
Theorem Solver_local_search_exceptions ap verbose t rnd d routes count w e :
  fst (Solver_local_search c_api_local_search py_int ap verbose t rnd d
         routes count w) = Raise e ->
  e = ValueError \/ e = AssertionError \/ e = IndexError
  \/ e = UnboundLocalError \/ e = FileNotFoundError.
Proof.
  destruct (prepare d) as [p|e'] eqn:Hp.
  - destruct (invoke_and_decode c_api_local_search py_int ap verbose p
                (make_callid t rnd) count
                (snd (write_routes routes (tmppath_of (make_callid t rnd)) w)))
      as [[decoded|e'] w2] eqn:Hb.
    + rewrite (Solver_local_search_decoded _ _ _ _ _ _ _ _ _ _ _ _ _ Hp Hb).
      destruct (delete _ _ !! _); cbn [fst]; intros [= <-]; auto.
    + rewrite (Solver_local_search_failed _ _ _ _ _ _ _ _ _ _ _ _ _ Hp Hb).
      destruct (files w2 !! _); cbn [fst]; intros [= <-]; auto.
  - rewrite (Solver_local_search_rejected _ _ _ _ _ _ _ _ _ _ _ Hp).
    cbn [fst]. intros [= <-].
    destruct (prepare_exceptions d e' Hp) as [H|[H|H]]; auto.
Qed.

End GatewayResults.

Lemma Solver_local_search_returns_witness :
  fst (Solver_local_search answering_solver sample_int
         default_AlgorithmParameters false 0 7
         (swapstar_data float32 sample_demands sample_matrix sample_positions
            [[0; 2; 1; 0]])
         [[0; 2; 1; 0]] 1 empty_world)
  = Ok [[0; 1; 2; 0]].
Proof.
  apply Solver_local_search_returns. eexists. split; [|split].
  - vm_compute. reflexivity.
  - vm_compute. reflexivity.
  - vm_compute. eauto.
Defined.

Lemma Solver_local_search_exceptions_witness :
  UnboundLocalError = ValueError \/ UnboundLocalError = AssertionError
  \/ UnboundLocalError = IndexError
  \/ UnboundLocalError = UnboundLocalError
  \/ UnboundLocalError = FileNotFoundError.
Proof.
  apply (Solver_local_search_exceptions failing_solver sample_int
           default_AlgorithmParameters false 0 7
           (swapstar_data float32 sample_demands sample_matrix sample_positions
              [[0; 2; 1; 0]])
           [[0; 2; 1; 0]] 1 empty_world).
  vm_compute. reflexivity.
Defined.

(** A solver that removes the request file: the decoding succeeds, the
    removal in the [finally] block raises, and [swapstar] falls back to
    the routes it was given. *)
Example request_removed_by_solver :
  fst (Solver_local_search tidy_solver sample_int
         default_AlgorithmParameters false 0 7
         (swapstar_data float32 sample_demands sample_matrix sample_positions
            [[0; 2; 1; 0]])
         [[0; 2; 1; 0]] 1 empty_world)
  = Raise FileNotFoundError
  /\ fst (swapstar (Ok tt) tidy_solver sample_int 0 7
            float32 sample_demands sample_matrix sample_positions
            [[0; 2; 1; 0]] 1 empty_world)
     = Ok [[0; 2; 1; 0]].
Proof. split; vm_compute; reflexivity. Qed.

Section ValidInstances.

Variable CDLL : result unit.
Variable c_api_local_search :
  solver_args -> gmap string string -> result Z * gmap string string.
Variable py_int : string -> option Z.

Lemma all_nonneg_zeros n : all_nonneg (np_zeros n) = true.
Proof. induction n; cbn; auto. Qed.

Lemma prepare_swapstar_data dt dems matrix positions routes :
  if passes_checks dt dems matrix positions then
    prepare (swapstar_data dt dems matrix positions routes)
    = Ok (map fst positions, map snd positions, matrix,
          np_zeros (length dems), map (scale_demand dt) dems,
          float_1000_001, C_DBL_MAX, false, Z.of_nat (length routes))
  else exists e, prepare (swapstar_data dt dems matrix positions routes)
                 = Raise e.
Proof.
  unfold passes_checks, prepare, swapstar_data.
  cbn [demands vehicle_capacity depot num_vehicles service_times
       duration_limit x_coordinates y_coordinates distance_matrix default].
  change (negb (0 =? 0)) with false. cbn iota.
  rewrite !length_map, !(repeat_length _ _ : length (np_zeros _) = _).
  rewrite !Nat.eqb_refl, all_nonneg_zeros.
  rewrite !andb_true_r.
  destruct (length positions =? length dems)%nat; cbn [negb andb];
    [|eauto].
  destruct (all_nonneg (map fst positions)); cbn [negb andb]; [|eauto].
  destruct (all_nonneg (map snd positions)); cbn [negb andb]; [|eauto].
  destruct (all_nonneg (map (scale_demand dt) dems));
    cbn [negb andb]; [|eauto].
  change (negb (id 0 =? 0)) with false. cbn iota. unfold id.
  destruct matrix as [|row mtx]; cbn [andb]; [eauto|].
  destruct (length (row :: mtx) =? length row)%nat; cbn [negb andb]; [|eauto].
  destruct (forallb all_nonneg (row :: mtx)); cbn [negb]; eauto.
Qed.

Lemma invoke_swapstar_args t rnd dt demands matrix positions routes count w :
  (length (concat matrix) =? length positions * length positions)%nat = true ->
  calls (snd (invoke_and_decode c_api_local_search py_int
                default_AlgorithmParameters false
                (map fst positions, map snd positions, matrix,
                 np_zeros (length demands),
                 map (scale_demand dt) demands,
                 float_1000_001, C_DBL_MAX, false, Z.of_nat (length routes))
                (make_callid t rnd) count w))
  = calls w
    ++ [swapstar_args t rnd dt demands matrix positions routes count].
Proof.
  intros Hsize. unfold invoke_and_decode, Solver__local_search, bind.
  rewrite !List.length_map, Hsize. cbn [negb]. unfold swapstar_args.
  destruct (c_api_local_search _ (files w)) as [[s|e] f]; [|reflexivity].
  unfold read_routes. cbn [files].
  destruct (f !! resultpath_of (make_callid t rnd)); reflexivity.
Qed.

Lemma invoke_bad_size ap verbose x y mtx st dem cap lim isd veh callid count
    w :
  (length (concat mtx) =? length x * length x)%nat = false ->
  invoke_and_decode c_api_local_search py_int ap verbose
    (x, y, mtx, st, dem, cap, lim, isd, veh) callid count w
  = (Raise ValueError, w).
Proof.
  intros H. unfold invoke_and_decode, Solver__local_search, bind.
  now rewrite H.
Qed.

(** X13. [swapstar] calls the native solver exactly when the library is
    loaded and the instance is valid: as many positions as demands;
    every coordinate, every demand once scaled and every distance
    compares greater than or equal to 0.0, which a negative number and
    a NaN do not; a square distance matrix with one entry per pair of
    positions. The call then carries, converted to C doubles, the
    coordinates, the flattened matrix, zero service times and the
    demands scaled in their own format, with the capacity 1000.001, no
    duration limit, as many vehicles as routes, the default parameters,
    the call identity and the iteration count. For any other instance
    no call is made and the routes come back unchanged. *)
Theorem swapstar_calls_iff_valid t rnd dt demands matrix positions routes
    count w :
  CDLL = Ok tt ->
  (valid_instance dt demands matrix positions = true ->
   calls (snd (swapstar CDLL c_api_local_search py_int t rnd dt demands
                 matrix positions routes count w))
   = calls w
     ++ [swapstar_args t rnd dt demands matrix positions routes count])
  /\ (valid_instance dt demands matrix positions = false ->
      swapstar CDLL c_api_local_search py_int t rnd dt demands matrix
        positions routes count w
      = (Ok routes,
         snd (swapstar CDLL c_api_local_search py_int t rnd dt demands
                matrix positions routes count w))
      /\ calls (snd (swapstar CDLL c_api_local_search py_int t rnd dt demands
                       matrix positions routes count w))
         = calls w).
Proof.
  intros Hlib.
  assert (Hw : snd (swapstar CDLL c_api_local_search py_int t rnd dt demands
                      matrix positions routes count w)
               = snd (Solver_local_search c_api_local_search py_int
                        default_AlgorithmParameters false t rnd
                        (swapstar_data dt demands matrix positions routes)
                        routes count w)).
  { unfold swapstar, swapstar_try, bind, lift, try_, ret. rewrite Hlib.
    destruct (Solver_local_search _ _ _ _ _ _ _ _ _ _) as [[r|e] w'];
      reflexivity. }
  unfold valid_instance.
  pose proof (prepare_swapstar_data dt demands matrix positions routes) as Hp.
  destruct (passes_checks dt demands matrix positions); cbn [andb].
  - destruct (invoke_and_decode c_api_local_search py_int
                default_AlgorithmParameters false
                (map fst positions, map snd positions, matrix,
                 np_zeros (length demands),
                 map (scale_demand dt) demands,
                 float_1000_001, C_DBL_MAX, false, Z.of_nat (length routes))
                (make_callid t rnd) count
                (snd (write_routes routes (tmppath_of (make_callid t rnd)) w)))
      as [rb w2] eqn:Hb.
    destruct (Solver_local_search_outcome c_api_local_search py_int _ _ _ _ _
                _ _ _ _ _ _ Hp Hb) as (_ & Hcalls & Hout).
    split.
    + intros Hsize. rewrite Hw, Hcalls.
      pose proof (invoke_swapstar_args t rnd dt demands matrix positions routes
                    count
                    (snd (write_routes routes
                            (tmppath_of (make_callid t rnd)) w)) Hsize) as E.
      rewrite Hb in E. exact E.
    + intros Hsize.
      rewrite invoke_bad_size in Hb by (now rewrite List.length_map).
      injection Hb as <- <-. split.
      * destruct Hout as [_ [H|H]];
          rewrite <- (Solver_raises_swapstar_falls_back CDLL
                        c_api_local_search py_int t rnd dt demands matrix
                        positions routes count w _ Hlib H) at 1;
          now destruct (swapstar _ _ _ _ _ _ _ _ _ _ _ _).
      * rewrite Hw, Hcalls. reflexivity.
  - destruct Hp as [e Hp]. split; [discriminate|]. intros _.
    pose proof (Solver_local_search_rejected c_api_local_search py_int
                  default_AlgorithmParameters false t rnd _ routes count w e
                  Hp) as Hr.
    split.
    + rewrite <- (Solver_raises_swapstar_falls_back CDLL
                    c_api_local_search py_int t rnd dt demands matrix
                    positions routes count w e Hlib) at 1.
      * now destruct (swapstar _ _ _ _ _ _ _ _ _ _ _ _).
      * now rewrite Hr.
    + rewrite Hw, Hr. reflexivity.
Qed.

End ValidInstances.

Lemma swapstar_calls_iff_valid_witness :
  calls (snd (swapstar (Ok tt) answering_solver sample_int 0 7
                float32 sample_demands sample_matrix
                sample_positions [[0; 2; 1; 0]] 1 empty_world))
  = [swapstar_args 0 7 float32 sample_demands sample_matrix
       sample_positions [[0; 2; 1; 0]] 1]
  /\ swapstar (Ok tt) answering_solver sample_int 0 7
       float32 [f32_0; S754_nan; f32_0_6] sample_matrix sample_positions
       [[0; 2; 1; 0]] 1 empty_world
     = (Ok [[0; 2; 1; 0]], empty_world).
Proof.
  split.
  - apply (swapstar_calls_iff_valid (Ok tt) answering_solver sample_int 0 7
             float32 sample_demands sample_matrix sample_positions
             [[0; 2; 1; 0]] 1 empty_world eq_refl).
    vm_compute. reflexivity.
  - destruct (swapstar_calls_iff_valid (Ok tt) answering_solver sample_int 0 7
                float32 [f32_0; S754_nan; f32_0_6] sample_matrix sample_positions
                [[0; 2; 1; 0]] 1 empty_world eq_refl) as [_ H].
    destruct H as [H _]; [vm_compute; reflexivity|].
    rewrite H. vm_compute. reflexivity.
Defined.

(** * Further properties of the batch driver *)

Section BatchMore.

Variable CDLL : result unit.
Variable c_api_local_search :
  solver_args -> gmap string string -> result Z * gmap string string.
Variable py_int : string -> option Z.
Variable get_distance_matrix :
  list (list (float * float)) -> list (list (list float)).
Variable clock : nat -> Z * Z.

Lemma merge_subroutes_length routes L row :
  merge_subroutes routes L = Ok row -> length row = L.
Proof.
  intros H. apply merge_subroutes_ok in H as [Hfit ->].
  rewrite length_app, repeat_length. lia.
Qed.

Lemma collect_rectangular futures : forall L init m,
  rectangular L init ->
  collect futures L init = Ok m ->
  rectangular L m.
Proof.
  induction futures as [|[i fut] rest IH]; intros L init m Hrect H; cbn in H.
  - now injection H as <-.
  - destruct fut as [routes|e]; [|discriminate].
    destruct (merge_subroutes routes L) as [row|e] eqn:Hm; [|discriminate].
    apply (IH _ _ _ (Forall_insert _ _ _ _ Hrect
                       (merge_subroutes_length _ _ _ Hm)) H).
Qed.

Lemma rectangular_zeros L n : rectangular L (repeat (repeat 0 L) n).
Proof.
  unfold rectangular. apply List.Forall_forall. intros row Hrow.
  apply repeat_spec in Hrow as ->. apply repeat_length.
Qed.

(** What [local_search] has assembled when the assembly succeeds: the
    futures of all the jobs, collected into the zero matrix. *)
Lemma assemble_inv td actions it w m w' :
  local_search_assemble CDLL c_api_local_search py_int get_distance_matrix
    clock td actions it w = (Ok m, w') ->
  exists futures,
    collect futures (shape1 (locs td) * 2)
      (repeat (repeat 0 (shape1 (locs td) * 2)) (length actions)) = Ok m
    /\ length m = length actions
    /\ rectangular (shape1 (locs td) * 2) m.
Proof.
  unfold local_search_assemble, bind, lift. rewrite !List.length_map.
  destruct (submit_all _ _ _ _ _ _ _ _ _ _ _ _) as [[futures|e] w1];
    [|discriminate].
  destruct (collect futures _ _) as [m0|e] eqn:Hc; [|discriminate].
  intros [= <- <-]. exists futures. split; [exact Hc|]. split.
  - apply collect_length in Hc. now rewrite Hc, repeat_length.
  - eapply collect_rectangular; [apply rectangular_zeros|exact Hc].
Qed.

Lemma local_search_inv td actions it w result w' :
  local_search CDLL c_api_local_search py_int get_distance_matrix clock
    td actions it w = (Ok result, w') ->
  exists m,
    local_search_assemble CDLL c_api_local_search py_int get_distance_matrix
      clock td actions it w = (Ok m, w')
    /\ trim m = Ok result.
Proof.
  unfold local_search, bind, lift.
  destruct (local_search_assemble _ _ _ _ _ _ _ _ _) as [[m|e] w1];
    [|discriminate].
  destruct (trim m) as [r|e] eqn:Ht; [|discriminate].
  intros [= <- <-]. now exists m.
Qed.

(** X14. A matrix that [local_search] returns has one row per batch
    item, and its rows have one common width, smaller than twice the
    number of locations. *)
Theorem local_search_shape td actions it w result w' :
  local_search CDLL c_api_local_search py_int get_distance_matrix clock
    td actions it w = (Ok result, w') ->
  length result = length actions
  /\ exists width,
       (width < shape1 (locs td) * 2)%nat /\ rectangular width result.
Proof.
  intros H. apply local_search_inv in H as (m & Ha & Ht).
  apply assemble_inv in Ha as (_ & _ & Hlen & Hrect).
  unfold trim in Ht.
  destruct (np_max (where_nonzero_columns m)) as [c|e] eqn:Hc; [|discriminate].
  injection Ht as <-. split; [now rewrite List.length_map|].
  exists c. pose proof Hc as Hspec. apply np_max_spec in Hspec as [Hin _].
  apply in_where_nonzero_columns in Hin as (r0 & Hr0 & Hlt & _).
  pose proof Hrect as Hall. unfold rectangular in Hall.
  rewrite List.Forall_forall in Hall. rewrite (Hall r0 Hr0) in Hlt.
  split; [exact Hlt|].
  unfold rectangular. apply List.Forall_forall. intros r' Hr'.
  apply in_map_iff in Hr' as (r & <- & Hr).
  apply length_slice_1. now rewrite (Hall r Hr).
Qed.

End BatchMore.

Lemma local_search_shape_witness :
  length [[1; 2]] = length [[2; 1]]
  /\ exists width,
       (width < shape1 (locs sample_td) * 2)%nat
       /\ rectangular width [[1; 2]].
Proof.
  apply (local_search_shape (Ok tt) answering_solver sample_int
           sample_distance_matrix sample_clock sample_td [[2; 1]] 1
           empty_world [[1; 2]]
           (snd (local_search (Ok tt) answering_solver sample_int
                   sample_distance_matrix sample_clock sample_td [[2; 1]] 1
                   empty_world))).
  vm_compute. reflexivity.
Defined.

Section BatchFailures.

Variable CDLL : result unit.
Variable c_api_local_search :
  solver_args -> gmap string string -> result Z * gmap string string.
Variable py_int : string -> option Z.
Variable get_distance_matrix :
  list (list (float * float)) -> list (list (list float)).
Variable clock : nat -> Z * Z.

(** When the library does not load, every job ends with the exception
    of the loading and leaves the world as it was. *)
Lemma submit_all_library_failure dt dem dist pos subs it e indices : forall w,
  CDLL = Raise e ->
  Forall (fun i => (i < length dem)%nat /\ (i < length dist)%nat
                   /\ (i < length pos)%nat /\ (i < length subs)%nat)
         indices ->
  submit_all CDLL c_api_local_search py_int clock dt dem dist pos subs it
    indices w
  = (Ok (map (fun i => (i, Raise e)) indices), w).
Proof.
  intros w Hlib H. induction H as [|i rest (H1 & H2 & H3 & H4) _ IH];
    [reflexivity|].
  cbn [submit_all map]. unfold bind at 1.
  assert (Hs : submit CDLL c_api_local_search py_int clock dt dem dist pos subs
                 it i w = (Ok (i, Raise e), w)).
  { unfold submit, bind, lift, getitem.
    destruct (lookup_lt_is_Some_2 dem i H1) as [d ->].
    destruct (lookup_lt_is_Some_2 dist i H2) as [m ->].
    destruct (lookup_lt_is_Some_2 pos i H3) as [p ->].
    destruct (lookup_lt_is_Some_2 subs i H4) as [r ->].
    unfold swapstar, swapstar_try, bind, lift. now rewrite Hlib. }
  rewrite Hs. unfold bind. now rewrite IH.
Qed.

(** X15. A library that cannot be loaded is not covered by the
    fallback: on a batch with at least one item, [local_search] raises
    the exception of the loading, and no file is written. *)
Theorem library_failure_aborts_batch td actions it w e :
  CDLL = Raise e ->
  actions <> [] ->
  (length actions <= length (demand td))%nat ->
  (length actions
   <= length match distances td with
             | None => get_distance_matrix (locs td)
             | Some distances => distances
             end)%nat ->
  (length actions <= length (locs td))%nat ->
  local_search CDLL c_api_local_search py_int get_distance_matrix clock
    td actions it w
  = (Raise e, w).
Proof.
  intros Hlib Hne H1 H2 H3.
  unfold local_search, local_search_assemble, bind, lift.
  rewrite !List.length_map.
  rewrite (submit_all_library_failure _ _ _ _ _ _ e).
  - destruct actions as [|a actions]; [congruence|]. reflexivity.
  - exact Hlib.
  - apply List.Forall_forall. intros i Hi. apply in_seq in Hi.
    rewrite !List.length_map. lia.
Qed.

(** A job whose arguments cannot be read from the batch arrays stops the
    submission with IndexError. *)
Lemma submit_all_index_error dt dem dist pos subs it indices : forall w,
  Exists (fun i => dem !! i = None \/ dist !! i = None \/ pos !! i = None)
         indices ->
  fst (submit_all CDLL c_api_local_search py_int clock dt dem dist pos subs it
         indices w)
  = Raise IndexError.
Proof.
  induction indices as [|i rest IH]; intros w H; [inversion H|].
  cbn [submit_all]. unfold bind at 1.
  unfold submit, bind, lift, getitem.
  destruct (dem !! i) as [d|] eqn:Hd; [|reflexivity].
  destruct (dist !! i) as [m|] eqn:Hm; [|reflexivity].
  destruct (pos !! i) as [p|] eqn:Hp; [|reflexivity].
  destruct (subs !! i) as [r|]; [|reflexivity].
  destruct (swapstar _ _ _ _ _ _ _ _ _ _ _ _) as [fut w1].
  assert (Hrest : Exists (fun i => dem !! i = None \/ dist !! i = None
                                   \/ pos !! i = None) rest).
  { inversion H as [? ? [E|[E|E]]|]; subst; congruence || assumption. }
  specialize (IH w1 Hrest).
  destruct (submit_all _ _ _ _ _ _ _ _ _ _ _ w1) as [[futs|e] w2];
    cbn [fst] in IH; [discriminate|].
  cbn [fst]. congruence.
Qed.

(** X16. When the TensorDict holds fewer items than there are tours,
    [local_search] raises IndexError. *)
Theorem batch_size_mismatch td actions it w :
  (length (demand td) < length actions)%nat
  \/ (length (locs td) < length actions)%nat ->
  fst (local_search CDLL c_api_local_search py_int get_distance_matrix clock
         td actions it w)
  = Raise IndexError.
Proof.
  intros H. unfold local_search, local_search_assemble, bind, lift.
  rewrite !List.length_map.
  match goal with
  | |- context [submit_all ?a ?b ?c ?d ?dt ?dem ?dist ?pos ?subs it ?ix w] =>
      pose proof (submit_all_index_error dt dem dist pos subs it ix w) as E
  end.
  assert (Hex : Exists
                  (fun i =>
                     map (fun row => S754_zero false :: row) (demand td) !! i
                     = None
                     \/ match distances td with
                        | None => get_distance_matrix (locs td)
                        | Some distances => distances
                        end !! i = None
                     \/ locs td !! i = None)
                  (seq 0 (length actions))).
  { apply List.Exists_exists. destruct H as [H|H].
    - exists (length (demand td)). split; [apply in_seq; lia|].
      left. apply lookup_ge_None. now rewrite List.length_map.
    - exists (length (locs td)). split; [apply in_seq; lia|].
      right. right. now apply lookup_ge_None. }
  specialize (E Hex).
  destruct (submit_all _ _ _ _ _ _ _ _ _ _ _ w) as [[futs|e] w1];
    cbn [fst] in *; [discriminate|congruence].
Qed.

End BatchFailures.

Lemma library_failure_aborts_batch_witness :
  local_search (Raise (OtherException "OSError")) answering_solver sample_int
    sample_distance_matrix sample_clock sample_td [[2; 1]] 1 empty_world
  = (Raise (OtherException "OSError"), empty_world).
Proof.
  apply library_failure_aborts_batch; try reflexivity; try discriminate;
    cbn; lia.
Defined.

Lemma batch_size_mismatch_witness :
  fst (local_search (Ok tt) answering_solver sample_int
         sample_distance_matrix sample_clock sample_td [[2; 1]; [1; 2]] 1
         empty_world)
  = Raise IndexError.
Proof.
  apply batch_size_mismatch. left. cbn. lia.
Defined.

Section NoImprovement.

Variable CDLL : result unit.
Variable c_api_local_search :
  solver_args -> gmap string string -> result Z * gmap string string.
Variable py_int : string -> option Z.
Variable get_distance_matrix :
  list (list (float * float)) -> list (list (list float)).
Variable clock : nat -> Z * Z.

(** With a native call that always raises, the body of the [try]
    raises. *)
Lemma invoke_raises ap verbose p callid count w :
  (forall args f, exists e, fst (c_api_local_search args f) = Raise e) ->
  exists e,
    fst (invoke_and_decode c_api_local_search py_int ap verbose p callid
           count w) = Raise e.
Proof.
  intros Hfail. destruct p as [[[[[[[[x y] mtx] st] dem] cap] lim] isd] veh].
  unfold invoke_and_decode, Solver__local_search, bind.
  destruct (length (concat mtx) =? length x * length x)%nat; cbn [negb];
    [|now exists ValueError].
  match goal with
  | |- context [c_api_local_search ?a (files w)] =>
      destruct (Hfail a (files w)) as [e He];
      destruct (c_api_local_search a (files w)) as [[s|e'] f]
  end; cbn [fst] in *; [discriminate|eauto].
Qed.

Lemma swapstar_solver_raises t rnd dt demands matrix positions routes count w :
  CDLL = Ok tt ->
  (forall args f, exists e, fst (c_api_local_search args f) = Raise e) ->
  fst (swapstar CDLL c_api_local_search py_int t rnd dt demands matrix positions
         routes count w) = Ok routes.
Proof.
  intros Hlib Hfail.
  destruct (prepare (swapstar_data dt demands matrix positions routes))
    as [p|e] eqn:Hp.
  - destruct (invoke_raises default_AlgorithmParameters false p
                (make_callid t rnd) count
                (snd (write_routes routes (tmppath_of (make_callid t rnd)) w))
                Hfail) as [e He].
    eapply swapstar_fallback; eassumption.
  - eapply Solver_raises_swapstar_falls_back; [exact Hlib|].
    now rewrite (Solver_local_search_rejected _ _ _ _ _ _ _ _ _ _ _ Hp).
Qed.

Lemma non_depot_drop_1 (row : list Z) :
  hd 0 row = 0 -> non_depot (drop 1 row) = non_depot row.
Proof.
  destruct row as [|v row]; [reflexivity|]. cbn [hd]. now intros ->.
Qed.

Lemma hd_merged_row segs n :
  Forall is_subroute segs ->
  hd 0 (merged_prefix segs ++ repeat 0 n) = 0.
Proof.
  intros Hwf. destruct segs as [|r segs].
  - change (merged_prefix []) with (@nil Z). now destruct n.
  - destruct (merged_prefix_ends_with_customer (r :: segs) Hwf)
      as (t & x & -> & _); [discriminate|reflexivity].
Qed.

(** X17. When the native solver fails on every call, a matrix that
    [local_search] returns holds, for every batch item, a row with the
    nodes of the item's tour in the same order: nothing is lost and
    nothing is added, only depot visits are rearranged. *)
Theorem failing_solver_keeps_visits td actions it w result w' i path :
  CDLL = Ok tt ->
  (forall args f, exists e, fst (c_api_local_search args f) = Raise e) ->
  local_search CDLL c_api_local_search py_int get_distance_matrix clock
    td actions it w = (Ok result, w') ->
  actions !! i = Some path ->
  exists out, result !! i = Some out /\ non_depot out = non_depot path.
Proof.
  intros Hlib Hfail H Hi.
  apply local_search_inv in H as (m & Ha & Ht).
  destruct (assemble_row CDLL c_api_local_search py_int get_distance_matrix
              clock td actions it w m w' i path Ha Hi)
    as (d & dm & p & routes & row & _ & _ & _ & Hsw & Hmerge & Hrow).
  rewrite swapstar_solver_raises in Hsw by assumption.
  injection Hsw as <-.
  unfold trim in Ht.
  destruct (np_max (where_nonzero_columns m)) as [c|e] eqn:Hc; [|discriminate].
  injection Ht as <-.
  exists (slice row 1 (c + 1)). split; [now rewrite lookup_map, Hrow|].
  assert (Hin : In row m).
  { apply list_elem_of_In. eapply list_elem_of_lookup_2. exact Hrow. }
  rewrite non_depot_slice_1
    by (intros j Hj; now apply (trim_columns m c Hc)).
  apply merge_subroutes_ok in Hmerge as [_ ->].
  rewrite get_subroutes_split in *.
  rewrite non_depot_drop_1
    by (apply hd_merged_row, split_at_depot_wf; constructor).
  rewrite non_depot_app, non_depot_repeat, app_nil_r.
  now rewrite non_depot_merged_split.
Qed.

End NoImprovement.

Lemma failing_solver_keeps_visits_witness :
  exists out,
    [[2; 0; 1]] !! 0%nat = Some out
    /\ non_depot out = non_depot [0; 2; 0; 0; 1].
Proof.
  apply (failing_solver_keeps_visits (Ok tt) failing_solver sample_int
           sample_distance_matrix sample_clock sample_td [[0; 2; 0; 0; 1]] 1
           empty_world [[2; 0; 1]]
           (snd (local_search (Ok tt) failing_solver sample_int
                   sample_distance_matrix sample_clock sample_td
                   [[0; 2; 0; 0; 1]] 1 empty_world)) 0 [0; 2; 0; 0; 1]).
  - reflexivity.
  - intros args f. eexists. reflexivity.
  - vm_compute. reflexivity.
  - reflexivity.
Defined.

Section CanonicalRows.

(** X18. A merged row is a fixed point of the codec: when proper
    subroutes are merged into a row that keeps at least one trailing
    zero, decomposing the row and merging again to the same length
    gives the row back. *)
Theorem merge_get_subroutes_fixed_point (segs : list (list Z)) (n : nat)
    (row : list Z) :
  Forall is_subroute segs ->
  (length (merged_prefix segs) < n)%nat ->
  merge_subroutes segs n = Ok row ->
  get_subroutes row true = segs
  /\ merge_subroutes (get_subroutes row true) n = Ok row.
Proof.
  intros Hwf Hlt Hm. pose proof Hm as Hrow.
  apply merge_subroutes_ok in Hrow as [_ ->].
  assert (E : get_subroutes
                (merged_prefix segs
                 ++ repeat 0 (n - length (merged_prefix segs))) true = segs).
  { replace (n - length (merged_prefix segs))%nat
      with (S (n - length (merged_prefix segs) - 1)) by lia.
    now apply get_subroutes_merged. }
  split; [exact E|]. now rewrite E.
Qed.

Lemma merge_get_subroutes_fixed_point_witness :
  get_subroutes [0; 3; 1; 0; 2; 0; 0] true = [[0; 3; 1; 0]; [0; 2; 0]]
  /\ merge_subroutes (get_subroutes [0; 3; 1; 0; 2; 0; 0] true) 7
     = Ok [0; 3; 1; 0; 2; 0; 0].
Proof.
  apply (merge_get_subroutes_fixed_point [[0; 3; 1; 0]; [0; 2; 0]] 7).
  - repeat constructor.
    + exists [3; 1]. repeat split; [discriminate|repeat constructor; discriminate].
    + exists [2]. repeat split; [discriminate|repeat constructor; discriminate].
  - cbn. lia.
  - reflexivity.
Defined.

End CanonicalRows.

Section EchoSolver.

Variable py_int : string -> option Z.

Lemma files_after_echo (f : gmap string string) (tmp res : string)
    (text : string) :
  tmp <> res ->
  delete tmp (delete res (<[res := text]> (<[tmp := text]> f)))
  = delete tmp (delete res f).
Proof.
  intros Hne. apply map_eq. intros k.
  destruct (decide (k = tmp)) as [->|Hk1].
  - now rewrite !lookup_delete_eq.
  - rewrite !(lookup_delete_ne _ tmp k) by done.
    destruct (decide (k = res)) as [->|Hk2].
    + now rewrite !lookup_delete_eq.
    + rewrite !(lookup_delete_ne _ res k) by done.
      now rewrite !lookup_insert_ne by done.
Qed.

(** X19. With a native solver that finds no improvement and copies the
    request to the response, [Solver.local_search] on a valid instance
    returns the subroutes it was given, has made one native call, and
    leaves neither exchange file behind; the other files are
    untouched. [int] reads what [str] prints. *)
Theorem echo_solver_returns_routes t rnd dt demands matrix positions routes
    count w :
  (forall x, 0 < x -> py_int (str x) = Some x) ->
  valid_instance dt demands matrix positions = true ->
  Forall depot_delimited routes ->
  Solver_local_search echo_solver py_int default_AlgorithmParameters false
    t rnd (swapstar_data dt demands matrix positions routes) routes count w
  = (Ok routes,
     {| files := delete (tmppath_of (make_callid t rnd))
                   (delete (resultpath_of (make_callid t rnd)) (files w));
        calls := calls w
                 ++ [swapstar_args t rnd dt demands matrix positions routes
                       count] |}).
Proof.
  intros Hint Hvalid Hwf. unfold valid_instance in Hvalid.
  apply andb_true_iff in Hvalid as [Hchecks Hsize].
  pose proof (prepare_swapstar_data dt demands matrix positions routes) as Hp.
  rewrite Hchecks in Hp.
  pose proof (paths_differ (make_callid t rnd)) as Hne.
  assert (Hb : invoke_and_decode echo_solver py_int
                 default_AlgorithmParameters false
                 (map fst positions, map snd positions, matrix,
                  np_zeros (length demands),
                  map (scale_demand dt) demands,
                  float_1000_001, C_DBL_MAX, false, Z.of_nat (length routes))
                 (make_callid t rnd) count
                 (snd (write_routes routes (tmppath_of (make_callid t rnd)) w))
               = (Ok routes,
                  {| files :=
                       <[resultpath_of (make_callid t rnd)
                         := write_routes_text routes]>
                         (<[tmppath_of (make_callid t rnd)
                            := write_routes_text routes]> (files w));
                     calls := calls w
                              ++ [swapstar_args t rnd dt demands matrix positions
                                    routes count] |})).
  { unfold invoke_and_decode, Solver__local_search, bind.
    rewrite !List.length_map, Hsize. cbn [negb].
    cbn [write_routes snd set_files files calls].
    unfold echo_solver. cbn [arg_callid].
    fold (tmppath_of (make_callid t rnd)).
    fold (resultpath_of (make_callid t rnd)).
    rewrite lookup_insert_eq. unfold read_routes. cbn [files].
    rewrite lookup_insert_eq. unfold write_routes_text.
    rewrite universal_newlines_lacks_cr by apply write_routes_from_lacks_cr.
    rewrite write_routes_from_lines, read_written_lines by exact Hint.
    unfold swapstar_args. do 2 f_equal.
    clear -Hwf. induction Hwf as [|r routes (body & -> & Hpos) _ IH];
      [reflexivity|].
    cbn [map]. rewrite IH. unfold as_subroute. now rewrite positive_entries. }
  rewrite (Solver_local_search_decoded _ _ _ _ _ _ _ _ _ _ _ _ _ Hp Hb).
  cbn [files calls].
  rewrite lookup_delete_ne, lookup_insert_ne, lookup_insert_eq by done.
  now rewrite files_after_echo.
Qed.

End EchoSolver.

Lemma echo_solver_returns_routes_witness :
  Solver_local_search echo_solver decimal_int default_AlgorithmParameters
    false 0 7
    (swapstar_data float32 sample_demands sample_matrix sample_positions
       [[0; 2; 1; 0]])
    [[0; 2; 1; 0]] 1 empty_world
  = (Ok [[0; 2; 1; 0]],
     {| files := delete (tmppath_of (make_callid 0 7))
                   (delete (resultpath_of (make_callid 0 7)) ∅);
        calls := [swapstar_args 0 7 float32 sample_demands sample_matrix
                    sample_positions [[0; 2; 1; 0]] 1] |}).
Proof.
  apply (echo_solver_returns_routes decimal_int 0 7 float32 sample_demands
           sample_matrix sample_positions [[0; 2; 1; 0]] 1 empty_world).
  - intros x _. apply decimal_int_str.
  - vm_compute. reflexivity.
  - repeat constructor. exists [2; 1]. split; [reflexivity|repeat constructor].
Defined.

Section CallBudget.

Variable CDLL : result unit.
Variable c_api_local_search :
  solver_args -> gmap string string -> result Z * gmap string string.
Variable py_int : string -> option Z.
Variable get_distance_matrix :
  list (list (float * float)) -> list (list (list float)).
Variable clock : nat -> Z * Z.

Lemma swapstar_call_budget t rnd dt demands matrix positions routes count w :
  exists new,
    calls (snd (swapstar CDLL c_api_local_search py_int t rnd dt demands matrix
                  positions routes count w)) = calls w ++ new
    /\ (length new <= 1)%nat.
Proof.
  destruct (swapstar_world CDLL c_api_local_search py_int t rnd dt demands matrix
              positions routes count w) as [-> | ->].
  - exists []. split; [now rewrite app_nil_r|cbn; lia].
  - destruct (Solver_local_search_calls c_api_local_search py_int
                default_AlgorithmParameters false t rnd
                (swapstar_data dt demands matrix positions routes) routes count w)
      as [-> | (args & -> & _)].
    + exists []. split; [now rewrite app_nil_r|cbn; lia].
    + exists [args]. split; [reflexivity|cbn; lia].
Qed.

Lemma submit_call_budget dt dem dist pos subs it i w :
  exists new,
    calls (snd (submit CDLL c_api_local_search py_int clock dt dem dist pos subs
                  it i w)) = calls w ++ new
    /\ (length new <= 1)%nat.
Proof.
  assert (Hnone : exists new : list solver_args,
             calls w = calls w ++ new /\ (length new <= 1)%nat).
  { exists []. split; [now rewrite app_nil_r|cbn; lia]. }
  unfold submit, bind, lift, getitem.
  destruct (dem !! i) as [d|]; [|exact Hnone].
  destruct (dist !! i) as [m|]; [|exact Hnone].
  destruct (pos !! i) as [p|]; [|exact Hnone].
  destruct (subs !! i) as [r|]; [|exact Hnone].
  destruct (swapstar_call_budget (fst (clock i)) (snd (clock i)) dt d m p r it w)
    as (new & Hnew & Hlen).
  destruct (swapstar _ _ _ _ _ _ _ _ _ _ _ w) as [future w1].
  exists new. split; assumption.
Qed.

Lemma submit_all_call_budget dt dem dist pos subs it indices : forall w,
  exists new,
    calls (snd (submit_all CDLL c_api_local_search py_int clock dt dem dist pos
                  subs it indices w)) = calls w ++ new
    /\ (length new <= length indices)%nat.
Proof.
  induction indices as [|i rest IH]; intros w.
  - exists []. split; [now rewrite app_nil_r|cbn; lia].
  - cbn [submit_all]. unfold bind at 1.
    destruct (submit_call_budget dt dem dist pos subs it i w)
      as (new1 & Hnew1 & Hlen1).
    destruct (submit _ _ _ _ _ _ _ _ _ _ i w) as [[future|e] w1];
      cbn [snd] in Hnew1.
    + unfold bind at 1. destruct (IH w1) as (new2 & Hnew2 & Hlen2).
      destruct (submit_all _ _ _ _ _ _ _ _ _ _ rest w1) as [[futures|e] w2];
        cbn [snd] in Hnew2 |- *.
      * unfold ret. cbn [snd]. exists (new1 ++ new2).
        rewrite Hnew2, Hnew1, <- app_assoc, length_app.
        split; [reflexivity|cbn; lia].
      * exists (new1 ++ new2).
        rewrite Hnew2, Hnew1, <- app_assoc, length_app.
        split; [reflexivity|cbn; lia].
    + cbn [snd]. exists new1. split; [assumption|cbn; lia].
Qed.

(** X20. Whatever its outcome, [local_search] only appends to the log of
    native calls, and it appends at most one call per batch item: a job
    is never tried a second time. *)
Theorem local_search_call_budget td actions it w :
  exists new,
    calls (snd (local_search CDLL c_api_local_search py_int
                  get_distance_matrix clock td actions it w))
    = calls w ++ new
    /\ (length new <= length actions)%nat.
Proof.
  unfold local_search, local_search_assemble. unfold bind at 1 2.
  match goal with
  | |- context [submit_all _ _ _ _ ?dt ?dem ?dist ?pos ?subs _ ?ind w] =>
      destruct (submit_all_call_budget dt dem dist pos subs it ind w)
        as (new & Hnew & Hlen);
      destruct (submit_all CDLL c_api_local_search py_int clock dt dem dist pos
                  subs it ind w) as [[futures|e] w1]
  end; cbn [snd] in Hnew.
  - rewrite length_seq, !List.length_map in Hlen.
    unfold lift. 
    destruct (collect futures _ _) as [new_actions|e]; cbn [snd].
    + destruct (trim new_actions); cbn [snd]; exists new; now split.
    + exists new; now split.
  - rewrite length_seq, !List.length_map in Hlen. cbn [snd].
    exists new; now split.
Qed.

End CallBudget.

Section LibraryLocation.

Variable sh : string -> gmap string string -> gmap string string.

Lemma endswith_sep_app (s : string) c (t : string) :
  endswith_sep (s ++ String c t) = endswith_sep (String c t).
Proof.
  induction s as [|a s IH]; [reflexivity|].
  rewrite append_String. cbn [endswith_sep].
  destruct s as [|b s]; [reflexivity|].
  rewrite append_String in *. exact IH.
Qed.

Lemma join_step_relative (path : string) c (t : string) :
  Ascii.eqb c "/" = false ->
  path <> EmptyString ->
  endswith_sep path = false ->
  join_step path (String c t) = (path ++ "/" ++ String c t)%string.
Proof.
  intros Hc Hne Hend. unfold join_step. cbn [startswith_sep].
  rewrite Hc, Hend. destruct path; [contradiction|reflexivity].
Qed.

Lemma HGS_dir_shape (module_dir : string) :
  os_path_join module_dir ["HGS-CVRP"%string] <> EmptyString
  /\ endswith_sep (os_path_join module_dir ["HGS-CVRP"%string]) = false.
Proof.
  unfold os_path_join, fold_left, join_step. cbn [startswith_sep].
  change (Ascii.eqb "H" "/") with false. cbn iota.
  destruct module_dir as [|a s].
  - split; [discriminate|reflexivity].
  - destruct (endswith_sep (String a s)).
    + split; [rewrite append_String; discriminate|].
      apply (endswith_sep_app (String a s) "H" "GS-CVRP").
    + split; [rewrite append_String; discriminate|].
      apply (endswith_sep_app (String a s) "/" "HGS-CVRP").
Qed.

Lemma library_path_shape (module_dir : string) :
  os_path_join (os_path_join module_dir ["HGS-CVRP"%string])
    ["build"; "libhgscvrp.so"]%string
  = (os_path_join module_dir ["HGS-CVRP"%string]
     ++ "/build/libhgscvrp.so")%string.
Proof.
  destruct (HGS_dir_shape module_dir) as [Hne Hend].
  set (hgs_dir := os_path_join module_dir ["HGS-CVRP"%string]) in *.
  unfold os_path_join at 1. cbn [fold_left].
  rewrite (join_step_relative hgs_dir "b" "uild") by (reflexivity || assumption).
  rewrite (join_step_relative _ "l" "ibhgscvrp.so").
  - now rewrite !string_app_assoc.
  - reflexivity.
  - destruct hgs_dir; [contradiction|rewrite append_String; discriminate].
  - apply (endswith_sep_app hgs_dir "/" "build").
Qed.

(** X21. Importing the module either binds [HGS_LIBRARY_FILEPATH] to
    the path of the library under the HGS-CVRP directory next to the
    module, and a file is there at that moment, or raises
    FileNotFoundError. The build script runs exactly when the library is
    missing at import, once, and a library still missing after the build
    makes the import fail; when the library is present nothing is
    changed. *)
Theorem library_located_or_import_fails (module_dir : string) (w : world) :
  let hgs_dir := os_path_join module_dir ["HGS-CVRP"%string] in
  let path := (hgs_dir ++ "/build/libhgscvrp.so")%string in
  let built := set_files w (sh ("sh " ++ hgs_dir ++ "/build.sh") (files w)) in
  HGS_LIBRARY_FILEPATH sh module_dir w
  = if os_path_isfile path w then (Ok path, w)
    else if os_path_isfile path built then (Ok path, built)
    else (Raise FileNotFoundError, built).
Proof.
  cbn zeta. unfold HGS_LIBRARY_FILEPATH, try_, get_lib_filename, bind, ret,
    os_popen_read.
  rewrite library_path_shape.
  destruct (os_path_isfile _ w); cbn [negb]; [reflexivity|].
  destruct (os_path_isfile _ (set_files w _)); reflexivity.
Qed.

End LibraryLocation.
